(** * The local TCP forwarding proxy of lxc-dev-manager (internal/proxy/proxy.go)

    A shallow embedding of [Proxy] and [Manager].  The structs are records,
    every goroutine of the package is a program counter over the statements
    of its Go function, and the package runs as a labelled transition system
    ([exec]) whose labels pick the goroutine that moves and what the socket
    layer answers.  The Go [net] package and the peers (clients, backend)
    are the environment: their behaviour is written out in the sections
    named "socket layer" and "peers". *)

From Stdlib Require Import Strings.Byte Strings.Ascii.
From stdpp Require Import gmap list strings pretty.

Local Open Scope Z_scope.

(** ** Constants (proxy.go, lines 11-18) *)

(** [time.Second], in nanoseconds as [time.Duration] counts them. *)
Definition Second : Z := 1000000000.

Definition MaxConnectionsPerProxy : nat := 100.
Definition ConnectionTimeout : Z := 30 * Second.
Definition DialTimeout : Z := 5 * Second.

(** ** Socket layer: listening *)

(** What the operating system knows: the TCP ports in listening state, the
    clock (nanoseconds), whether the process may bind ports below 1024, and
    the range from which port 0 is resolved. *)
Record OS := mkOS {
  bound : gset Z;
  clock : Z;
  privileged : bool;
  eph_lo : Z;
  eph_hi : Z
}.

Definition os_set_bound (o : OS) (b : gset Z) : OS :=
  mkOS b (clock o) (privileged o) (eph_lo o) (eph_hi o).
Definition os_set_clock (o : OS) (t : Z) : OS :=
  mkOS (bound o) t (privileged o) (eph_lo o) (eph_hi o).

Inductive NetError :=
| EINVALPORT   (* the address does not parse: port outside 0..65535 *)
| EADDRINUSE   (* the port is already listening, or no ephemeral port is left *)
| EACCES.      (* a port below 1024 without privilege *)

(** Go errors: what [net.Listen] returns, and [fmt.Errorf] with [%w]. *)
Inductive error :=
| OpError (e : NetError)
| Errorf (msg : string) (wrapped : error).

Fixpoint Unwrap (e : error) : NetError :=
  match e with
  | OpError n => n
  | Errorf _ w => Unwrap w
  end.

Record Listener := mkListener {
  l_port : Z;        (* the port really bound *)
  l_closed : bool
}.

(** The first port among [p], [p+1], ... ([n] of them) that is not
    listening. *)
Fixpoint first_free (b : gset Z) (p : Z) (n : nat) : option Z :=
  match n with
  | O => None
  | S n' => if bool_decide (p ∉ b) then Some p else first_free b (p + 1) n'
  end.

(** Port 0 resolves to the first free port of the ephemeral range. *)
Definition pick_ephemeral (o : OS) : option Z :=
  first_free (bound o) (eph_lo o) (Z.to_nat (eph_hi o - eph_lo o + 1)).

(** [net.Listen("tcp", ":<port>")]. *)
Definition net_Listen (o : OS) (port : Z) : error + (Listener * OS) :=
  if bool_decide (port < 0 ∨ 65535 < port) then inl (OpError EINVALPORT)
  else if bool_decide (port = 0) then
    match pick_ephemeral o with
    | Some p => inr (mkListener p false, os_set_bound o ({[p]} ∪ bound o))
    | None => inl (OpError EADDRINUSE)
    end
  else if bool_decide (port < 1024) && negb (privileged o) then inl (OpError EACCES)
  else if bool_decide (port ∈ bound o) then inl (OpError EADDRINUSE)
  else inr (mkListener port false, os_set_bound o ({[port]} ∪ bound o)).

(** ** Socket layer: connections *)

(** One end of a TCP connection, as the proxy holds it.  [peer_sent] and
    [tx] are the whole history of each direction; [rx] is the part of
    [peer_sent] that has arrived and was not read yet. *)
Record Conn := mkConn {
  peer_sent : list byte;
  rx : list byte;
  rx_eof : bool;            (* the peer shut down its write half *)
  rst : bool;               (* the peer reset the connection *)
  tx : list byte;
  wr_closed : bool;         (* CloseWrite was called *)
  closed : bool;            (* Close was called *)
  deadline : option Z       (* the absolute time given to SetDeadline *)
}.

Definition conn_set_rx (c : Conn) (r : list byte) : Conn :=
  mkConn (peer_sent c) r (rx_eof c) (rst c) (tx c) (wr_closed c) (closed c) (deadline c).
Definition conn_set_tx (c : Conn) (t : list byte) : Conn :=
  mkConn (peer_sent c) (rx c) (rx_eof c) (rst c) t (wr_closed c) (closed c) (deadline c).
Definition conn_set_wr_closed (c : Conn) (b : bool) : Conn :=
  mkConn (peer_sent c) (rx c) (rx_eof c) (rst c) (tx c) b (closed c) (deadline c).
Definition conn_set_closed (c : Conn) (b : bool) : Conn :=
  mkConn (peer_sent c) (rx c) (rx_eof c) (rst c) (tx c) (wr_closed c) b (deadline c).
Definition conn_set_deadline (c : Conn) (d : option Z) : Conn :=
  mkConn (peer_sent c) (rx c) (rx_eof c) (rst c) (tx c) (wr_closed c) (closed c) d.

(** A connection that was just established; [early] is what the peer sent
    before the proxy got hold of it. *)
Definition new_conn (early : list byte) : Conn :=
  mkConn early early false false [] false false None.

Inductive IOError := ErrClosed | ErrTimeout | ErrReset | ErrPipe.

(** A deadline is an absolute instant: every read and write at or after it
    fails, whatever happened before. *)
Definition expired (now : Z) (c : Conn) : bool :=
  match deadline c with
  | Some d => bool_decide (d ≤ now)
  | None => false
  end.

Inductive ReadResult :=
| ReadData (chunk : list byte) (c' : Conn)
| ReadEOF
| ReadErr (e : IOError)
| ReadBlocked.

(** [c.Read(buf)]; [n] is how many bytes the kernel hands over. *)
Definition conn_Read (now : Z) (n : nat) (c : Conn) : ReadResult :=
  if closed c then ReadErr ErrClosed
  else if expired now c then ReadErr ErrTimeout
  else if rst c then ReadErr ErrReset
  else match rx c with
       | [] => if rx_eof c then ReadEOF else ReadBlocked
       | _ => ReadData (take n (rx c)) (conn_set_rx c (drop n (rx c)))
       end.

(** [c.Write(bs)]. *)
Definition conn_Write (now : Z) (bs : list byte) (c : Conn) : IOError + Conn :=
  if closed c then inl ErrClosed
  else if expired now c then inl ErrTimeout
  else if wr_closed c then inl ErrPipe
  else if rst c then inl ErrReset
  else inr (conn_set_tx c (tx c ++ bs)).

(** [c.SetDeadline(t)], [c.CloseWrite()], [c.Close()]: the proxy ignores
    what they return. *)
Definition conn_SetDeadline (t : Z) (c : Conn) : Conn :=
  if closed c then c else conn_set_deadline c (Some t).
Definition conn_CloseWrite (c : Conn) : Conn :=
  if closed c then c else conn_set_wr_closed c true.
Definition conn_Close (c : Conn) : Conn := conn_set_closed c true.

(** ** The Proxy struct and its goroutines *)

(** [done] is a channel nobody sends on: it is open or closed.  [connSem]
    is a buffered channel used as a counter: how many elements it holds,
    and its capacity.  [wg] is the WaitGroup counter. *)
Record Proxy := mkProxy {
  LocalPort : Z;
  RemoteAddr : string;
  listener : option Listener;
  done_closed : bool;
  wg : Z;
  connSem : nat;
  connSem_cap : nat
}.

Definition px_set_listener (p : Proxy) (l : option Listener) : Proxy :=
  mkProxy (LocalPort p) (RemoteAddr p) l (done_closed p) (wg p) (connSem p) (connSem_cap p).
Definition px_set_done_closed (p : Proxy) (b : bool) : Proxy :=
  mkProxy (LocalPort p) (RemoteAddr p) (listener p) b (wg p) (connSem p) (connSem_cap p).
Definition px_set_wg (p : Proxy) (n : Z) : Proxy :=
  mkProxy (LocalPort p) (RemoteAddr p) (listener p) (done_closed p) n (connSem p) (connSem_cap p).
Definition px_set_connSem (p : Proxy) (n : nat) : Proxy :=
  mkProxy (LocalPort p) (RemoteAddr p) (listener p) (done_closed p) (wg p) n (connSem_cap p).

(** proxy.go, lines 31-38. *)
Definition New (localPort : Z) (remoteHost : string) (remotePort : Z) : Proxy :=
  mkProxy localPort (remoteHost +:+ ":" +:+ pretty remotePort)
          None false 0 0 MaxConnectionsPerProxy.

(** What [io.Copy] returns (the relay goroutines drop it). *)
Inductive CopyResult := CopyOk | CopyFail (e : IOError).

(** One relay goroutine (lines 113-120, 122-129): the [io.Copy] loop, the
    half-close, the send on the handler's [done] channel. *)
Inductive RelayPc :=
| RIdle                          (* not spawned yet *)
| RRead                          (* io.Copy: src.Read *)
| RWrite (buf : list byte)       (* io.Copy: dst.Write(buf) *)
| RCloseWrite (r : CopyResult)   (* tc.CloseWrite() on the destination *)
| RSend (r : CopyResult)         (* done <- struct{}{} *)
| RExited (r : CopyResult).

(** [handleConnection] (lines 89-134), deferred calls in the order they
    run. *)
Inductive HandlerPc :=
| HSetDeadlineLocal              (* line 97 *)
| HDial (started : Z)            (* line 101, entered at time [started] *)
| HSetDeadlineRemote             (* line 108 *)
| HGoUp                          (* lines 111-120: make(done, 2); go local->remote *)
| HGoDown                        (* lines 122-129: go remote->local *)
| HWait1                         (* line 132 *)
| HWait2                         (* line 133 *)
| HCloseRemote                   (* deferred, line 105 *)
| HCloseLocal                    (* deferred, line 91 *)
| HReleaseSem                    (* deferred, line 92 *)
| HWgDone                        (* deferred, line 93 *)
| HExited.

Record Handler := mkHandler {
  hpc : HandlerPc;
  local : Conn;
  remote : option Conn;
  up : RelayPc;                  (* io.Copy(remote, local) *)
  down : RelayPc;                (* io.Copy(local, remote) *)
  done_ch : nat                  (* elements in the handler's done channel *)
}.

Definition h_set_pc (h : Handler) (pc : HandlerPc) : Handler :=
  mkHandler pc (local h) (remote h) (up h) (down h) (done_ch h).
Definition h_set_local (h : Handler) (c : Conn) : Handler :=
  mkHandler (hpc h) c (remote h) (up h) (down h) (done_ch h).
Definition h_set_remote (h : Handler) (c : option Conn) : Handler :=
  mkHandler (hpc h) (local h) c (up h) (down h) (done_ch h).
Definition h_set_up (h : Handler) (r : RelayPc) : Handler :=
  mkHandler (hpc h) (local h) (remote h) r (down h) (done_ch h).
Definition h_set_down (h : Handler) (r : RelayPc) : Handler :=
  mkHandler (hpc h) (local h) (remote h) (up h) r (done_ch h).
Definition h_set_done_ch (h : Handler) (n : nat) : Handler :=
  mkHandler (hpc h) (local h) (remote h) (up h) (down h) n.

(** [acceptLoop] (lines 63-87). *)
Inductive AcceptPc :=
| AIdle                          (* Start has not run *)
| AAccept                        (* line 67 *)
| AErr                           (* lines 69-74: select on p.done *)
| AAcquire (c : Conn)            (* lines 78-85: select on p.connSem *)
| AWgAdd (c : Conn)              (* line 80 *)
| AGo (c : Conn)                 (* line 81 *)
| AReject (c : Conn)             (* line 84 *)
| ADeferDone                     (* deferred, line 64 *)
| AExited.

(** One call of [Stop] (lines 55-61). *)
Inductive StopPc :=
| SCloseDone                     (* line 56 *)
| SCloseListener                 (* lines 57-59 *)
| SWait                          (* line 60 *)
| SReturned.

(** A Forwarder at run time.  [rejected] keeps the connections closed at
    the gate and [lcloses] counts the calls of [listener.Close]: both are
    only observed by the theorems.  A Go panic ends the process:
    [panicked] freezes the run. *)
Record Fwd := mkFwd {
  px : Proxy;
  acceptor : AcceptPc;
  handlers : list Handler;
  stops : list StopPc;
  rejected : list Conn;
  lcloses : nat;
  panicked : bool
}.

Definition f_set_px (f : Fwd) (p : Proxy) : Fwd :=
  mkFwd p (acceptor f) (handlers f) (stops f) (rejected f) (lcloses f) (panicked f).
Definition f_set_acceptor (f : Fwd) (a : AcceptPc) : Fwd :=
  mkFwd (px f) a (handlers f) (stops f) (rejected f) (lcloses f) (panicked f).
Definition f_set_handlers (f : Fwd) (hs : list Handler) : Fwd :=
  mkFwd (px f) (acceptor f) hs (stops f) (rejected f) (lcloses f) (panicked f).
Definition f_set_stops (f : Fwd) (ss : list StopPc) : Fwd :=
  mkFwd (px f) (acceptor f) (handlers f) ss (rejected f) (lcloses f) (panicked f).
Definition f_set_rejected (f : Fwd) (cs : list Conn) : Fwd :=
  mkFwd (px f) (acceptor f) (handlers f) (stops f) cs (lcloses f) (panicked f).
Definition f_set_lcloses (f : Fwd) (n : nat) : Fwd :=
  mkFwd (px f) (acceptor f) (handlers f) (stops f) (rejected f) n (panicked f).
Definition f_panic (f : Fwd) : Fwd :=
  mkFwd (px f) (acceptor f) (handlers f) (stops f) (rejected f) (lcloses f) true.

(** A Proxy value on which nothing runs. *)
Definition idle (p : Proxy) : Fwd := mkFwd p AIdle [] [] [] 0 false.

Record World := mkWorld { w_os : OS; w_fwd : Fwd }.

(** [Start] (lines 41-52), on the value [New] returned: every caller in the
    repository ([Manager.Add], the tests) starts a Proxy once, right after
    [New].  The result is the returned error and the state the call leaves
    behind. *)
Definition Start (o : OS) (p : Proxy) : option error * World :=
  match net_Listen o (LocalPort p) with
  | inl err =>
      (Some (Errorf ("failed to listen on port " +:+ pretty (LocalPort p)) err),
       mkWorld o (idle p))
  | inr (l, o') =>
      let p1 := px_set_listener p (Some l) in
      let p2 := px_set_wg p1 (wg p1 + 1) in
      (None, mkWorld o' (f_set_acceptor (idle p2) AAccept))
  end.

(** ** Manager (lines 136-159) *)

Record Manager := mkManager { proxies : list Fwd }.

Definition NewManager : Manager := mkManager [].

(** [Add] holds the mutex from entry to return, so it is one function of
    the state. *)
Definition Add (o : OS) (m : Manager) (localPort : Z) (remoteHost : string)
    (remotePort : Z) : option error * OS * Manager :=
  let proxy := New localPort remoteHost remotePort in
  match Start o proxy with
  | (Some err, w) => (Some err, w_os w, m)
  | (None, w) => (None, w_os w, mkManager (proxies m ++ [w_fwd w]))
  end.

(** ** The goroutines, statement by statement *)

(** A statement blocks ([Stuck]), completes, or panics ([Crash]). *)
Inductive Res (A : Type) :=
| Stuck
| Ok (a : A)
| Crash.
Arguments Stuck {A}.
Arguments Ok {A} a.
Arguments Crash {A}.

(** The handler goroutine the accept loop spawns for [c]. *)
Definition spawn_handler (c : Conn) : Handler :=
  mkHandler HSetDeadlineLocal c None RIdle RIdle 0.

(** [acceptLoop].  [env] is what [Accept] answers: [Some early] is a new
    connection (the client already sent [early]), [None] an error.  A
    closed listener only answers with an error. *)
Definition acceptor_step (env : option (list byte)) (f : Fwd) : Res Fwd :=
  let p := px f in
  match acceptor f with
  | AIdle | AExited => Stuck
  | AAccept =>
      match listener p with
      | None => Crash
      | Some l =>
          match env with
          | Some early =>
              if l_closed l then Stuck
              else Ok (f_set_acceptor f (AAcquire (new_conn early)))
          | None => Ok (f_set_acceptor f AErr)
          end
      end
  | AErr =>
      if done_closed p then Ok (f_set_acceptor f ADeferDone)
      else Ok (f_set_acceptor f AAccept)
  | AAcquire c =>
      if bool_decide (connSem p < connSem_cap p)%nat
      then Ok (f_set_acceptor (f_set_px f (px_set_connSem p (S (connSem p)))) (AWgAdd c))
      else Ok (f_set_acceptor f (AReject c))
  | AWgAdd c =>
      Ok (f_set_acceptor (f_set_px f (px_set_wg p (wg p + 1))) (AGo c))
  | AGo c =>
      Ok (f_set_acceptor (f_set_handlers f (handlers f ++ [spawn_handler c])) AAccept)
  | AReject c =>
      Ok (f_set_acceptor (f_set_rejected f (rejected f ++ [conn_Close c])) AAccept)
  | ADeferDone =>
      if bool_decide (wg p - 1 < 0) then Crash
      else Ok (f_set_acceptor (f_set_px f (px_set_wg p (wg p - 1))) AExited)
  end.

(** [handleConnection].  [dial_ok] is what [dialer.Dial] answers. *)
Definition handler_step (now : Z) (dial_ok : bool) (p : Proxy) (h : Handler)
    : Res (Proxy * Handler) :=
  match hpc h with
  | HSetDeadlineLocal =>
      Ok (p, h_set_pc (h_set_local h (conn_SetDeadline (now + ConnectionTimeout) (local h)))
                      (HDial now))
  | HDial _ =>
      if dial_ok
      then Ok (p, h_set_pc (h_set_remote h (Some (new_conn []))) HSetDeadlineRemote)
      else Ok (p, h_set_pc h HCloseLocal)
  | HSetDeadlineRemote =>
      Ok (p, h_set_pc (h_set_remote h
                         (conn_SetDeadline (now + ConnectionTimeout) <$> remote h))
                      HGoUp)
  | HGoUp => Ok (p, h_set_pc (h_set_up (h_set_done_ch h 0%nat) RRead) HGoDown)
  | HGoDown => Ok (p, h_set_pc (h_set_down h RRead) HWait1)
  | HWait1 =>
      match done_ch h with
      | O => Stuck
      | S k => Ok (p, h_set_pc (h_set_done_ch h k) HWait2)
      end
  | HWait2 =>
      match done_ch h with
      | O => Stuck
      | S k => Ok (p, h_set_pc (h_set_done_ch h k) HCloseRemote)
      end
  | HCloseRemote =>
      Ok (p, h_set_pc (h_set_remote h (conn_Close <$> remote h)) HCloseLocal)
  | HCloseLocal =>
      Ok (p, h_set_pc (h_set_local h (conn_Close (local h))) HReleaseSem)
  | HReleaseSem =>
      match connSem p with
      | O => Stuck
      | S k => Ok (px_set_connSem p k, h_set_pc h HWgDone)
      end
  | HWgDone =>
      if bool_decide (wg p - 1 < 0) then Crash
      else Ok (px_set_wg p (wg p - 1), h_set_pc h HExited)
  | HExited => Stuck
  end.

(** The two relay goroutines differ by the direction only. *)
Inductive Dir := Up | Down.

Definition relay_pc (d : Dir) (h : Handler) : RelayPc :=
  match d with Up => up h | Down => down h end.
Definition relay_set_pc (d : Dir) (h : Handler) (r : RelayPc) : Handler :=
  match d with Up => h_set_up h r | Down => h_set_down h r end.
Definition relay_src (d : Dir) (h : Handler) : option Conn :=
  match d with Up => Some (local h) | Down => remote h end.
Definition relay_dst (d : Dir) (h : Handler) : option Conn :=
  match d with Up => remote h | Down => Some (local h) end.
Definition relay_set_src (d : Dir) (h : Handler) (c : Conn) : Handler :=
  match d with Up => h_set_local h c | Down => h_set_remote h (Some c) end.
Definition relay_set_dst (d : Dir) (h : Handler) (c : Conn) : Handler :=
  match d with Up => h_set_remote h (Some c) | Down => h_set_local h c end.

(** The buffer [io.Copy] allocates. *)
Definition copy_buf_size : Z := 32768.

(** The body both goroutines run: [io.Copy(dst, src)], then the half-close
    of [dst] (both ends are [*net.TCPConn], the type assertion holds), then
    [done <- struct{}{}] on a channel of capacity 2 that holds [k]
    elements.  [n] is how many bytes the next read returns. *)
Definition relay_body (now : Z) (n : nat) (pc : RelayPc) (src dst : Conn) (k : nat)
    : option (RelayPc * Conn * Conn * nat) :=
  match pc with
  | RIdle | RExited _ => None
  | RRead =>
      match conn_Read now n src with
      | ReadData chunk src' =>
          if bool_decide (1 ≤ Z.of_nat n ≤ copy_buf_size)
          then Some (RWrite chunk, src', dst, k)
          else None
      | ReadEOF => Some (RCloseWrite CopyOk, src, dst, k)
      | ReadErr e => Some (RCloseWrite (CopyFail e), src, dst, k)
      | ReadBlocked => None
      end
  | RWrite buf =>
      match conn_Write now buf dst with
      | inr dst' => Some (RRead, src, dst', k)
      | inl e => Some (RCloseWrite (CopyFail e), src, dst, k)
      end
  | RCloseWrite r => Some (RSend r, src, conn_CloseWrite dst, k)
  | RSend r =>
      if bool_decide (k < 2)%nat then Some (RExited r, src, dst, S k) else None
  end.

(** The goroutine of direction [d] of handler [h] makes a step. *)
Definition relay_step (now : Z) (d : Dir) (n : nat) (h : Handler) : option Handler :=
  src ← relay_src d h;
  dst ← relay_dst d h;
  '(pc', src', dst', k') ← relay_body now n (relay_pc d h) src dst (done_ch h);
  Some (relay_set_pc d
          (relay_set_dst d (relay_set_src d (h_set_done_ch h k') src') dst') pc').

(** [l.Close()] on the listener: the port stops listening. *)
Definition listener_Close (o : OS) (l : Listener) : Listener * OS :=
  if l_closed l then (l, o)
  else (mkListener (l_port l) true, os_set_bound o (bound o ∖ {[l_port l]})).

(** [Stop]. *)
Definition stop_step (w : World) (pc : StopPc) : Res (World * StopPc) :=
  let f := w_fwd w in
  let p := px f in
  match pc with
  | SCloseDone =>
      if done_closed p then Crash
      else Ok (mkWorld (w_os w) (f_set_px f (px_set_done_closed p true)), SCloseListener)
  | SCloseListener =>
      match listener p with
      | None => Ok (w, SWait)
      | Some l =>
          let '(l', o') := listener_Close (w_os w) l in
          Ok (mkWorld o' (f_set_lcloses (f_set_px f (px_set_listener p (Some l')))
                                        (S (lcloses f))),
              SWait)
      end
  | SWait => if bool_decide (wg p = 0) then Ok (w, SReturned) else Stuck
  | SReturned => Stuck
  end.

(** ** Peers *)

Inductive Peer := Client | Backend.

Definition peer_conn (s : Peer) (h : Handler) : option Conn :=
  match s with Client => Some (local h) | Backend => remote h end.
Definition peer_set_conn (s : Peer) (h : Handler) (c : Conn) : Handler :=
  match s with Client => h_set_local h c | Backend => h_set_remote h (Some c) end.

(** The peer writes [bs]: possible until it shut down its write half. *)
Definition conn_peer_send (bs : list byte) (c : Conn) : option Conn :=
  if rx_eof c || rst c then None
  else Some (mkConn (peer_sent c ++ bs) (rx c ++ bs) (rx_eof c) (rst c) (tx c)
                    (wr_closed c) (closed c) (deadline c)).
Definition conn_peer_close_write (c : Conn) : Conn :=
  mkConn (peer_sent c) (rx c) true (rst c) (tx c) (wr_closed c) (closed c) (deadline c).
Definition conn_peer_reset (c : Conn) : Conn :=
  mkConn (peer_sent c) (rx c) (rx_eof c) true (tx c) (wr_closed c) (closed c) (deadline c).

(** Time may pass by [dt] unless a pending dial would outlive
    [DialTimeout]: the dialer answers by then. *)
Definition dial_allows (now' : Z) (h : Handler) : bool :=
  match hpc h with
  | HDial t0 => bool_decide (now' ≤ t0 + DialTimeout)
  | _ => true
  end.

(** ** The transition system *)

Inductive Action :=
| Acceptor (env : option (list byte))
| HandlerAct (i : nat) (dial_ok : bool)
| Relay (i : nat) (d : Dir) (n : nat)
| CallStop
| StopAct (j : nat)
| Tick (dt : Z)
| PeerSend (s : Peer) (i : nat) (bs : list byte)
| PeerCloseWrite (s : Peer) (i : nat)
| PeerReset (s : Peer) (i : nat).

Definition on_handler (w : World) (i : nat) (k : Handler -> option Handler)
    : option World :=
  h ← handlers (w_fwd w) !! i;
  h' ← k h;
  Some (mkWorld (w_os w) (f_set_handlers (w_fwd w) (<[i := h']> (handlers (w_fwd w))))).

Definition exec (a : Action) (w : World) : option World :=
  let f := w_fwd w in
  let o := w_os w in
  if panicked f then None
  else match a with
  | Acceptor env =>
      match acceptor_step env f with
      | Stuck => None
      | Ok f' => Some (mkWorld o f')
      | Crash => Some (mkWorld o (f_panic f))
      end
  | HandlerAct i dial_ok =>
      h ← handlers f !! i;
      match handler_step (clock o) dial_ok (px f) h with
      | Stuck => None
      | Ok (p', h') =>
          Some (mkWorld o (f_set_handlers (f_set_px f p') (<[i := h']> (handlers f))))
      | Crash => Some (mkWorld o (f_panic f))
      end
  | Relay i d n => on_handler w i (relay_step (clock o) d n)
  | CallStop => Some (mkWorld o (f_set_stops f (stops f ++ [SCloseDone])))
  | StopAct j =>
      pc ← stops f !! j;
      match stop_step w pc with
      | Stuck => None
      | Ok (w', pc') =>
          Some (mkWorld (w_os w') (f_set_stops (w_fwd w') (<[j := pc']> (stops f))))
      | Crash => Some (mkWorld o (f_panic f))
      end
  | Tick dt =>
      if bool_decide (0 < dt) && forallb (dial_allows (clock o + dt)) (handlers f)
      then Some (mkWorld (os_set_clock o (clock o + dt)) f)
      else None
  | PeerSend s i bs =>
      on_handler w i (fun h => c ← peer_conn s h;
                               c' ← conn_peer_send bs c;
                               Some (peer_set_conn s h c'))
  | PeerCloseWrite s i =>
      on_handler w i (fun h => c ← peer_conn s h;
                               Some (peer_set_conn s h (conn_peer_close_write c)))
  | PeerReset s i =>
      on_handler w i (fun h => c ← peer_conn s h;
                               Some (peer_set_conn s h (conn_peer_reset c)))
  end.

(** A run: the actions of a schedule, one after the other. *)
Fixpoint run (tr : list Action) (w : World) : option World :=
  match tr with
  | [] => Some w
  | a :: tr' => w' ← exec a w; run tr' w'
  end.

(** A Proxy value as [New] makes it (a test may swap [connSem] for a
    channel of another capacity before [Start]). *)
Definition fresh (p : Proxy) : Prop :=
  listener p = None ∧ done_closed p = false ∧ wg p = 0 ∧ connSem p = 0%nat.

(** The states a started Forwarder can be in: [Start] succeeded on a fresh
    value, and some schedule ran. *)
Definition started (o : OS) (p : Proxy) (w0 : World) : Prop :=
  fresh p ∧ Start o p = (None, w0).

Definition reachable_from (o : OS) (p : Proxy) (w : World) : Prop :=
  ∃ w0 tr, started o p w0 ∧ run tr w0 = Some w.

Definition reachable (w : World) : Prop := ∃ o p, reachable_from o p w.

(** * Vocabulary of the invariants and of the claims *)

(** The error [Start] builds around the one of [net.Listen]. *)
Definition bind_error (p : Z) (e : error) : error :=
  Errorf ("failed to listen on port " +:+ pretty p) e.

(** The Forwarder [Start] leaves running on listener [l]. *)
Definition running (p : Proxy) (l : Listener) : Fwd :=
  mkFwd (mkProxy (LocalPort p) (RemoteAddr p) (Some l) (done_closed p)
                 (wg p + 1) (connSem p) (connSem_cap p))
        AAccept [] [] [] 0 false.

(** A handler holds its gate slot until line 92 ran, and its WaitGroup unit
    until line 93 ran. *)
Definition holds_slot (h : Handler) : nat :=
  match hpc h with HWgDone | HExited => 0 | _ => 1 end.
Definition live (h : Handler) : nat :=
  match hpc h with HExited => 0 | _ => 1 end.

(** The accept loop holds a slot between the acquisition and the [go]
    statement, a WaitGroup unit of its own until its deferred [Done], and
    one for the handler between [Add(1)] and the [go] statement. *)
Definition acc_slot (a : AcceptPc) : nat :=
  match a with AWgAdd _ | AGo _ => 1 | _ => 0 end.
Definition acc_live (a : AcceptPc) : nat :=
  match a with AIdle | AExited => 0 | _ => 1 end.
Definition acc_pending (a : AcceptPc) : nat :=
  match a with AGo _ => 1 | _ => 0 end.

Record counted (f : Fwd) : Prop := mkCounted {
  cnt_sem : connSem (px f)
            = (sum_list_with holds_slot (handlers f) + acc_slot (acceptor f))%nat;
  cnt_cap : (connSem (px f) ≤ connSem_cap (px f))%nat;
  cnt_wg : wg (px f)
           = Z.of_nat (acc_live (acceptor f) + sum_list_with live (handlers f)
                       + acc_pending (acceptor f));
  cnt_started : acceptor f ≠ AIdle;
  cnt_listener : is_Some (listener (px f))
}.

Definition fin (r : RelayPc) : nat :=
  match r with RExited _ => 1 | _ => 0 end.


Definition remote_open (h : Handler) : Prop :=
  ∀ r, remote h = Some r → closed r = false.

(** Where the handler stands against its relay goroutines, its [done]
    channel and the two [Close] calls. *)
Definition handler_ok (h : Handler) : Prop :=
  match hpc h with
  | HSetDeadlineLocal | HDial _ =>
      remote h = None ∧ up h = RIdle ∧ down h = RIdle ∧ closed (local h) = false
  | HSetDeadlineRemote | HGoUp =>
      is_Some (remote h) ∧ up h = RIdle ∧ down h = RIdle
      ∧ closed (local h) = false ∧ remote_open h
  | HGoDown =>
      is_Some (remote h) ∧ up h ≠ RIdle ∧ down h = RIdle
      ∧ done_ch h = fin (up h)
      ∧ closed (local h) = false ∧ remote_open h
  | HWait1 =>
      is_Some (remote h) ∧ up h ≠ RIdle ∧ down h ≠ RIdle
      ∧ done_ch h = (fin (up h) + fin (down h))%nat
      ∧ closed (local h) = false ∧ remote_open h
  | HWait2 =>
      is_Some (remote h) ∧ up h ≠ RIdle ∧ down h ≠ RIdle
      ∧ S (done_ch h) = (fin (up h) + fin (down h))%nat
      ∧ closed (local h) = false ∧ remote_open h
  | HCloseRemote =>
      is_Some (remote h) ∧ fin (up h) = 1%nat ∧ fin (down h) = 1%nat
      ∧ closed (local h) = false ∧ remote_open h
  | HCloseLocal =>
      ((remote h = None ∧ up h = RIdle ∧ down h = RIdle)
       ∨ (is_Some (remote h) ∧ fin (up h) = 1%nat ∧ fin (down h) = 1%nat))
      ∧ closed (local h) = false
  | HReleaseSem | HWgDone | HExited =>
      (remote h = None ∧ up h = RIdle ∧ down h = RIdle)
      ∨ (is_Some (remote h) ∧ fin (up h) = 1%nat ∧ fin (down h) = 1%nat)
  end.

(** The connection the accept loop holds between [Accept] and the [go]
    statement or the rejection. *)
Definition held (a : AcceptPc) : option Conn :=
  match a with
  | AAcquire c | AWgAdd c | AGo c | AReject c => Some c
  | _ => None
  end.

Definition handlers_ok (w : World) : Prop :=
  Forall handler_ok (handlers (w_fwd w))
  ∧ ∀ c, held (acceptor (w_fwd w)) = Some c → closed c = false.

(** Nothing was written to the connection and nothing was read from it. *)
Definition quiet (c : Conn) : Prop := tx c = [] ∧ rx c = peer_sent c.

(** One relay direction: what reached [dst] so far, what the goroutine
    holds in its buffer and what waits in [src] make up, in this order,
    what the peer of [src] sent.  After [io.Copy] returned, what reached
    [dst] is a prefix of it, and all of it when the copy ended on EOF. *)
Definition dir_ok (pc : RelayPc) (src dst : Conn) : Prop :=
  match pc with
  | RIdle | RRead => peer_sent src = tx dst ++ rx src
  | RWrite buf => peer_sent src = tx dst ++ buf ++ rx src
  | RCloseWrite r | RSend r | RExited r =>
      tx dst `prefix_of` peer_sent src
      ∧ (r = CopyOk → tx dst = peer_sent src ∧ rx_eof src = true)
  end.

Definition transparent (h : Handler) : Prop :=
  match remote h with
  | None => quiet (local h)
  | Some r => dir_ok (up h) (local h) r ∧ dir_ok (down h) r (local h)
  end.

(** What a peer does to its connection, seen from the relay that reads it. *)
Definition peer_move (c c' : Conn) : Prop :=
  tx c' = tx c ∧ (quiet c → quiet c')
  ∧ ∀ pc dst, dir_ok pc c dst → dir_ok pc c' dst.

(** Every connection of the Forwarder: relayed ones are transparent, the
    one the accept loop holds and the rejected ones are untouched. *)
Record all_transparent (f : Fwd) : Prop := mkAllTransparent {
  tr_handlers : Forall transparent (handlers f);
  tr_held : ∀ c, held (acceptor f) = Some c → quiet c;
  tr_rejected : Forall (λ c, quiet c ∧ closed c = true) (rejected f)
}.

(** A call of [Stop] has closed [done] (line 56), has closed the listener
    (line 58). *)
Definition past_done (pc : StopPc) : nat :=
  match pc with SCloseDone => 0 | _ => 1 end.
Definition past_listener (pc : StopPc) : nat :=
  match pc with SWait | SReturned => 1 | _ => 0 end.

(** No goroutine of the Forwarder is left. *)
Definition quiescent (f : Fwd) : Prop :=
  acceptor f = AExited ∧ Forall (λ h, hpc h = HExited) (handlers f).

Record stop_ok (w : World) : Prop := mkStopOk {
  so_done : sum_list_with past_done (stops (w_fwd w))
            = if done_closed (px (w_fwd w)) then 1%nat else 0%nat;
  so_lcloses : lcloses (w_fwd w) = sum_list_with past_listener (stops (w_fwd w));
  so_listener : ∀ l, listener (px (w_fwd w)) = Some l →
      if l_closed l
      then lcloses (w_fwd w) = 1%nat ∧ l_port l ∉ bound (w_os w)
      else lcloses (w_fwd w) = 0%nat;
  so_returned : SReturned ∈ stops (w_fwd w) → quiescent (w_fwd w)
}.

(** The fields of the struct no statement assigns after [Start], the
    privilege of the process and the port of the listener. *)
Definition config (w : World) : Z * string * nat * bool * option Z :=
  (LocalPort (px (w_fwd w)), RemoteAddr (px (w_fwd w)),
   connSem_cap (px (w_fwd w)), privileged (w_os w),
   l_port <$> listener (px (w_fwd w))).

(** A pending dial is at most [DialTimeout] old. *)
Definition dial_timed (w : World) : Prop :=
  Forall (λ h, ∀ t0, hpc h = HDial t0 →
                     t0 ≤ clock (w_os w) ≤ t0 + DialTimeout)
         (handlers (w_fwd w)).

Record invariant (w : World) : Prop := mkInvariant {
  inv_counted : counted (w_fwd w);
  inv_handlers : handlers_ok w;
  inv_transparent : all_transparent (w_fwd w);
  inv_stop : stop_ok w;
  inv_dial : dial_timed w
}.

(** How [io.Copy] ended, once it has. *)
Definition copy_result (pc : RelayPc) : option CopyResult :=
  match pc with
  | RCloseWrite r | RSend r | RExited r => Some r
  | _ => None
  end.

(** An echo backend sends back what it received, in order. *)
Definition echo_backend (h : Handler) : Prop :=
  ∀ r, remote h = Some r → peer_sent r `prefix_of` tx r.

(** A relay goroutine of the handler is between its [go] statement and its
    exit: the connection can exchange data. *)
Definition relaying (h : Handler) : nat :=
  match up h, down h with
  | (RIdle | RExited _), (RIdle | RExited _) => 0
  | _, _ => 1
  end.








(** * Scenarios: concrete states and schedules *)

(** An operating system on which port 8080 is already listening. *)
Definition os_8080 : OS := mkOS {[ 8080 ]} 0 false 32768 60999.

(** An unprivileged process on a machine where no port is listening, the
    Proxy for port 8000 of a container, and the state [Start] leaves. *)
Definition os_free : OS := mkOS ∅ 0 false 32768 60999.
Definition px_8000 : Proxy := New 8000 "10.0.3.7" 8000.
Definition w_8000 : World := (Start os_free px_8000).2.

(** "ping" *)
Definition ping : list byte := [x70; x69; x6e; x67].

(** One client connects and is admitted; the dial succeeds and both relay
    goroutines run. *)
Definition tr_admit (i : nat) : list Action :=
  [Acceptor (Some []); Acceptor None; Acceptor None; Acceptor None;
   HandlerAct i true; HandlerAct i true; HandlerAct i true;
   HandlerAct i true; HandlerAct i true].

(** The relay of direction [d] reads [n] bytes and writes them. *)
Definition tr_copy (i : nat) (d : Dir) (n : nat) : list Action :=
  [Relay i d n; Relay i d 0].

(** The relay of direction [d] sees the end of its source: half-close and
    send on [done]. *)
Definition tr_finish (i : nat) (d : Dir) : list Action :=
  [Relay i d 0; Relay i d 0; Relay i d 0].

(** The handler receives twice from [done] and runs its deferred calls. *)
Definition tr_cleanup (i : nat) : list Action :=
  [HandlerAct i true; HandlerAct i true; HandlerAct i true;
   HandlerAct i true; HandlerAct i true; HandlerAct i true].

(** The client sends "ping", the backend echoes it, both sides close. *)
Definition tr_echo : list Action :=
  tr_admit 0
  ++ [PeerSend Client 0 ping] ++ tr_copy 0 Up 4
  ++ [PeerSend Backend 0 ping] ++ tr_copy 0 Down 4
  ++ [PeerCloseWrite Client 0] ++ tr_finish 0 Up
  ++ [PeerCloseWrite Backend 0] ++ tr_finish 0 Down
  ++ tr_cleanup 0.

(** The state [tr_echo] ends in. *)
Definition w_echo : World := default w_8000 (run tr_echo w_8000).

(** The Forwarder [w_8000] with one admitted connection in state [h] and
    the struct in state [p]. *)
Definition session (p : Proxy) (h : Handler) : World :=
  mkWorld (w_os w_8000) (mkFwd p AAccept [h] [] [] 0 false).

(** The struct once one connection is admitted: two WaitGroup units, one
    slot taken. *)
Definition px_admitted : Proxy :=
  mkProxy 8000 "10.0.3.7:8000" (Some (mkListener 8000 false)) false 2 1 100.

(** An open connection whose deadline was set when the clock showed 0. *)
Definition conn_at (ps rx0 tx0 : list byte) (eof : bool) : Conn :=
  mkConn ps rx0 eof false tx0 false false (Some ConnectionTimeout).

(** A handler waiting at line 132 for its relay goroutines. *)
Definition relaying_at (l r : Conn) (u dn : RelayPc) : Handler :=
  mkHandler HWait1 l (Some r) u dn 0.

(** Steps of one relay goroutine of the session, at clock 0. *)
Fixpoint relay_steps (d : Dir) (ns : list nat) (h : Handler) : option Handler :=
  match ns with
  | [] => Some h
  | n :: ns' => h' ← relay_step 0 d n h; relay_steps d ns' h'
  end.

(** Read one byte, write it: once per byte of [bs]. *)
Fixpoint pump (bs : list byte) : list nat :=
  match bs with
  | [] => []
  | _ :: bs' => 1%nat :: 0%nat :: pump bs'
  end.

(** The client sends [B], the backend echoes [B], both sides close. *)
Definition tr_echo_all (B : list byte) : list Action :=
  tr_admit 0
  ++ [PeerSend Client 0 B] ++ (Relay 0 Up <$> pump B)
  ++ [PeerSend Backend 0 B] ++ (Relay 0 Down <$> pump B)
  ++ [PeerCloseWrite Client 0] ++ tr_finish 0 Up
  ++ [PeerCloseWrite Backend 0] ++ tr_finish 0 Down
  ++ tr_cleanup 0.

(** What the session looks like at the end. *)
Definition w_echoed (B : list byte) : World :=
  session (mkProxy 8000 "10.0.3.7:8000" (Some (mkListener 8000 false))
                   false 1 0 100)
    (mkHandler HExited
       (mkConn B [] true false B true true (Some ConnectionTimeout))
       (Some (mkConn B [] true false B true true (Some ConnectionTimeout)))
       (RExited CopyOk) (RExited CopyOk) 0).

(** The accept loop takes a connection and admits it: [Accept], the
    [select] on [connSem], [wg.Add(1)], the [go] statement. *)
Definition tr_accept : list Action :=
  [Acceptor (Some []); Acceptor None; Acceptor None; Acceptor None].

(** The schedule [tr], [n] times. *)
Fixpoint tr_repeat (n : nat) (tr : list Action) : list Action :=
  match n with
  | O => []
  | S n' => tr ++ tr_repeat n' tr
  end.

(** 100 connections are admitted; the dial of the first one fails and its
    handler runs its deferred calls up to, and without, [p.wg.Done()]; one
    more connection is admitted. *)
Definition tr_101 : list Action :=
  tr_repeat 100 tr_accept
  ++ [HandlerAct 0 false; HandlerAct 0 false; HandlerAct 0 false; HandlerAct 0 false]
  ++ tr_accept.

(** The state [tr_101] ends in. *)
Definition w_101 : World := default w_8000 (run tr_101 w_8000).

(** 100 connections are admitted and one more is accepted. *)
Definition w_full : World :=
  default w_8000 (run (tr_repeat 100 tr_accept ++ [Acceptor (Some ping)]) w_8000).

(** [Stop] is called and runs to its return; the accept loop, woken by the
    closed listener, sees [done] closed and exits. *)
Definition tr_stop : list Action :=
  [CallStop; StopAct 0; StopAct 0;
   Acceptor None; Acceptor None; Acceptor None; StopAct 0].

(** The echo session, then [Stop]. *)
Definition w_stopped : World := default w_8000 (run (tr_echo ++ tr_stop) w_8000).



(** Twelve seconds pass, the client sends "ping", the relay copies it. *)
Definition tr_ping_after_12s : list Action :=
  [Tick (12 * Second); PeerSend Client 0 ping] ++ tr_copy 0 Up 4.

(** A client that is never silent for more than twelve seconds. *)
Definition tr_busy : list Action :=
  tr_admit 0 ++ tr_ping_after_12s ++ tr_ping_after_12s
  ++ [Tick (12 * Second); PeerSend Client 0 ping; Relay 0 Up 4].

(** The state [tr_busy] ends in. *)
Definition w_busy : World := default w_8000 (run tr_busy w_8000).

(** Twelve seconds pass, the client sends "ping", the backend echoes it and
    the echo is copied back. *)
Definition tr_echo_after_12s : list Action :=
  [Tick (12 * Second); PeerSend Client 0 ping] ++ tr_copy 0 Up 4
  ++ [PeerSend Backend 0 ping] ++ tr_copy 0 Down 4.

(** An echo session in which the client is never silent for more than
    twelve seconds: it sends "ping" 12 s, 24 s and 36 s after it was
    accepted.  Then both relay goroutines run until they exit and the
    handler returns. *)
Definition tr_echo_busy : list Action :=
  tr_admit 0 ++ tr_echo_after_12s ++ tr_echo_after_12s
  ++ [Tick (12 * Second); PeerSend Client 0 ping]
  ++ tr_finish 0 Up ++ tr_finish 0 Down ++ tr_cleanup 0.

(** The state [tr_echo_busy] ends in. *)
Definition w_echo_busy : World := default w_8000 (run tr_echo_busy w_8000).


(** * Further vocabulary and scenarios of a running Forwarder *)

(** ** Panics *)

(** A panic in a reachable state comes from [close(p.done)] at line 56 on
    a channel another call of [Stop] has closed. *)
Definition panic_explained (f : Fwd) : Prop :=
  panicked f = true → done_closed (px f) = true ∧ SCloseDone ∈ stops f.

(** [Stop] is called while the echo session's accept loop still runs. *)
Definition w_waiting : World :=
  default w_8000 (run (tr_echo ++ [CallStop; StopAct 0; StopAct 0]) w_8000).

(** ** Nothing blocks once the copies have returned *)

(** What the handler of a relayed connection leaves behind. *)
Definition cleaned_up (h : Handler) : Handler :=
  mkHandler HExited (conn_Close (local h)) (conn_Close <$> remote h)
            (up h) (down h) 0.

(** The echo session up to the exit of both relay goroutines. *)
Definition tr_copied : list Action :=
  tr_admit 0
  ++ [PeerSend Client 0 ping] ++ tr_copy 0 Up 4
  ++ [PeerSend Backend 0 ping] ++ tr_copy 0 Down 4
  ++ [PeerCloseWrite Client 0] ++ tr_finish 0 Up
  ++ [PeerCloseWrite Backend 0] ++ tr_finish 0 Down.
Definition w_copied : World := default w_8000 (run tr_copied w_8000).

(** ** How long a connection can relay *)




(** ** The distance of a Forwarder from the return of [Stop] *)

(** How far a goroutine is from its end, in steps of the schedule that
    drains the Forwarder: the accept loop gets an error from [Accept],
    every dial fails, the peers of a relayed connection reset it. *)
Definition relay_rank (r : RelayPc) : nat :=
  match r with
  | RIdle => 6
  | RWrite _ => 5
  | RRead => 4
  | RCloseWrite _ => 3
  | RSend _ => 2
  | RExited _ => 0
  end.

Definition hpc_rank (pc : HandlerPc) : nat :=
  match pc with
  | HSetDeadlineLocal => 12
  | HDial _ => 11
  | HSetDeadlineRemote => 10
  | HGoUp => 9
  | HGoDown => 8
  | HWait1 => 7
  | HWait2 => 6
  | HCloseRemote => 5
  | HCloseLocal => 4
  | HReleaseSem => 3
  | HWgDone => 2
  | HExited => 0
  end.

Definition unreset (c : Conn) : nat := if rst c then 0 else 1.

Definition handler_rank (h : Handler) : nat :=
  hpc_rank (hpc h) + relay_rank (up h) + relay_rank (down h)
  + unreset (local h) + from_option unreset 0%nat (remote h).

Definition acc_rank (a : AcceptPc) : nat :=
  match a with
  | AIdle | AExited => 0
  | ADeferDone => 1
  | AErr => 2
  | AAccept => 3
  | AReject _ => 4
  | AGo _ => 29
  | AWgAdd _ => 30
  | AAcquire _ => 31
  end.

Definition stop_rank (pc : option StopPc) : nat :=
  match pc with
  | Some SCloseDone => 3
  | Some SCloseListener => 2
  | Some SWait => 1
  | _ => 0
  end.

Definition rank (j : nat) (w : World) : nat :=
  stop_rank (stops (w_fwd w) !! j) + acc_rank (acceptor (w_fwd w))
  + sum_list_with handler_rank (handlers (w_fwd w)).

(** The peer whose reset ends the copy of direction [d]. *)
Definition source_peer (d : Dir) : Peer :=
  match d with Up => Client | Down => Backend end.

(** The steps of a schedule that drains the Forwarder for call [j] of
    [Stop]: that call and the goroutines move, [Accept] fails, dials fail,
    the peers reset their connections. *)
Definition drains (j : nat) (a : Action) : bool :=
  match a with
  | StopAct j' => bool_decide (j' = j)
  | Acceptor None | HandlerAct _ false | Relay _ _ _ | PeerReset _ _ => true
  | _ => false
  end.

(** * The Manager at run time (proxy.go, lines 136-170) *)

(** One call of [StopAll] (lines 162-170). *)
Inductive StopAllPc :=
| SALock                         (* line 163 *)
| SARange (i : nat)              (* line 166: the loop reaches element [i] *)
| SAStop (i j : nat)             (* line 167: inside [p.Stop()], call [j] of that Proxy *)
| SAClear                        (* line 169 *)
| SAUnlock                       (* deferred, line 164 *)
| SAReturned.

(** A process that uses one Manager: the Proxies it lists, the mutex [mu],
    the calls of [StopAll] under way.  [m_retired] keeps the Proxies line
    169 dropped: nothing refers to them any more, their goroutines and
    peers may still move.  Unlocking a mutex that is not locked is a fatal
    error of the Go runtime. *)
Record MWorld := mkMWorld {
  m_os : OS;
  m_mgr : Manager;
  m_mu : bool;
  m_retired : list Fwd;
  m_calls : list StopAllPc;
  m_fatal : bool
}.

Definition m_set_os (w : MWorld) (o : OS) : MWorld :=
  mkMWorld o (m_mgr w) (m_mu w) (m_retired w) (m_calls w) (m_fatal w).
Definition m_set_mu (w : MWorld) (b : bool) : MWorld :=
  mkMWorld (m_os w) (m_mgr w) b (m_retired w) (m_calls w) (m_fatal w).
Definition m_set_calls (w : MWorld) (cs : list StopAllPc) : MWorld :=
  mkMWorld (m_os w) (m_mgr w) (m_mu w) (m_retired w) cs (m_fatal w).
Definition m_set_fatal (w : MWorld) (b : bool) : MWorld :=
  mkMWorld (m_os w) (m_mgr w) (m_mu w) (m_retired w) (m_calls w) b.

(** What a goroutine of a Proxy or a peer does.  [Stop] is not among it:
    the field [proxies] is unexported and [Add] hands out no Proxy, so
    [StopAll] is the only caller.  Time passes for all Proxies at once. *)
Definition local_action (a : Action) : bool :=
  match a with
  | CallStop | StopAct _ | Tick _ => false
  | _ => true
  end.

(** Proxy number [k] of the Manager makes the step [a]. *)
Definition on_member (w : MWorld) (k : nat) (a : Action) : option MWorld :=
  f ← proxies (m_mgr w) !! k;
  w' ← exec a (mkWorld (m_os w) f);
  Some (mkMWorld (w_os w') (mkManager (<[k := w_fwd w']> (proxies (m_mgr w))))
                 (m_mu w) (m_retired w) (m_calls w) (m_fatal w)).

Definition on_retired (w : MWorld) (k : nat) (a : Action) : option MWorld :=
  f ← m_retired w !! k;
  w' ← exec a (mkWorld (m_os w) f);
  Some (mkMWorld (w_os w') (m_mgr w) (m_mu w) (<[k := w_fwd w']> (m_retired w))
                 (m_calls w) (m_fatal w)).

(** [StopAll], statement by statement.  The loop reads [m.proxies] under
    the mutex; [p.Stop()] is the call [CallStop] on that Proxy followed by
    the steps of [Stop] until it has returned. *)
Definition stopall_step (w : MWorld) (pc : StopAllPc) : Res (MWorld * StopAllPc) :=
  match pc with
  | SALock => if m_mu w then Stuck else Ok (m_set_mu w true, SARange 0)
  | SARange i =>
      match proxies (m_mgr w) !! i with
      | None => Ok (w, SAClear)
      | Some f =>
          match on_member w i CallStop with
          | Some w' => Ok (w', SAStop i (length (stops f)))
          | None => Stuck
          end
      end
  | SAStop i j =>
      match proxies (m_mgr w) !! i with
      | None => Stuck
      | Some f =>
          match stops f !! j with
          | Some SReturned => Ok (w, SARange (S i))
          | _ =>
              match on_member w i (StopAct j) with
              | Some w' => Ok (w', SAStop i j)
              | None => Stuck
              end
          end
      end
  | SAClear =>
      Ok (mkMWorld (m_os w) (mkManager []) (m_mu w)
                   (m_retired w ++ proxies (m_mgr w)) (m_calls w) (m_fatal w),
          SAUnlock)
  | SAUnlock => if m_mu w then Ok (m_set_mu w false, SAReturned) else Crash
  | SAReturned => Stuck
  end.

Inductive MAction :=
| MAdd (localPort : Z) (remoteHost : string) (remotePort : Z)
| MCallStopAll
| MStopAll (t : nat)
| MMember (k : nat) (a : Action)
| MRetired (k : nat) (a : Action)
| MTick (dt : Z).

(** A panic in any goroutine and a fatal error end the process. *)
Definition m_dead (w : MWorld) : bool :=
  m_fatal w || existsb panicked (proxies (m_mgr w) ++ m_retired w).

(** A call of [Add] runs when it gets the mutex, and holds it until it
    returns. *)
Definition mexec (a : MAction) (w : MWorld) : option MWorld :=
  if m_dead w then None
  else match a with
  | MAdd localPort remoteHost remotePort =>
      if m_mu w then None
      else let '(_, o', m') := Add (m_os w) (m_mgr w) localPort remoteHost remotePort in
           Some (mkMWorld o' m' (m_mu w) (m_retired w) (m_calls w) (m_fatal w))
  | MCallStopAll => Some (m_set_calls w (m_calls w ++ [SALock]))
  | MStopAll t =>
      pc ← m_calls w !! t;
      match stopall_step w pc with
      | Stuck => None
      | Ok (w', pc') => Some (m_set_calls w' (<[t := pc']> (m_calls w)))
      | Crash => Some (m_set_fatal w true)
      end
  | MMember k a => if local_action a then on_member w k a else None
  | MRetired k a => if local_action a then on_retired w k a else None
  | MTick dt =>
      if bool_decide (0 < dt)
         && forallb (λ f, forallb (dial_allows (clock (m_os w) + dt)) (handlers f))
                    (proxies (m_mgr w) ++ m_retired w)
      then Some (m_set_os w (os_set_clock (m_os w) (clock (m_os w) + dt)))
      else None
  end.

Fixpoint mrun (tr : list MAction) (w : MWorld) : option MWorld :=
  match tr with
  | [] => Some w
  | a :: tr' => w' ← mexec a w; mrun tr' w'
  end.

(** The process right after [NewManager()]. *)
Definition m_init (o : OS) : MWorld := mkMWorld o NewManager false [] [] false.

Definition mreachable (o : OS) (w : MWorld) : Prop :=
  ∃ tr, mrun tr (m_init o) = Some w.

(** ** Vocabulary of the Manager's invariant *)

(** The call holds the mutex. *)
Definition holding (pc : StopAllPc) : nat :=
  match pc with SALock | SAReturned => 0 | _ => 1 end.

(** Where Proxy number [k] stands while the call of [StopAll] that holds
    the mutex is at [pc]. *)
Definition member_phase (pc : StopAllPc) (k : nat) (f : Fwd) : Prop :=
  match pc with
  | SALock | SAReturned => True
  | SARange i =>
      if decide (k < i)%nat then stops f = [SReturned] else stops f = []
  | SAStop i j =>
      if decide (k < i)%nat then stops f = [SReturned]
      else if decide (k = i) then j = 0%nat ∧ length (stops f) = 1%nat
      else stops f = []
  | SAClear => stops f = [SReturned]
  | SAUnlock => False
  end.

(** The port on which the Proxy listens, while it does. *)
Definition open_port (f : Fwd) : option Z :=
  match listener (px f) with
  | Some l => if l_closed l then None else Some (l_port l)
  | None => None
  end.

(** What [Start] found out about the port of the Proxy. *)
Definition member_cfg (o0 : OS) (f : Fwd) : Prop :=
  ∀ l, listener (px f) = Some l → LocalPort (px f) ≠ 0 →
       l_port l = LocalPort (px f) ∧ 0 < LocalPort (px f) ≤ 65535
       ∧ (LocalPort (px f) < 1024 → privileged o0 = true).

(** The fields of a Proxy that stay as [Add] set them. *)
Definition target (f : Fwd) : Z * string :=
  (LocalPort (px f), RemoteAddr (px f)).

(** The listening ports: those another program held when the Manager was
    made ([b0]) and, each once, those of the Proxies that listen. *)
Record ports_ok (b0 b : gset Z) (ops : list (option Z)) : Prop := mkPortsOk {
  po_nodup : ∀ k1 k2 p, ops !! k1 = Some (Some p) → ops !! k2 = Some (Some p) →
                        k1 = k2;
  po_bound : ∀ p, p ∈ b ↔ p ∈ b0 ∨ Some p ∈ ops;
  po_foreign : ∀ p, Some p ∈ ops → p ∉ b0
}.

Record minv (o0 : OS) (w : MWorld) : Prop := mkMinv {
  mi_members : Forall (λ f, invariant (mkWorld (m_os w) f) ∧ panicked f = false)
                      (proxies (m_mgr w));
  mi_retired : Forall (λ f, quiescent f ∧ panicked f = false) (m_retired w);
  mi_fatal : m_fatal w = false;
  mi_mutex : sum_list_with holding (m_calls w) = if m_mu w then 1%nat else 0%nat;
  mi_phase : ∀ pc k f, pc ∈ m_calls w → proxies (m_mgr w) !! k = Some f →
                       member_phase pc k f;
  mi_unlocked : m_mu w = false → Forall (λ f, stops f = []) (proxies (m_mgr w));
  mi_ports : ports_ok (bound o0) (bound (m_os w))
                      (open_port <$> proxies (m_mgr w));
  mi_priv : privileged (m_os w) = privileged o0;
  mi_cfg : Forall (member_cfg o0) (proxies (m_mgr w));
  mi_inrange : ∀ i j, SAStop i j ∈ m_calls w →
                      (i < length (proxies (m_mgr w)))%nat
}.

(** ** Scenarios: a Manager with two Proxies *)

(** [StopAll], called as call number [t], stops Proxy number [k], whose
    accept loop leaves on the error of [Accept]. *)
Definition mtr_stop (t k : nat) : list MAction :=
  [MStopAll t; MStopAll t; MStopAll t;
   MMember k (Acceptor None); MMember k (Acceptor None);
   MMember k (Acceptor None);
   MStopAll t; MStopAll t].

Definition mtr_two : list MAction :=
  [MAdd 8000 "10.0.3.7" 8000; MAdd 8001 "10.0.3.7" 8001].

(** Two Proxies, two calls of [StopAll]; the first call up to line 169. *)
Definition mtr_clearing : list MAction :=
  mtr_two ++ [MCallStopAll; MCallStopAll; MStopAll 0]
  ++ mtr_stop 0 0 ++ mtr_stop 0 1 ++ [MStopAll 0].

(** Both calls to their end. *)
Definition mtr_twice : list MAction :=
  mtr_clearing ++ [MStopAll 0; MStopAll 0]
  ++ [MStopAll 1; MStopAll 1; MStopAll 1; MStopAll 1].

Definition mw_two : MWorld := default (m_init os_free) (mrun mtr_two (m_init os_free)).
Definition mw_clearing : MWorld :=
  default (m_init os_free) (mrun mtr_clearing (m_init os_free)).
Definition mw_twice : MWorld :=
  default (m_init os_free) (mrun mtr_twice (m_init os_free)).

(** ** The distance of a call of [StopAll] from its return *)

(** How far a call of [StopAll] is from its end, in a Manager of [L]
    Proxies. *)
Definition remaining (L : nat) (pc : StopAllPc) : nat :=
  match pc with
  | SALock => 0
  | SARange i => 2 * (L - i) + 3
  | SAStop i _ => 2 * (L - i) + 2
  | SAClear => 2
  | SAUnlock => 1
  | SAReturned => 0
  end.

(** The steps of call [t] of [StopAll] and of the goroutines and peers. *)
Definition stopall_or_env (t : nat) (a : MAction) : Prop :=
  a = MStopAll t ∨ ∃ k a', a = MMember k a'.

(** * Validation of ports and names (internal/validation/validation.go) *)

Definition MaxContainerNameLength : nat := 63.
Definition MaxCombinedLength : nat := 63.
Definition MinPort : Z := 1.
Definition MaxPort : Z := 65535.

(** The errors of the package, one constructor for each [fmt.Errorf]. *)
Inductive ValidationError :=
| EmptyName                      (* container name cannot be empty *)
| NameTooLong (n : nat)          (* container name too long: n characters (max 63) *)
| StartsWithDigit (c : ascii)    (* container name must start with a letter, not 'c' *)
| ContainsSpaces                 (* container name cannot contain spaces *)
| ContainsUnderscores            (* container name cannot contain underscores ... *)
| InvalidCharacters              (* container name contains invalid characters ... *)
| HyphenAtEnd                    (* container name cannot start or end with a hyphen *)
| ConsecutiveHyphens             (* container name cannot contain consecutive hyphens *)
| ReservedName (name : string)   (* 'name' is a reserved name *)
| FullNameTooLong (fullName : string) (n : nat)
                                 (* full container name 'fullName' too long: n characters (max 63) ... *)
| InvalidPort (port : Z)         (* invalid port p: must be between 1 and 65535 *)
| DuplicatePort (port : Z).      (* duplicate port p in configuration *)

(** [ValidatePort] (lines 102-108). *)
Definition ValidatePort (port : Z) : option ValidationError :=
  if bool_decide (port < MinPort ∨ port > MaxPort) then Some (InvalidPort port)
  else None.

(** [ValidatePorts] (lines 111-126): the loop, with the map [seen] as a
    set. *)
Fixpoint ValidatePorts_loop (seen : gset Z) (ports : list Z)
    : option ValidationError :=
  match ports with
  | [] => None
  | port :: rest =>
      match ValidatePort port with
      | Some err => Some err
      | None =>
          if bool_decide (port ∈ seen) then Some (DuplicatePort port)
          else ValidatePorts_loop ({[port]} ∪ seen) rest
      end
  end.

Definition ValidatePorts (ports : list Z) : option ValidationError :=
  ValidatePorts_loop ∅ ports.

(** Bytes of a Go string. *)
Definition is_lower (c : ascii) : bool :=
  (97 <=? N_of_ascii c)%N && (N_of_ascii c <=? 122)%N.
Definition is_upper (c : ascii) : bool :=
  (65 <=? N_of_ascii c)%N && (N_of_ascii c <=? 90)%N.
Definition is_digit (c : ascii) : bool :=
  (48 <=? N_of_ascii c)%N && (N_of_ascii c <=? 57)%N.
Definition is_letter (c : ascii) : bool := is_lower c || is_upper c.
Definition is_char (x c : ascii) : bool := bool_decide (c = x).

(** [strings.HasPrefix], [strings.HasSuffix], [strings.Contains]. *)
Definition HasPrefix (s p : string) : bool := String.prefix p s.
Definition HasSuffix (s p : string) : bool :=
  String.prefix (String.rev p) (String.rev s).
Fixpoint Contains (s sub : string) : bool :=
  String.prefix sub s
  || match s with
     | EmptyString => false
     | String _ rest => Contains rest sub
     end.

(** [strings.ToLower] on a string of ASCII letters, digits and hyphens,
    the only ones to which the package applies it. *)
Definition lower (c : ascii) : ascii :=
  if is_upper c then ascii_of_N (N_of_ascii c + 32) else c.
Fixpoint ToLower (s : string) : string :=
  match s with
  | EmptyString => EmptyString
  | String c rest => String (lower c) (ToLower rest)
  end.

(** [^[a-zA-Z][a-zA-Z0-9-]*$] *)
Definition containerNameRegex (s : string) : bool :=
  match s with
  | EmptyString => false
  | String c rest =>
      is_letter c
      && forallb (λ c, is_letter c || is_digit c || is_char "-"%char c)
                 (String.list_ascii_of_string rest)
  end.

Definition reservedNames : list string :=
  ["list"; "create"; "delete"; "start"; "stop"; "snapshot"; "image"; "config"].

(** [ValidateContainerName] (lines 40-79).  [TrimSpace] is
    [strings.TrimSpace]. *)
Definition ValidateContainerName (TrimSpace : string → string) (name : string)
    : option ValidationError :=
  let name := TrimSpace name in
  match name with
  | EmptyString => Some EmptyName
  | String c0 _ =>
      if bool_decide (MaxContainerNameLength < String.length name)%nat
      then Some (NameTooLong (String.length name))
      else if negb (containerNameRegex name) then
        if is_digit c0 then Some (StartsWithDigit c0)
        else if Contains name " " then Some ContainsSpaces
        else if Contains name "_" then Some ContainsUnderscores
        else Some InvalidCharacters
      else if HasPrefix name "-" || HasSuffix name "-" then Some HyphenAtEnd
      else if Contains name "--" then Some ConsecutiveHyphens
      else if bool_decide (ToLower name ∈ reservedNames)
           then Some (ReservedName name)
      else None
  end.

(** [ValidateFullContainerName] (lines 82-99). *)
Definition ValidateFullContainerName (TrimSpace : string → string)
    (project container : string) : option ValidationError :=
  match ValidateContainerName TrimSpace container with
  | Some err => Some err
  | None =>
      let fullName :=
        if bool_decide (project ≠ "") then project +:+ "-" +:+ container
        else container in
      if bool_decide (MaxCombinedLength < String.length fullName)%nat
      then Some (FullNameTooLong fullName (String.length fullName))
      else None
  end.

(** * The project configuration (internal/config/config.go) *)

Record User := mkUser { user_Name : string; user_Password : string }.

Record Defaults := mkDefaults { def_Ports : list Z; def_User : User }.

Record Snapshot := mkSnapshot { Description : string; CreatedAt : string }.

Record Container := mkContainer {
  Image : string;
  Ports : list Z;
  c_User : User;
  Snapshots : gmap string Snapshot
}.

(** The functions below only read the maps: a nil map reads as the empty
    one. *)
Record Config := mkConfig {
  Project : string;
  cfg_Defaults : Defaults;
  Containers : gmap string Container
}.

Inductive ConfigError :=
| InvalidProjectName (name : string)              (* invalid project name "name" *)
| InvalidDefaultPorts (err : ValidationError)     (* invalid default ports: err *)
| InvalidContainer (name : string) (err : ValidationError).
                                                  (* container 'name': err *)

(** [^[a-zA-Z0-9_-]+$] *)
Definition IsValidProjectName (name : string) : bool :=
  match name with
  | EmptyString => false
  | _ => forallb (λ c, is_letter c || is_digit c || is_char "_"%char c || is_char "-"%char c)
                 (String.list_ascii_of_string name)
  end.

(** The body of the loop of [Validate] (lines 92-101). *)
Definition Validate_container (TrimSpace : string → string) (project : string)
    (name : string) (container : Container) : option ConfigError :=
  match ValidateFullContainerName TrimSpace project name with
  | Some err => Some (InvalidContainer name err)
  | None =>
      if bool_decide (0 < length (Ports container))%nat then
        match ValidatePorts (Ports container) with
        | Some err => Some (InvalidContainer name err)
        | None => None
        end
      else None
  end.

Fixpoint Validate_range (TrimSpace : string → string) (project : string)
    (entries : list (string * Container)) : option ConfigError :=
  match entries with
  | [] => None
  | (name, container) :: rest =>
      match Validate_container TrimSpace project name container with
      | Some err => Some err
      | None => Validate_range TrimSpace project rest
      end
  end.

(** [Validate] (lines 79-104).  Go ranges over a map in an order of its
    choice: [order] is the one this call takes. *)
Definition Validate (TrimSpace : string → string)
    (order : list (string * Container)) (c : Config) : option ConfigError :=
  if bool_decide (Project c ≠ "") && negb (IsValidProjectName (Project c))
  then Some (InvalidProjectName (Project c))
  else match ValidatePorts (def_Ports (cfg_Defaults c)) with
       | Some err => Some (InvalidDefaultPorts err)
       | None => Validate_range TrimSpace (Project c) order
       end.

(** [GetLXCName] (lines 107-112), [GetShortName] (lines 115-124). *)
Definition GetLXCName (c : Config) (shortName : string) : string :=
  if bool_decide (Project c = "") then shortName
  else Project c +:+ "-" +:+ shortName.

(** [strings.TrimPrefix] where [strings.HasPrefix] holds. *)
Fixpoint drop_string (n : nat) (s : string) : string :=
  match n, s with
  | S n', String _ rest => drop_string n' rest
  | _, _ => s
  end.

Definition GetShortName (c : Config) (lxcName : string) : string :=
  if bool_decide (Project c = "") then lxcName
  else
    let prefix := Project c +:+ "-" in
    if HasPrefix lxcName prefix then drop_string (String.length prefix) lxcName
    else lxcName.

(** [HasContainer] (lines 302-305), [GetPorts] (lines 269-274). *)
Definition HasContainer (c : Config) (name : string) : bool :=
  bool_decide (is_Some (Containers c !! name)).

Definition GetPorts (c : Config) (name : string) : list Z :=
  match Containers c !! name with
  | Some container =>
      if bool_decide (0 < length (Ports container))%nat then Ports container
      else def_Ports (cfg_Defaults c)
  | None => def_Ports (cfg_Defaults c)
  end.

(** The configuration with one container that lists a port twice. *)
Definition cfg_dev1 : Config :=
  mkConfig "web" (mkDefaults [5173; 8000] (mkUser "" ""))
           {[ "dev1" := mkContainer "ubuntu:24.04" [] (mkUser "" "") ∅ ;
              "dev2" := mkContainer "ubuntu:24.04" [3000; 3001] (mkUser "" "") ∅ ]}.

(** ** The containers and snapshots of the configuration *)

(** The functions below write the map [Containers]: they are those of a
    Config whose map is allocated, as [Load] leaves it (lines 66-68); on a
    nil map Go panics at the assignment.  The map [Snapshots] of a Container
    may be nil: [AddSnapshot] allocates it, and the other functions read it
    or delete from it, which Go allows on a nil map. *)

(** The zero value of [Container]. *)
Definition zero_Container : Container := mkContainer "" [] (mkUser "" "") ∅.

(** [AddContainer] (lines 259-263), [RemoveContainer] (lines 265-267). *)
Definition AddContainer (c : Config) (name image : string) : Config :=
  mkConfig (Project c) (cfg_Defaults c)
           (<[name := mkContainer image [] (mkUser "" "") ∅]> (Containers c)).

Definition RemoveContainer (c : Config) (name : string) : Config :=
  mkConfig (Project c) (cfg_Defaults c) (delete name (Containers c)).

(** [GetUser] (lines 277-300), from its second if statement on. *)
Definition GetUser_defaults (c : Config) : User :=
  let user := def_User (cfg_Defaults c) in
  if bool_decide (user_Name user ≠ "") then
    if bool_decide (user_Password user = "") then mkUser (user_Name user) "dev"
    else user
  else mkUser "dev" "dev".

Definition GetUser (c : Config) (name : string) : User :=
  match Containers c !! name with
  | Some container =>
      if bool_decide (user_Name (c_User container) ≠ "") then
        let user := c_User container in
        let user :=
          if bool_decide (user_Password user = "")
          then mkUser (user_Name user) (user_Password (def_User (cfg_Defaults c)))
          else user in
        if bool_decide (user_Password user = "")
        then mkUser (user_Name user) "dev"
        else user
      else GetUser_defaults c
  | None => GetUser_defaults c
  end.

(** [AddSnapshot] (lines 307-317).  [now] is
    [time.Now().Format(time.RFC3339)]. *)
Definition AddSnapshot (now : string) (c : Config)
    (containerName snapshotName description : string) : Config :=
  let container := default zero_Container (Containers c !! containerName) in
  let container :=
    mkContainer (Image container) (Ports container) (c_User container)
                (<[snapshotName := mkSnapshot description now]>
                   (Snapshots container)) in
  mkConfig (Project c) (cfg_Defaults c)
           (<[containerName := container]> (Containers c)).

(** [RemoveSnapshot] (lines 319-324). *)
Definition RemoveSnapshot (c : Config) (containerName snapshotName : string)
    : Config :=
  match Containers c !! containerName with
  | Some container =>
      let container :=
        mkContainer (Image container) (Ports container) (c_User container)
                    (delete snapshotName (Snapshots container)) in
      mkConfig (Project c) (cfg_Defaults c)
               (<[containerName := container]> (Containers c))
  | None => c
  end.

(** [GetSnapshots] (lines 326-331), [HasSnapshot] (lines 333-339). *)
Definition GetSnapshots (c : Config) (containerName : string)
    : gmap string Snapshot :=
  match Containers c !! containerName with
  | Some container => Snapshots container
  | None => ∅
  end.

Definition HasSnapshot (c : Config) (containerName snapshotName : string)
    : bool :=
  match Containers c !! containerName with
  | Some container => bool_decide (is_Some (Snapshots container !! snapshotName))
  | None => false
  end.

(** * The address of a container (internal/lxc, [GetIP]) *)

Inductive GetIPError :=
| GetIPFailed (err : string)     (* failed to get IP: err *)
| NoIPAddress.                   (* container has no IP address *)

(** [strings.Index(s, sub)] for a [sub] of the one byte [c]; [None] is
    Go's -1. *)
Fixpoint Index (s : string) (c : ascii) : option nat :=
  match s with
  | EmptyString => None
  | String a rest =>
      if bool_decide (a = c) then Some 0%nat else S <$> Index rest c
  end.

(** [strings.Split(s, sep)] for a [sep] of the one byte [c]. *)
Fixpoint Split (s : string) (c : ascii) : list string :=
  match s with
  | EmptyString => [EmptyString]
  | String a rest =>
      if bool_decide (a = c) then EmptyString :: Split rest c
      else match Split rest c with
           | first :: others => String a first :: others
           | [] => [String a EmptyString]
           end
  end.

(** [strings.Trim(s, cutset)] for a [cutset] of the one byte [c]. *)
Fixpoint TrimLeft (s : string) (c : ascii) : string :=
  match s with
  | EmptyString => EmptyString
  | String a rest => if bool_decide (a = c) then TrimLeft rest c else s
  end.

Definition Trim (s : string) (c : ascii) : string :=
  String.rev (TrimLeft (String.rev (TrimLeft s c)) c).

(** The address on a line: what is before the first space (lines 433-437). *)
Definition line_ip (line : string) : string :=
  match Index line " " with
  | Some idx =>
      if bool_decide (0 < idx)%nat then String.substring 0 idx line else line
  | None => line
  end.

(** The loop of [GetIP] and what follows it (lines 426-453), over the
    [lines] left and with [firstIP] as it stands. *)
Fixpoint GetIP_range (TrimSpace : string → string) (lines : list string)
    (firstIP : string) : GetIPError + string :=
  match lines with
  | [] => if bool_decide (firstIP = "") then inl NoIPAddress else inr firstIP
  | line :: rest =>
      let line := TrimSpace line in
      if bool_decide (line = "") then GetIP_range TrimSpace rest firstIP
      else
        let ip := line_ip line in
        if Contains line "(eth0)" then inr ip
        else if bool_decide (firstIP = "") && bool_decide (ip ≠ "")
             then GetIP_range TrimSpace rest ip
             else GetIP_range TrimSpace rest firstIP
  end.

(** [GetIP] (lines 412-454).  [run] is what the command [lxc list name -c4
    -f csv] gives: its output, or the error of running it. *)
Definition GetIP (TrimSpace : string → string) (run : string + string)
    : GetIPError + string :=
  match run with
  | inr err => inl (GetIPFailed err)
  | inl output =>
      let content := TrimSpace output in
      let content := Trim content "034" in
      GetIP_range TrimSpace (Split content "010") ""
  end.

(** * The command [proxy] (cmd/proxy.go, [runProxy]) *)

(** What [runProxy] returns besides nil. *)
Inductive RunError :=
| ErrRequire (msg : string)      (* the error of requireRunningContainer *)
| ErrGetIP (msg : string)        (* failed to get container IP: msg *)
| ErrNoPorts (name : string)     (* no ports configured for container 'name' *)
| ErrStartProxy (port : Z) (err : error).
                                 (* failed to start proxy for port p: err *)

(** The main goroutine from the loop on. *)
Inductive MainPc :=
| PLoop (ip : string) (rest : list Z)
                                 (* the for statement, ports still to add *)
| PStopAllFailed (t : nat) (port : Z) (err : error)
                                 (* manager.StopAll() after a failed Add *)
| PWaitSignal                    (* <-sigChan *)
| PStopAllSignal (t : nat)       (* manager.StopAll() after the signal *)
| PReturned (r : option RunError).

Record PWorld := mkPWorld { p_m : MWorld; p_main : MainPc }.

(** [runProxy] up to the loop.  [require] is what
    [requireRunningContainer(name)] returns and [getIP] what [lxc.GetIP]
    does: both ask the file system and the [lxc] command. *)
Definition runProxy_begin (o : OS) (require : string + Config * string)
    (getIP : string → string + string) (name : string) : PWorld :=
  match require with
  | inl msg => mkPWorld (m_init o) (PReturned (Some (ErrRequire msg)))
  | inr (cfg, lxcName) =>
      match getIP lxcName with
      | inl msg => mkPWorld (m_init o) (PReturned (Some (ErrGetIP msg)))
      | inr ip =>
          let ports := GetPorts cfg name in
          if bool_decide (length ports = 0%nat)
          then mkPWorld (m_init o) (PReturned (Some (ErrNoPorts name)))
          else mkPWorld (m_init o) (PLoop ip ports)
      end
  end.

(** The main goroutine enters [manager.StopAll()]. *)
Definition call_StopAll (m : MWorld) : MWorld :=
  m_set_calls m (m_calls m ++ [SALock]).

(** The main goroutine inside [manager.StopAll()], call number [t]: it
    makes the next step of the call, or has returned from it. *)
Definition in_StopAll (m : MWorld) (t : nat) (after : MainPc) (pc : MainPc)
    : option PWorld :=
  match m_calls m !! t with
  | Some SAReturned => Some (mkPWorld m after)
  | _ => m' ← mexec (MStopAll t) m; Some (mkPWorld m' pc)
  end.

(** One step of the main goroutine; [sig] says whether SIGINT or SIGTERM
    has arrived. *)
Definition main_step (sig : bool) (w : PWorld) : option PWorld :=
  let m := p_m w in
  if m_dead m then None
  else match p_main w with
  | PLoop ip [] => Some (mkPWorld m PWaitSignal)
  | PLoop ip (port :: rest) =>
      if m_mu m then None
      else
        match Add (m_os m) (m_mgr m) port ip port with
        | (Some err, o', mgr') =>
            let m' := mkMWorld o' mgr' (m_mu m) (m_retired m) (m_calls m)
                               (m_fatal m) in
            Some (mkPWorld (call_StopAll m')
                           (PStopAllFailed (length (m_calls m)) port err))
        | (None, o', mgr') =>
            Some (mkPWorld (mkMWorld o' mgr' (m_mu m) (m_retired m) (m_calls m)
                                     (m_fatal m))
                           (PLoop ip rest))
        end
  | PStopAllFailed t port err =>
      in_StopAll m t (PReturned (Some (ErrStartProxy port err))) (p_main w)
  | PWaitSignal =>
      if sig then Some (mkPWorld (call_StopAll m)
                                 (PStopAllSignal (length (m_calls m))))
      else None
  | PStopAllSignal t => in_StopAll m t (PReturned None) (p_main w)
  | PReturned _ => None
  end.

(** The goroutines of the Proxies, the peers and the clock. *)
Definition env_action (a : MAction) : bool :=
  match a with
  | MMember _ _ | MRetired _ _ | MTick _ => true
  | _ => false
  end.

Inductive PAction :=
| PMain (sig : bool)
| PEnv (a : MAction).

Definition pexec (a : PAction) (w : PWorld) : option PWorld :=
  match a with
  | PMain sig => main_step sig w
  | PEnv a =>
      if env_action a then m' ← mexec a (p_m w); Some (mkPWorld m' (p_main w))
      else None
  end.

Fixpoint prun (tr : list PAction) (w : PWorld) : option PWorld :=
  match tr with
  | [] => Some w
  | a :: tr' => w' ← pexec a w; prun tr' w'
  end.

(** [runProxy] at the loop, for the address [ip] and the ports [ports]. *)
Definition p_init (o : OS) (ip : string) (ports : list Z) : PWorld :=
  mkPWorld (m_init o) (PLoop ip ports).

Definition preachable (o : OS) (ip : string) (ports : list Z) (w : PWorld)
    : Prop :=
  ∃ tr, prun tr (p_init o ip ports) = Some w.

(** ** Vocabulary of the invariant of [runProxy] *)

(** The Proxy [Add(port, ip, port)] makes: where it listens and where it
    dials. *)
Definition forward (ip : string) (port : Z) : Z * string :=
  (port, ip +:+ ":" +:+ pretty port).

(** The Manager while the loop runs or waits: no call of [StopAll], one
    Proxy for each port added so far. *)
Definition serving (ip : string) (started : list Z) (m : MWorld) : Prop :=
  m_calls m = [] ∧ m_mu m = false ∧ m_retired m = []
  ∧ target <$> proxies (m_mgr m) = forward ip <$> started.

(** The Manager during the one call of [StopAll]. *)
Definition stopping (n : nat) (m : MWorld) : Prop :=
  ∃ pc, m_calls m = [pc]
        ∧ match pc with
          | SAUnlock | SAReturned =>
              proxies (m_mgr m) = [] ∧ length (m_retired m) = n
          | _ => length (proxies (m_mgr m)) = n ∧ m_retired m = []
          end.

Definition pinv (ip : string) (ports : list Z) (w : PWorld) : Prop :=
  match p_main w with
  | PLoop ip' rest =>
      ip' = ip ∧ ∃ started, ports = started ++ rest ∧ serving ip started (p_m w)
  | PWaitSignal => serving ip ports (p_m w)
  | PStopAllFailed t port err =>
      t = 0%nat
      ∧ ∃ started rest e,
          ports = started ++ port :: rest ∧ err = bind_error port (OpError e)
          ∧ stopping (length started) (p_m w)
  | PStopAllSignal t => t = 0%nat ∧ stopping (length ports) (p_m w)
  | PReturned r =>
      m_calls (p_m w) = [SAReturned] ∧ proxies (m_mgr (p_m w)) = []
      ∧ match r with
        | None => length (m_retired (p_m w)) = length ports
        | Some (ErrStartProxy port err) =>
            ∃ started rest e,
              ports = started ++ port :: rest
              ∧ err = bind_error port (OpError e)
              ∧ length (m_retired (p_m w)) = length started
        | Some _ => False
        end
  end.

(** ** Scenarios: the command for the ports 8000 and 8001 *)

(** The steps of the main goroutine and of the accept loop by which
    [StopAll] stops Proxy number [k]. *)
Definition ptr_stop (k : nat) : list PAction :=
  [PMain false; PMain false; PMain false;
   PEnv (MMember k (Acceptor None)); PEnv (MMember k (Acceptor None));
   PEnv (MMember k (Acceptor None));
   PMain false; PMain false].

(** Both ports are added, the signal arrives, [StopAll] runs, [runProxy]
    returns. *)
Definition ptr_serve : list PAction := [PMain false; PMain false; PMain false].
Definition ptr_signal : list PAction :=
  ptr_serve ++ [PMain true; PMain false] ++ ptr_stop 0 ++ ptr_stop 1
  ++ [PMain false; PMain false; PMain false; PMain false].

(** Port 8080 is taken: the second [Add] fails. *)
Definition ptr_fail : list PAction :=
  [PMain false; PMain false; PMain false] ++ ptr_stop 0
  ++ [PMain false; PMain false; PMain false; PMain false].

Definition pw_serving : PWorld :=
  default (p_init os_free "10.0.3.7" [8000; 8001])
          (prun ptr_serve (p_init os_free "10.0.3.7" [8000; 8001])).
Definition pw_done : PWorld :=
  default (p_init os_free "10.0.3.7" [8000; 8001])
          (prun ptr_signal (p_init os_free "10.0.3.7" [8000; 8001])).
Definition pw_failed : PWorld :=
  default (p_init os_8080 "10.0.3.7" [8000; 8080; 8001])
          (prun ptr_fail (p_init os_8080 "10.0.3.7" [8000; 8080; 8001])).

(** The ports [runProxy] can bind: pairwise different, between 1 and
    65535, held by no other program, and not privileged unless the process
    is. *)
Definition bindable (o : OS) (ports : list Z) : Prop :=
  ValidatePorts ports = None
  ∧ Forall (λ p, (p ∉ bound o) ∧ (p < 1024 → privileged o = true)) ports.

(** No [Add] has failed. *)
Definition unfailed (w : PWorld) : Prop :=
  match p_main w with
  | PStopAllFailed _ _ _ | PReturned (Some _) => False
  | _ => True
  end.

(** The command for the container dev2 of [cfg_dev1], up to the wait for
    the signal. *)
Definition pw_dev2 : PWorld :=
  default (p_init os_free "10.0.3.7" [3000; 3001])
          (prun ptr_serve (runProxy_begin os_free (inr (cfg_dev1, "web-dev2"))
                             (λ _, inr "10.0.3.7") "dev2")).

(** ** The main goroutine inside [StopAll] *)

(** The main goroutine is inside call [t] of [StopAll]. *)
Definition in_call (t : nat) (pc : MainPc) : Prop :=
  pc = PStopAllSignal t ∨ ∃ port err, pc = PStopAllFailed t port err.

(** A step of the process, seen from [runProxy]: the steps of [StopAll]
    are the main goroutine's. *)
Definition lift_action (a : MAction) : PAction :=
  match a with
  | MStopAll _ => PMain false
  | _ => PEnv a
  end.

(** * Start, New and Add *)

Section Listen.
Variables (o : OS) (port : Z).

Lemma Start_failure p e :
  net_Listen o (LocalPort p) = inl e →
  Start o p = (Some (bind_error (LocalPort p) e), mkWorld o (idle p)).
Proof. intros H. unfold Start. by rewrite H. Qed.

Lemma Start_success p l o' :
  net_Listen o (LocalPort p) = inr (l, o') →
  Start o p = (None, mkWorld o' (running p l)).
Proof. intros H. unfold Start. by rewrite H. Qed.

Lemma net_Listen_in_use :
  0 < port ≤ 65535 → port ∈ bound o →
  ∃ e, net_Listen o port = inl (OpError e).
Proof.
  intros Hr Hb. unfold net_Listen.
  rewrite bool_decide_eq_false_2 by lia.
  rewrite (bool_decide_eq_false_2 (port = 0)) by lia.
  destruct (bool_decide (port < 1024) && negb (privileged o)); [by eexists|].
  rewrite bool_decide_eq_true_2 by done. by eexists.
Qed.

Lemma net_Listen_no_permission :
  0 < port < 1024 → privileged o = false →
  net_Listen o port = inl (OpError EACCES).
Proof.
  intros Hr Hp. unfold net_Listen.
  rewrite bool_decide_eq_false_2 by lia.
  rewrite (bool_decide_eq_false_2 (port = 0)) by lia.
  rewrite bool_decide_eq_true_2 by lia. by rewrite Hp.
Qed.

Lemma pick_ephemeral_free p0 : pick_ephemeral o = Some p0 → p0 ∉ bound o.
Proof.
  unfold pick_ephemeral.
  generalize (Z.to_nat (eph_hi o - eph_lo o + 1)). generalize (eph_lo o).
  intros p n. revert p. induction n as [|n IH]; intros p H; [done|].
  simpl in H. case_bool_decide; simplify_eq; eauto.
Qed.

End Listen.

(** ** Claim C6 *)

(** C6. When the bind fails, [Start] returns the wrapped listen error and
    leaves the operating system and the Proxy as they were (no listener, no
    goroutine, WaitGroup at 0), and [Add] returns that error with the same
    members; a port already listening, or a port below 1024 without
    privilege, makes the bind fail.  When the bind succeeds, [Add] appends
    exactly the Forwarder that [Start] left running. *)
Theorem Add_bind_failure_atomic (o : OS) (m : Manager) (port : Z)
    (host : string) (rport : Z) :
  let p := New port host rport in
  (∀ e, net_Listen o port = inl e →
        Start o p = (Some (bind_error port e), mkWorld o (idle p))
        ∧ acceptor (idle p) = AIdle ∧ handlers (idle p) = []
        ∧ wg (px (idle p)) = 0 ∧ listener (px (idle p)) = None
        ∧ Add o m port host rport = (Some (bind_error port e), o, m))
  ∧ (0 < port ≤ 65535 →
     port ∈ bound o ∨ (port < 1024 ∧ privileged o = false) →
     ∃ e, net_Listen o port = inl e)
  ∧ (∀ l o', net_Listen o port = inr (l, o') →
        Add o m port host rport
        = (None, o', mkManager (proxies m ++ [running p l]))).
Proof.
  intros p. split; [|split].
  - intros e He. pose proof (Start_failure o p e He) as HS.
    repeat split; try done. unfold Add. fold p. by rewrite HS.
  - intros Hr [Hb | [Hlt Hp]].
    + destruct (net_Listen_in_use o port Hr Hb) as [e He]. eauto.
    + exists (OpError EACCES). apply net_Listen_no_permission; [lia | done].
  - intros l o' Hl. pose proof (Start_success o p l o' Hl) as HS.
    unfold Add. fold p. by rewrite HS.
Qed.

Lemma Add_bind_failure_atomic_witness :
  Add os_8080 NewManager 8080 "10.0.3.7" 8080
  = (Some (bind_error 8080 (OpError EADDRINUSE)), os_8080, NewManager)
  ∧ (∃ e, net_Listen os_8080 8080 = inl e)
  ∧ proxies (Add os_8080 NewManager 5173 "10.0.3.7" 5173).2
    = [running (New 5173 "10.0.3.7" 5173) (mkListener 5173 false)].
Proof.
  destruct (Add_bind_failure_atomic os_8080 NewManager 8080 "10.0.3.7" 8080)
    as (Hfail & Hcause & _).
  destruct (Add_bind_failure_atomic os_8080 NewManager 5173 "10.0.3.7" 5173)
    as (_ & _ & Hok).
  split; [|split].
  - apply (Hfail (OpError EADDRINUSE)). reflexivity.
  - apply Hcause; [lia | left; vm_compute; reflexivity].
  - rewrite (Hok (mkListener 5173 false)
                 (os_set_bound os_8080 ({[5173]} ∪ bound os_8080)));
      reflexivity.
Defined.

(** ** Claim C10 *)

(** C10. [New] stores any integer as [LocalPort] and [Start] fails exactly
    when [net.Listen] does: neither checks the range 1-65535.  With
    [localPort = 0], [Start] succeeds whenever an ephemeral port is free and
    listens on that port, while [LocalPort] stays 0; with a port below 0 or
    above 65535 the only error is the one of the listen call. *)
Theorem Start_no_port_validation (o : OS) (port : Z) (host : string) (rport : Z) :
  let p := New port host rport in
  LocalPort p = port
  ∧ ((Start o p).1 = None ↔ ∃ l o', net_Listen o port = inr (l, o'))
  ∧ (∀ p0, port = 0 → pick_ephemeral o = Some p0 →
       (p0 ∉ bound o)
       ∧ Start o p
         = (None, mkWorld (os_set_bound o ({[p0]} ∪ bound o))
                          (running p (mkListener p0 false)))
       ∧ LocalPort (px (running p (mkListener p0 false))) = 0)
  ∧ (port < 0 ∨ 65535 < port →
       Start o p = (Some (bind_error port (OpError EINVALPORT)), mkWorld o (idle p))).
Proof.
  intros p. split; [done|]. split; [|split].
  - unfold Start. fold p. change (LocalPort p) with port.
    destruct (net_Listen o port) as [e | [l o']]; simpl.
    + split; [done | intros (l & o' & H); done].
    + split; [eauto | done].
  - intros p0 -> Hp. split; [by eapply pick_ephemeral_free|].
    split; [|done]. apply Start_success. unfold net_Listen. simpl.
    by rewrite Hp.
  - intros Hr. apply (Start_failure o p). simpl. unfold net_Listen.
    by rewrite bool_decide_eq_true_2.
Qed.

Lemma Start_no_port_validation_witness :
  Start os_8080 (New 0 "10.0.3.7" 8080)
  = (None, mkWorld (os_set_bound os_8080 ({[32768]} ∪ bound os_8080))
                   (running (New 0 "10.0.3.7" 8080) (mkListener 32768 false)))
  ∧ Start os_8080 (New 70000 "10.0.3.7" 8080)
    = (Some (bind_error 70000 (OpError EINVALPORT)),
       mkWorld os_8080 (idle (New 70000 "10.0.3.7" 8080))).
Proof.
  assert (E : pick_ephemeral os_8080 = Some 32768) by (vm_compute; reflexivity).
  split.
  - destruct (Start_no_port_validation os_8080 0 "10.0.3.7" 8080)
      as (_ & _ & H0 & _).
    destruct (H0 32768 eq_refl E) as (_ & HS & _). exact HS.
  - destruct (Start_no_port_validation os_8080 70000 "10.0.3.7" 8080)
      as (_ & _ & _ & Hbad).
    apply Hbad. right. lia.
Defined.

(** * Invariants of a running Forwarder *)

(** ** Bookkeeping of the gate and of the WaitGroup *)

(** Turns the tests the code made into hypotheses. *)
Ltac tests :=
  repeat match goal with
         | H : bool_decide _ = true |- _ => apply bool_decide_eq_true_1 in H
         | H : bool_decide _ = false |- _ => apply bool_decide_eq_false_1 in H
         | H : _ && _ = true |- _ => apply andb_prop in H as [? ?]
         end.

Lemma sum_list_with_insert {A} (g : A → nat) (l : list A) i x y :
  l !! i = Some x →
  (sum_list_with g (<[i := y]> l) + g x = sum_list_with g l + g y)%nat.
Proof.
  revert i. induction l as [|a l IH]; intros [|i] H; simplify_eq/=; [lia|].
  specialize (IH _ H). lia.
Qed.

Lemma sum_list_with_insert_same {A} (g : A → nat) (l : list A) i x y :
  l !! i = Some x → g y = g x →
  sum_list_with g (<[i := y]> l) = sum_list_with g l.
Proof. intros H E. pose proof (sum_list_with_insert g l i x y H). lia. Qed.

Lemma sum_list_with_lookup_le {A} (g : A → nat) (l : list A) i x :
  l !! i = Some x → (g x ≤ sum_list_with g l)%nat.
Proof.
  revert i. induction l as [|a l IH]; intros [|i] H; simplify_eq/=; [lia|].
  specialize (IH _ H). lia.
Qed.

(** Relay goroutines and peers never move the handler's program counter. *)
Lemma relay_step_inv now d n h h' :
  relay_step now d n h = Some h' →
  ∃ src dst pc' src' dst' k',
    relay_src d h = Some src ∧ relay_dst d h = Some dst
    ∧ relay_body now n (relay_pc d h) src dst (done_ch h)
      = Some (pc', src', dst', k')
    ∧ h' = relay_set_pc d
             (relay_set_dst d (relay_set_src d (h_set_done_ch h k') src') dst') pc'.
Proof.
  unfold relay_step. intros H.
  destruct (relay_src d h) as [src|]; simplify_eq/=.
  destruct (relay_dst d h) as [dst|]; simplify_eq/=.
  destruct (relay_body _ _ _ _ _ _) as [[[[pc' src'] dst'] k']|] eqn:E;
    simplify_eq/=.
  naive_solver.
Qed.

Lemma relay_step_hpc now d n h h' :
  relay_step now d n h = Some h' → hpc h' = hpc h.
Proof.
  intros H. apply relay_step_inv in H as (?&?&?&?&?&?&_&_&_&->).
  by destruct d.
Qed.

Lemma peer_set_conn_hpc s h c : hpc (peer_set_conn s h c) = hpc h.
Proof. by destruct s. Qed.

Lemma on_handler_inv w i k w' :
  on_handler w i k = Some w' →
  ∃ h h', handlers (w_fwd w) !! i = Some h ∧ k h = Some h'
          ∧ w' = mkWorld (w_os w)
                   (f_set_handlers (w_fwd w) (<[i := h']> (handlers (w_fwd w)))).
Proof.
  unfold on_handler. intros H.
  destruct (handlers (w_fwd w) !! i) as [h|] eqn:Hi; simplify_eq/=.
  destruct (k h) as [h'|] eqn:Hk; simplify_eq/=. eauto.
Qed.

(** A step that only rewrites handler [i] without moving its program
    counter keeps the bookkeeping. *)
Lemma counted_same_pc f i h h' :
  handlers f !! i = Some h → hpc h' = hpc h → counted f →
  counted (f_set_handlers f (<[i := h']> (handlers f))).
Proof.
  intros Hi Hpc [H1 H2 H3 H4 H5]. split; simpl; try done.
  - rewrite (sum_list_with_insert_same _ _ _ h); [done..|].
    unfold holds_slot. by rewrite Hpc.
  - rewrite (sum_list_with_insert_same _ _ _ h); [done..|].
    unfold live. by rewrite Hpc.
Qed.

Lemma counted_handler_step now dial p h p' h' f i :
  px f = p → handlers f !! i = Some h → counted f →
  handler_step now dial p h = Ok (p', h') →
  counted (f_set_handlers (f_set_px f p') (<[i := h']> (handlers f))).
Proof.
  intros <- Hi [H1 H2 H3 H4 H5] Hs.
  pose proof (sum_list_with_insert holds_slot _ i h h' Hi) as Es.
  pose proof (sum_list_with_insert live _ i h h' Hi) as El.
  unfold handler_step in Hs.
  destruct (hpc h) eqn:Hpc; repeat case_match; simplify_eq/=;
    tests; split; unfold holds_slot, live in *; simpl in *; rewrite ?Hpc in *;
    try done; try lia.
Qed.

Lemma counted_acceptor_step env f f' :
  counted f → acceptor_step env f = Ok f' → counted f'.
Proof.
  intros [H1 H2 H3 H4 H5] Hs. unfold acceptor_step in Hs.
  destruct (acceptor f) eqn:Ha; repeat case_match; simplify_eq/=;
    tests; split; simpl; rewrite ?Ha, ?sum_list_with_app in *; simpl in *;
    try done; try lia.
Qed.

Lemma counted_stop_step w pc w' pc' :
  counted (w_fwd w) → stop_step w pc = Ok (w', pc') → counted (w_fwd w').
Proof.
  intros [H1 H2 H3 H4 H5] Hs. unfold stop_step in Hs.
  destruct pc; repeat case_match; simplify_eq/=; split; simpl; eauto.
Qed.

Lemma counted_panic f : counted f → counted (f_panic f).
Proof. by intros []. Qed.

Lemma counted_exec a w w' :
  exec a w = Some w' → counted (w_fwd w) → counted (w_fwd w').
Proof.
  unfold exec. intros H C. destruct (panicked (w_fwd w)); [done|].
  destruct a.
  - destruct (acceptor_step env (w_fwd w)) eqn:E; simplify_eq/=;
      eauto using counted_acceptor_step, counted_panic.
  - destruct (handlers (w_fwd w) !! i) as [h|] eqn:Hi; simplify_eq/=.
    destruct (handler_step _ _ _ h) as [|[p' h']|] eqn:E; simplify_eq/=;
      eauto using counted_handler_step, counted_panic.
  - apply on_handler_inv in H as (h & h' & Hi & Hk & ->). simpl.
    eapply counted_same_pc; eauto using relay_step_hpc.
  - simplify_eq/=. by destruct C.
  - destruct (stops (w_fwd w) !! j) as [pc|] eqn:Hj; simplify_eq/=.
    destruct (stop_step w pc) as [|[w1 pc1]|] eqn:E; simplify_eq/=.
    + apply counted_stop_step in E; [|done]. by destruct E.
    + by apply counted_panic.
  - case_match; simplify_eq/=. done.
  - apply on_handler_inv in H as (h & h' & Hi & Hk & ->). simpl.
    eapply counted_same_pc; eauto.
    destruct (peer_conn s h); simplify_eq/=.
    destruct (conn_peer_send bs c); simplify_eq/=. apply peer_set_conn_hpc.
  - apply on_handler_inv in H as (h & h' & Hi & Hk & ->). simpl.
    eapply counted_same_pc; eauto.
    destruct (peer_conn s h); simplify_eq/=. apply peer_set_conn_hpc.
  - apply on_handler_inv in H as (h & h' & Hi & Hk & ->). simpl.
    eapply counted_same_pc; eauto.
    destruct (peer_conn s h); simplify_eq/=. apply peer_set_conn_hpc.
Qed.

Lemma run_invariant (P : World → Prop) :
  (∀ a w w', exec a w = Some w' → P w → P w') →
  ∀ tr w w', run tr w = Some w' → P w → P w'.
Proof.
  intros Hstep tr. induction tr as [|a tr IH]; intros w w' Hr Hw; simplify_eq/=.
  - done.
  - destruct (exec a w) as [w1|] eqn:E; simplify_eq/=. eauto.
Qed.

Lemma run_app tr1 tr2 w :
  run (tr1 ++ tr2) w = w' ← run tr1 w; run tr2 w'.
Proof.
  revert w. induction tr1 as [|a tr1 IH]; intros w; simpl; [done|].
  destruct (exec a w); simpl; eauto.
Qed.

(** ** The handler and its two relay goroutines *)

Lemma closed_SetDeadline t c : closed (conn_SetDeadline t c) = closed c.
Proof. unfold conn_SetDeadline. by destruct (closed c) eqn:E. Qed.

Lemma closed_CloseWrite c : closed (conn_CloseWrite c) = closed c.
Proof. unfold conn_CloseWrite. by destruct (closed c) eqn:E. Qed.

Lemma handler_ok_spawn early : handler_ok (spawn_handler (new_conn early)).
Proof. done. Qed.

Lemma handler_ok_step now dial p h p' h' :
  handler_ok h → handler_step now dial p h = Ok (p', h') → handler_ok h'.
Proof.
  unfold handler_step, handler_ok, remote_open. intros Hok Hs.
  destruct (hpc h) eqn:Hpc; repeat case_match; simplify_eq/=;
    destruct h as [pc l [r|] u dn k]; simplify_eq/=;
    destruct_and?; simplify_eq/=;
    repeat match goal with H : is_Some None |- _ => by destruct H end;
    try (destruct u; simplify_eq/=; destruct dn; simplify_eq/=);
    rewrite ?closed_SetDeadline;
    try (intuition (eauto; simplify_eq/=; rewrite ?closed_SetDeadline; eauto; lia)).
Qed.

Lemma conn_Read_data now n c chunk c' :
  conn_Read now n c = ReadData chunk c' →
  chunk = take n (rx c) ∧ c' = conn_set_rx c (drop n (rx c))
  ∧ closed c = false ∧ expired now c = false ∧ rst c = false.
Proof. unfold conn_Read. intros H. repeat case_match; by simplify_eq/=. Qed.

Lemma conn_Read_EOF now n c :
  conn_Read now n c = ReadEOF →
  rx c = [] ∧ rx_eof c = true ∧ closed c = false ∧ expired now c = false.
Proof. unfold conn_Read. intros H. repeat case_match; by simplify_eq/=. Qed.

Lemma conn_Write_ok now bs c c' :
  conn_Write now bs c = inr c' →
  c' = conn_set_tx c (tx c ++ bs) ∧ closed c = false ∧ wr_closed c = false
  ∧ expired now c = false.
Proof. unfold conn_Write. intros H. repeat case_match; by simplify_eq/=. Qed.

Ltac io_facts :=
  repeat match goal with
         | H : conn_Read _ _ _ = ReadData _ _ |- _ =>
             apply conn_Read_data in H as (-> & -> & ? & ? & ?)
         | H : conn_Read _ _ _ = ReadEOF |- _ =>
             apply conn_Read_EOF in H as (? & ? & ? & ?)
         | H : conn_Write _ _ _ = inr _ |- _ =>
             apply conn_Write_ok in H as (-> & ? & ? & ?)
         end.

(** What one step of a relay goroutine can change: it reads from [src],
    writes to [dst], moves its own program counter and, with its last
    statement, puts one element into the [done] channel. *)
Lemma relay_body_frame now n pc src dst k pc' src' dst' k' :
  relay_body now n pc src dst k = Some (pc', src', dst', k') →
  closed src' = closed src ∧ closed dst' = closed dst
  ∧ peer_sent src' = peer_sent src ∧ rx_eof src' = rx_eof src ∧ tx src' = tx src
  ∧ peer_sent dst' = peer_sent dst ∧ rx_eof dst' = rx_eof dst ∧ rx dst' = rx dst
  ∧ pc ≠ RIdle ∧ pc' ≠ RIdle ∧ fin pc = 0%nat
  ∧ (k' = k + fin pc')%nat.
Proof.
  unfold relay_body. intros H.
  destruct pc; repeat case_match; simplify_eq/=; tests; io_facts; simpl;
    rewrite ?closed_CloseWrite;
    try (unfold conn_CloseWrite; case_match; simpl);
    repeat split; try done; lia.
Qed.

Lemma handler_ok_relay now d n h h' :
  handler_ok h → relay_step now d n h = Some h' → handler_ok h'.
Proof.
  intros Hok H.
  apply relay_step_inv in H as (src & dst & pc' & src' & dst' & k' &
                                Hs & Hd & Hb & ->).
  apply relay_body_frame in Hb
    as (Cs & Cd & _ & _ & _ & _ & _ & _ & N1 & N2 & F & ->).
  revert Hok. unfold handler_ok, remote_open.
  destruct h as [pc l [r|] u dn k]; destruct d; simplify_eq/=;
    destruct pc; simpl; rewrite ?Cs, ?Cd;
    intros Hok; destruct_and?; simplify_eq/=;
    try (destruct_or?; destruct_and?; simplify_eq/=);
    try lia;
    repeat split; eauto; try lia;
    try (intros ? ?; simplify_eq/=; rewrite ?Cs, ?Cd; by eauto).
Qed.

Lemma handler_ok_peer s h c c' :
  handler_ok h → peer_conn s h = Some c →
  closed c' = closed c → handler_ok (peer_set_conn s h c').
Proof.
  unfold handler_ok, remote_open. intros Hok Hc Hcl.
  destruct h as [pc l [r|] u dn k]; destruct s; simplify_eq/=;
    repeat case_match; simplify_eq/=; destruct_and?;
    try (intuition (eauto; simplify_eq/=; eauto; congruence)).
Qed.

Lemma conn_peer_send_closed bs c c' :
  conn_peer_send bs c = Some c' → closed c' = closed c.
Proof. unfold conn_peer_send. case_match; intros; by simplify_eq/=. Qed.

Lemma handlers_ok_exec a w w' :
  exec a w = Some w' → handlers_ok w → handlers_ok w'.
Proof.
  unfold exec, handlers_ok. intros H [C A].
  destruct (panicked (w_fwd w)); [done|]. destruct a.
  - destruct (acceptor_step env (w_fwd w)) as [|f'|] eqn:E; simplify_eq/=;
      [|done].
    unfold acceptor_step in E.
    repeat case_match; simplify_eq/=; split; try done;
      try (intros ? ?; simplify_eq/=; by eauto).
    apply Forall_app. split; [done|]. apply Forall_singleton.
    unfold handler_ok; simpl. eauto.
  - destruct (handlers (w_fwd w) !! i) as [h|] eqn:Hi; simplify_eq/=.
    destruct (handler_step _ _ _ h) as [|[p' h']|] eqn:E; simplify_eq/=;
      [|done].
    split; [|done]. apply Forall_insert; [done|].
    eapply handler_ok_step; [|done]. eapply Forall_lookup_1; eauto.
  - apply on_handler_inv in H as (h & h' & Hi & Hk & ->). simpl.
    split; [|done]. apply Forall_insert; [done|].
    eapply handler_ok_relay; [|done]. eapply Forall_lookup_1; eauto.
  - by simplify_eq/=.
  - destruct (stops (w_fwd w) !! j) as [pc|] eqn:Hj; simplify_eq/=.
    unfold stop_step in H. repeat case_match; simplify_eq/=; done.
  - case_match; by simplify_eq/=.
  - apply on_handler_inv in H as (h & h' & Hi & Hk & ->). simpl.
    destruct (peer_conn s h) as [c|] eqn:Hc; simplify_eq/=.
    destruct (conn_peer_send bs c) as [c'|] eqn:Hs; simplify_eq/=.
    split; [|done]. apply Forall_insert; [done|].
    eapply handler_ok_peer; eauto using conn_peer_send_closed.
    eapply Forall_lookup_1; eauto.
  - apply on_handler_inv in H as (h & h' & Hi & Hk & ->). simpl.
    destruct (peer_conn s h) as [c|] eqn:Hc; simplify_eq/=.
    split; [|done]. apply Forall_insert; [done|].
    eapply handler_ok_peer; eauto. eapply Forall_lookup_1; eauto.
  - apply on_handler_inv in H as (h & h' & Hi & Hk & ->). simpl.
    destruct (peer_conn s h) as [c|] eqn:Hc; simplify_eq/=.
    split; [|done]. apply Forall_insert; [done|].
    eapply handler_ok_peer; eauto. eapply Forall_lookup_1; eauto.
Qed.

(** ** Byte transparency *)

Lemma dir_ok_frame pc src dst src' dst' :
  peer_sent src' = peer_sent src → rx src' = rx src → rx_eof src' = rx_eof src →
  tx dst' = tx dst →
  dir_ok pc src dst → dir_ok pc src' dst'.
Proof.
  unfold dir_ok. intros E1 E2 E3 E4 H.
  destruct pc; rewrite ?E1, ?E2, ?E3, ?E4; done.
Qed.

Lemma SetDeadline_frame t c :
  peer_sent (conn_SetDeadline t c) = peer_sent c
  ∧ rx (conn_SetDeadline t c) = rx c
  ∧ rx_eof (conn_SetDeadline t c) = rx_eof c
  ∧ tx (conn_SetDeadline t c) = tx c.
Proof. unfold conn_SetDeadline. by destruct (closed c). Qed.

Lemma CloseWrite_frame c :
  peer_sent (conn_CloseWrite c) = peer_sent c
  ∧ rx (conn_CloseWrite c) = rx c
  ∧ rx_eof (conn_CloseWrite c) = rx_eof c
  ∧ tx (conn_CloseWrite c) = tx c.
Proof. unfold conn_CloseWrite. by destruct (closed c). Qed.

Lemma transparent_step now dial p h p' h' :
  handler_ok h → transparent h →
  handler_step now dial p h = Ok (p', h') → transparent h'.
Proof.
  unfold handler_step, handler_ok, transparent, quiet. intros Hok Ht Hs.
  destruct (SetDeadline_frame (now + ConnectionTimeout) (local h))
    as (L1 & L2 & L3 & L4).
  destruct (hpc h) eqn:Hpc; repeat case_match; simplify_eq/=;
    destruct_and?; simplify_eq/=;
    repeat match goal with
           | H : is_Some None |- _ => by destruct H
           | H : remote _ = _ |- _ => rewrite H in *; simpl in *
           | H : up _ = _ |- _ => rewrite H in *; simpl in *
           | H : down _ = _ |- _ => rewrite H in *; simpl in *
           end;
    simplify_eq/=; rewrite ?L1, ?L2, ?L3, ?L4;
    try done;
    try (split; eapply dir_ok_frame; [..|eassumption];
         try apply SetDeadline_frame; done).
  - rewrite H, H1. done.
  - destruct (SetDeadline_frame (now + ConnectionTimeout) c)
      as (R1 & R2 & R3 & R4).
    by rewrite R1, R2, R4.
Qed.

Lemma dir_ok_body now n pc src dst k pc' src' dst' k' :
  relay_body now n pc src dst k = Some (pc', src', dst', k') →
  dir_ok pc src dst → dir_ok pc' src' dst'.
Proof.
  unfold relay_body, dir_ok. intros H Hok.
  destruct pc; repeat case_match; simplify_eq/=; tests; io_facts; simpl;
    rewrite ?take_drop, <-?app_assoc;
    try (destruct (CloseWrite_frame dst) as (_ & _ & _ & ->));
    try done.
  - split; [by eexists|]. intros _.
    split; [|done]. rewrite Hok.
    match goal with E : rx _ = [] |- _ => rewrite E end.
    by rewrite app_nil_r.
  - split; [by eexists | done].
  - split; [by eexists | done].
Qed.

Lemma transparent_relay now d n h h' :
  transparent h → relay_step now d n h = Some h' → transparent h'.
Proof.
  intros Ht H.
  apply relay_step_inv in H as (src & dst & pc' & src' & dst' & k' &
                                Hs & Hd & Hb & ->).
  pose proof (dir_ok_body _ _ _ _ _ _ _ _ _ _ Hb) as Hmove.
  apply relay_body_frame in Hb
    as (_ & _ & S1 & S2 & S3 & D1 & D2 & D3 & _).
  revert Ht. unfold transparent.
  destruct h as [pc l [r|] u dn k]; destruct d; simplify_eq/=;
    intros [Hu Hdn]; split; eauto using dir_ok_frame.
Qed.

Lemma peer_move_send bs c c' : conn_peer_send bs c = Some c' → peer_move c c'.
Proof.
  unfold conn_peer_send. intros H.
  destruct (rx_eof c) eqn:Eeof; simplify_eq/=.
  destruct (rst c) eqn:Erst; simplify_eq/=.
  split; [done|]. split.
  - intros [Ht Hr]. split; simpl; [done | by rewrite Hr].
  - intros pc dst. unfold dir_ok. destruct pc; simpl.
    + intros ->. by rewrite app_assoc.
    + intros ->. by rewrite app_assoc.
    + intros ->. by rewrite !app_assoc.
    + intros [Hp Hc]. split; [by apply prefix_app_r|]. intros ->.
      destruct Hc as [_ Hc]; congruence.
    + intros [Hp Hc]. split; [by apply prefix_app_r|]. intros ->.
      destruct Hc as [_ Hc]; congruence.
    + intros [Hp Hc]. split; [by apply prefix_app_r|]. intros ->.
      destruct Hc as [_ Hc]; congruence.
Qed.

Lemma peer_move_close_write c : peer_move c (conn_peer_close_write c).
Proof.
  split; [done|]. split; [done|].
  intros pc dst. unfold dir_ok. destruct pc; simpl; try done;
    intros [Hp Hc]; (split; [done|]); intros E; by destruct (Hc E).
Qed.

Lemma peer_move_reset c : peer_move c (conn_peer_reset c).
Proof. split; [done|]. split; [done|]. intros pc dst. by destruct pc. Qed.

Lemma transparent_peer s h c c' :
  transparent h → peer_conn s h = Some c → peer_move c c' →
  transparent (peer_set_conn s h c').
Proof.
  unfold transparent. intros Ht Hc (Htx & Hq & Hdir).
  destruct h as [pc l [r|] u dn k]; destruct s; simplify_eq/=.
  - destruct Ht as [Hu Hd]. split; [by apply Hdir|].
    eapply dir_ok_frame; [..|exact Hd]; done.
  - destruct Ht as [Hu Hd]. split; [|by apply Hdir].
    eapply dir_ok_frame; [..|exact Hu]; done.
  - by apply Hq.
Qed.

Lemma all_transparent_exec a w w' :
  exec a w = Some w' → handlers_ok w →
  all_transparent (w_fwd w) → all_transparent (w_fwd w').
Proof.
  unfold exec. intros H [Hok _] [T1 T2 T3].
  destruct (panicked (w_fwd w)); [done|]. destruct a.
  - destruct (acceptor_step env (w_fwd w)) as [|f'|] eqn:E; simplify_eq/=;
      [|done].
    unfold acceptor_step in E.
    repeat case_match; simplify_eq/=; split; simpl; try done;
      try (intros ? ?; simplify_eq/=; by eauto).
    + apply Forall_app. split; [done|]. apply Forall_singleton.
      unfold transparent; simpl. eauto.
    + apply Forall_app. split; [done|]. apply Forall_singleton.
      split; [|done]. by apply (T2 c).
  - destruct (handlers (w_fwd w) !! i) as [h|] eqn:Hi; simplify_eq/=.
    destruct (handler_step _ _ _ h) as [|[p' h']|] eqn:E; simplify_eq/=;
      [|done].
    split; simpl; try done. apply Forall_insert; [done|].
    eapply transparent_step; [..|done]; eapply Forall_lookup_1; eauto.
  - apply on_handler_inv in H as (h & h' & Hi & Hk & ->).
    split; simpl; try done. apply Forall_insert; [done|].
    eapply transparent_relay; [|done]. eapply Forall_lookup_1; eauto.
  - by simplify_eq/=.
  - destruct (stops (w_fwd w) !! j) as [pc|] eqn:Hj; simplify_eq/=.
    unfold stop_step in H. repeat case_match; simplify_eq/=; done.
  - case_match; by simplify_eq/=.
  - apply on_handler_inv in H as (h & h' & Hi & Hk & ->).
    destruct (peer_conn s h) as [c|] eqn:Hc; simplify_eq/=.
    destruct (conn_peer_send bs c) as [c'|] eqn:Hs; simplify_eq/=.
    split; simpl; try done. apply Forall_insert; [done|].
    eapply transparent_peer; eauto using peer_move_send.
    eapply Forall_lookup_1; eauto.
  - apply on_handler_inv in H as (h & h' & Hi & Hk & ->).
    destruct (peer_conn s h) as [c|] eqn:Hc; simplify_eq/=.
    split; simpl; try done. apply Forall_insert; [done|].
    eapply transparent_peer; eauto using peer_move_close_write.
    eapply Forall_lookup_1; eauto.
  - apply on_handler_inv in H as (h & h' & Hi & Hk & ->).
    destruct (peer_conn s h) as [c|] eqn:Hc; simplify_eq/=.
    split; simpl; try done. apply Forall_insert; [done|].
    eapply transparent_peer; eauto using peer_move_reset.
    eapply Forall_lookup_1; eauto.
Qed.

(** ** Stop, the listener and the WaitGroup *)

Lemma sum_list_with_pointwise {A} (g1 g2 : A → nat) (l : list A) i x :
  (∀ y, g1 y ≤ g2 y)%nat → l !! i = Some x →
  (sum_list_with g1 l + g2 x ≤ sum_list_with g2 l + g1 x)%nat.
Proof.
  intros Hle.
  assert (Hall : ∀ k : list A, (sum_list_with g1 k ≤ sum_list_with g2 k)%nat).
  { intros k. induction k as [|b k IH]; simpl; [lia|]. specialize (Hle b). lia. }
  revert i. induction l as [|a l IH]; intros [|i] H; simplify_eq/=.
  - specialize (Hall l). lia.
  - specialize (IH _ H). specialize (Hle a). lia.
Qed.

Lemma past_listener_le pc : (past_listener pc ≤ past_done pc)%nat.
Proof. destruct pc; simpl; lia. Qed.

Lemma sum_live_0 hs :
  sum_list_with live hs = 0%nat → Forall (λ h, hpc h = HExited) hs.
Proof.
  induction hs as [|h hs IH]; simpl; intros H; constructor.
  - unfold live in H. destruct (hpc h); simpl in H; done || lia.
  - apply IH. lia.
Qed.

Lemma counted_wg_0 f : counted f → wg (px f) = 0 → quiescent f.
Proof.
  intros [_ _ H3 H4 _] H0. rewrite H0 in H3. split.
  - destruct (acceptor f); simpl in *; done || lia.
  - apply sum_live_0. lia.
Qed.

Lemma quiescent_same_pc f i h h' :
  handlers f !! i = Some h → hpc h' = hpc h → quiescent f →
  quiescent (f_set_handlers f (<[i := h']> (handlers f))).
Proof.
  intros Hi Hpc [Ha Hh]. split; [done|]. simpl.
  apply Forall_insert; [done|]. rewrite Hpc.
  eapply (Forall_lookup_1 _ _ _ _ Hh Hi).
Qed.

Lemma elem_of_insert_stop (ss : list StopPc) j pc pc' x :
  ss !! j = Some pc → x ∈ <[j := pc']> ss → x = pc' ∨ x ∈ ss.
Proof.
  intros Hj Hx. apply list_elem_of_lookup in Hx as [k Hk].
  destruct (decide (k = j)) as [->|Hne].
  - rewrite list_lookup_insert_eq in Hk by (by eapply lookup_lt_Some).
    left. congruence.
  - rewrite list_lookup_insert_ne in Hk by done.
    right. eapply list_elem_of_lookup_2; eauto.
Qed.

Lemma stop_ok_stop_step w j pc w1 pc1 :
  counted (w_fwd w) → stop_ok w →
  stops (w_fwd w) !! j = Some pc → stop_step w pc = Ok (w1, pc1) →
  stop_ok (mkWorld (w_os w1)
             (f_set_stops (w_fwd w1) (<[j := pc1]> (stops (w_fwd w))))).
Proof.
  intros C [S1 S2 S3 S4] Hj Hs.
  pose proof (sum_list_with_insert past_done _ j pc pc1 Hj) as Ed.
  pose proof (sum_list_with_insert past_listener _ j pc pc1 Hj) as El.
  pose proof (sum_list_with_pointwise _ _ _ j pc past_listener_le Hj) as Hle.
  assert (Hret : pc1 ≠ SReturned →
                 SReturned ∈ <[j := pc1]> (stops (w_fwd w)) →
                 quiescent (w_fwd w)).
  { intros Hne Hin.
    destruct (elem_of_insert_stop _ _ _ _ _ Hj Hin) as [?|?]; [done|].
    by apply S4. }
  unfold stop_step in Hs. destruct pc; simpl in *.
  - destruct (done_closed (px (w_fwd w))) eqn:Ed0; simplify_eq/=.
    split; simpl; try lia; try done.
    intros Hin. exact (Hret ltac:(done) Hin).
  - destruct C as [_ _ _ _ [l Hl]]. rewrite Hl in Hs.
    specialize (S3 l Hl). unfold listener_Close in Hs.
    destruct (done_closed (px (w_fwd w))) eqn:Ed0;
      destruct (l_closed l) eqn:Ecl; simplify_eq/=;
      try (destruct S3; lia); try lia.
    split; simpl; rewrite ?Ed0; try lia.
    + intros l' E. injection E as <-. simpl. split; [lia|].
      intros [_ Hn]%elem_of_difference. apply Hn. by apply elem_of_singleton.
    + intros Hin. exact (Hret ltac:(done) Hin).
  - case_bool_decide; simplify_eq/=.
    split; simpl; try lia; try done.
    intros _. exact (counted_wg_0 _ C H).
  - done.
Qed.

(** A step that touches neither [Stop]'s calls, nor [done], nor the
    listener keeps [stop_ok], provided it keeps a quiescent Forwarder
    quiescent. *)
Lemma stop_ok_frame w w' :
  stops (w_fwd w') = stops (w_fwd w) →
  lcloses (w_fwd w') = lcloses (w_fwd w) →
  done_closed (px (w_fwd w')) = done_closed (px (w_fwd w)) →
  listener (px (w_fwd w')) = listener (px (w_fwd w)) →
  bound (w_os w') = bound (w_os w) →
  (quiescent (w_fwd w) → quiescent (w_fwd w')) →
  stop_ok w → stop_ok w'.
Proof.
  intros E1 E2 E3 E4 E5 Hq [S1 S2 S3 S4].
  split; rewrite ?E1, ?E2, ?E3, ?E4, ?E5; auto.
Qed.

Lemma acceptor_step_frame env f f' :
  acceptor_step env f = Ok f' →
  stops f' = stops f ∧ lcloses f' = lcloses f
  ∧ done_closed (px f') = done_closed (px f)
  ∧ listener (px f') = listener (px f)
  ∧ panicked f' = panicked f ∧ acceptor f ≠ AExited
  ∧ LocalPort (px f') = LocalPort (px f)
  ∧ RemoteAddr (px f') = RemoteAddr (px f)
  ∧ connSem_cap (px f') = connSem_cap (px f).
Proof.
  unfold acceptor_step. intros H.
  destruct (acceptor f) eqn:Ea; repeat case_match; by simplify_eq/=.
Qed.

Lemma handler_step_frame now dial p h p' h' :
  handler_step now dial p h = Ok (p', h') →
  done_closed p' = done_closed p ∧ listener p' = listener p
  ∧ LocalPort p' = LocalPort p ∧ connSem_cap p' = connSem_cap p
  ∧ hpc h ≠ HExited ∧ RemoteAddr p' = RemoteAddr p.
Proof.
  unfold handler_step. intros H.
  destruct (hpc h) eqn:Eh; repeat case_match; by simplify_eq/=.
Qed.

Lemma stop_ok_exec a w w' :
  exec a w = Some w' → counted (w_fwd w) → stop_ok w → stop_ok w'.
Proof.
  unfold exec. intros H C S.
  destruct (panicked (w_fwd w)); [done|]. destruct a.
  - destruct (acceptor_step env (w_fwd w)) as [|f'|] eqn:E; simplify_eq/=;
      [|by destruct S].
    apply acceptor_step_frame in E as (E1 & E2 & E3 & E4 & _ & Hrun & _).
    eapply stop_ok_frame; [..|exact S]; try done.
    by intros [? _].
  - destruct (handlers (w_fwd w) !! i) as [h|] eqn:Hi; simplify_eq/=.
    destruct (handler_step _ _ _ h) as [|[p' h']|] eqn:E; simplify_eq/=;
      [|by destruct S].
    apply handler_step_frame in E as (E1 & E2 & _ & _ & Hrun & _).
    eapply stop_ok_frame; [..|exact S]; try done.
    intros [_ Hall]. by pose proof (Forall_lookup_1 _ _ _ _ Hall Hi).
  - apply on_handler_inv in H as (h & h' & Hi & Hk & ->).
    eapply stop_ok_frame; [..|exact S]; try done. simpl.
    intros Hq. eapply quiescent_same_pc; eauto using relay_step_hpc.
  - simplify_eq/=. destruct S as [S1 S2 S3 S4].
    split; simpl; rewrite ?sum_list_with_app; simpl; try lia; try done.
    intros [Hin | Hin%list_elem_of_singleton]%elem_of_app; [eauto | done].
  - destruct (stops (w_fwd w) !! j) as [pc|] eqn:Hj; simplify_eq/=.
    destruct (stop_step w pc) as [|[w1 pc1]|] eqn:E; simplify_eq/=.
    + eapply stop_ok_stop_step; eauto.
    + by destruct S.
  - case_match; simplify_eq/=. by destruct S.
  - apply on_handler_inv in H as (h & h' & Hi & Hk & ->).
    destruct (peer_conn s h) as [c|] eqn:Hc; simplify_eq/=.
    destruct (conn_peer_send bs c) as [c'|] eqn:Hs; simplify_eq/=.
    eapply stop_ok_frame; [..|exact S]; try done. simpl.
    intros Hq. eapply quiescent_same_pc; eauto using peer_set_conn_hpc.
  - apply on_handler_inv in H as (h & h' & Hi & Hk & ->).
    destruct (peer_conn s h) as [c|] eqn:Hc; simplify_eq/=.
    eapply stop_ok_frame; [..|exact S]; try done. simpl.
    intros Hq. eapply quiescent_same_pc; eauto using peer_set_conn_hpc.
  - apply on_handler_inv in H as (h & h' & Hi & Hk & ->).
    destruct (peer_conn s h) as [c|] eqn:Hc; simplify_eq/=.
    eapply stop_ok_frame; [..|exact S]; try done. simpl.
    intros Hq. eapply quiescent_same_pc; eauto using peer_set_conn_hpc.
Qed.

(** ** What never changes, and the dial timeout *)

Lemma config_exec a w w' : exec a w = Some w' → config w' = config w.
Proof.
  unfold exec, config. intros H.
  destruct (panicked (w_fwd w)); [done|]. destruct a.
  - destruct (acceptor_step env (w_fwd w)) as [|f'|] eqn:E; simplify_eq/=;
      [|done].
    apply acceptor_step_frame in E as (_ & _ & _ & -> & _ & _ & -> & -> & ->).
    done.
  - destruct (handlers (w_fwd w) !! i) as [h|] eqn:Hi; simplify_eq/=.
    destruct (handler_step _ _ _ h) as [|[p' h']|] eqn:E; simplify_eq/=;
      [|done].
    apply handler_step_frame in E as (_ & -> & -> & -> & _ & ->). done.
  - by apply on_handler_inv in H as (h & h' & Hi & Hk & ->).
  - by simplify_eq/=.
  - destruct (stops (w_fwd w) !! j) as [pc|] eqn:Hj; simplify_eq/=.
    destruct (stop_step w pc) as [|[w1 pc1]|] eqn:E; simplify_eq/=; [|done].
    unfold stop_step, listener_Close in E.
    destruct pc; simplify_eq/=.
    + destruct (done_closed _); by simplify_eq/=.
    + destruct (listener (px (w_fwd w))) as [l|] eqn:El; simplify_eq/=;
        [|by rewrite El].
      destruct (l_closed l); by simplify_eq/=.
    + case_bool_decide; by simplify_eq/=.
  - case_match; by simplify_eq/=.
  - by apply on_handler_inv in H as (h & h' & Hi & Hk & ->).
  - by apply on_handler_inv in H as (h & h' & Hi & Hk & ->).
  - by apply on_handler_inv in H as (h & h' & Hi & Hk & ->).
Qed.

Lemma dial_timed_same_pc w i h h' :
  handlers (w_fwd w) !! i = Some h → hpc h' = hpc h → dial_timed w →
  dial_timed (mkWorld (w_os w)
                (f_set_handlers (w_fwd w) (<[i := h']> (handlers (w_fwd w))))).
Proof.
  unfold dial_timed. intros Hi Hpc Hall. simpl.
  apply Forall_insert; [done|]. rewrite Hpc.
  eapply (Forall_lookup_1 _ _ _ _ Hall Hi).
Qed.

Lemma dial_timed_exec a w w' : exec a w = Some w' → dial_timed w → dial_timed w'.
Proof.
  unfold exec. intros H D.
  destruct (panicked (w_fwd w)); [done|]. destruct a.
  - destruct (acceptor_step env (w_fwd w)) as [|f'|] eqn:E; simplify_eq/=;
      [|done].
    unfold acceptor_step in E. unfold dial_timed in *.
    repeat case_match; simplify_eq/=; try done.
    apply Forall_app. split; [done|]. by apply Forall_singleton.
  - destruct (handlers (w_fwd w) !! i) as [h|] eqn:Hi; simplify_eq/=.
    destruct (handler_step _ _ _ h) as [|[p' h']|] eqn:E; simplify_eq/=;
      [|done].
    unfold dial_timed in *. simpl. apply Forall_insert; [done|].
    unfold handler_step in E.
    destruct (hpc h); repeat case_match; simplify_eq/=;
      intros t0 Ht; simplify_eq/=. unfold DialTimeout, Second. lia.
  - apply on_handler_inv in H as (h & h' & Hi & Hk & ->).
    eapply dial_timed_same_pc; eauto using relay_step_hpc.
  - by simplify_eq/=.
  - destruct (stops (w_fwd w) !! j) as [pc|] eqn:Hj; simplify_eq/=.
    unfold stop_step, listener_Close in H. unfold dial_timed in *.
    repeat case_match; by simplify_eq/=.
  - case_match; simplify_eq/=. tests. unfold dial_timed in *. simpl.
    match goal with Hf : forallb _ _ = true |- _ =>
      rewrite forallb_forall in Hf; rename Hf into Hall end.
    apply Forall_forall. intros h Hin t0 Ht.
    pose proof (proj1 (Forall_forall _ _) D h Hin t0 Ht) as Hold.
    apply list_elem_of_In in Hin. specialize (Hall h Hin).
    unfold dial_allows in Hall. rewrite Ht in Hall. tests. lia.
  - apply on_handler_inv in H as (h & h' & Hi & Hk & ->).
    destruct (peer_conn s h) as [c|] eqn:Hc; simplify_eq/=.
    destruct (conn_peer_send bs c) as [c'|] eqn:Hs; simplify_eq/=.
    eapply dial_timed_same_pc; eauto using peer_set_conn_hpc.
  - apply on_handler_inv in H as (h & h' & Hi & Hk & ->).
    destruct (peer_conn s h) as [c|] eqn:Hc; simplify_eq/=.
    eapply dial_timed_same_pc; eauto using peer_set_conn_hpc.
  - apply on_handler_inv in H as (h & h' & Hi & Hk & ->).
    destruct (peer_conn s h) as [c|] eqn:Hc; simplify_eq/=.
    eapply dial_timed_same_pc; eauto using peer_set_conn_hpc.
Qed.

(** ** Every reachable state satisfies the invariants *)

Lemma invariant_exec a w w' : exec a w = Some w' → invariant w → invariant w'.
Proof.
  intros H [I1 I2 I3 I4 I5].
  split; eauto using counted_exec, handlers_ok_exec, all_transparent_exec,
    stop_ok_exec, dial_timed_exec.
Qed.

Lemma net_Listen_ok o port l o' :
  net_Listen o port = inr (l, o') →
  l_closed l = false ∧ (l_port l ∉ bound o)
  ∧ o' = os_set_bound o ({[l_port l]} ∪ bound o)
  ∧ (port ≠ 0 → l_port l = port ∧ 0 < port ≤ 65535
                ∧ (port < 1024 → privileged o = true)).
Proof.
  unfold net_Listen. intros H.
  repeat case_bool_decide; simplify_eq/=.
  - destruct (pick_ephemeral o) as [p0|] eqn:E; simplify_eq/=.
    repeat split; try done. by eapply pick_ephemeral_free.
  - destruct (privileged o) eqn:Ep; simplify_eq/=.
  - destruct (privileged o) eqn:Ep; simplify_eq/=. repeat split; try done; lia.
  - repeat split; try done; lia.
Qed.

Lemma started_inv o p w0 :
  started o p w0 →
  ∃ l, net_Listen o (LocalPort p) = inr (l, w_os w0)
       ∧ w_fwd w0 = running p l.
Proof.
  intros [_ HS]. unfold Start in HS.
  destruct (net_Listen o (LocalPort p)) as [e|[l o']] eqn:E; simplify_eq/=.
  eauto.
Qed.

Lemma invariant_started o p w0 : started o p w0 → invariant w0.
Proof.
  intros Hst. pose proof Hst as [(F1 & F2 & F3 & F4) _].
  destruct (started_inv _ _ _ Hst) as (l & Hl & Hf).
  apply net_Listen_ok in Hl as (Hc & _ & _ & _).
  split; unfold handlers_ok, dial_timed; rewrite ?Hf.
  - split; simpl; rewrite ?F3, ?F4; try done; try lia.
  - done.
  - split; simpl; try done.
  - split; rewrite ?Hf; simpl; rewrite ?F2; try done.
    + intros ? ?. simplify_eq/=. by rewrite Hc.
    + by intros ?%elem_of_nil.
  - simpl. done.
Qed.

Lemma invariant_reachable w : reachable w → invariant w.
Proof.
  intros (o & p & w0 & tr & Hst & Hr).
  eapply (run_invariant invariant); eauto using invariant_exec, invariant_started.
Qed.

Lemma config_reachable o p w0 tr w :
  started o p w0 → run tr w0 = Some w → config w = config w0.
Proof.
  intros _ Hr.
  eapply (run_invariant (λ w, config w = config w0)); [|exact Hr|done].
  intros a w1 w2 He Hc. rewrite <- Hc. by eapply config_exec.
Qed.


(** * The claims about a running Forwarder *)

(** ** The scenarios are reachable *)

Lemma w_8000_started : started os_free px_8000 w_8000.
Proof. split; [done|]. vm_compute. reflexivity. Qed.

Lemma reachable_run tr w : run tr w_8000 = Some w → reachable w.
Proof.
  intros H. exists os_free, px_8000, w_8000, tr.
  split; [apply w_8000_started | done].
Qed.

Lemma w_echo_run : run tr_echo w_8000 = Some w_echo.
Proof. vm_compute. reflexivity. Qed.

(** ** Claim C1 *)

Lemma w_echo_busy_run : run tr_echo_busy w_8000 = Some w_echo_busy.
Proof. vm_compute. reflexivity. Qed.

(** C1.  A run on which the client does not read back what it wrote.  A
    client of an echo backend writes "ping" 12 s, 24 s and 36 s after it
    was accepted: twelve bytes, no silence longer than twelve seconds.  The
    backend echoes all it receives.  The client reads back the first eight
    bytes only: the read of the third "ping" fails on the deadline that
    line 97 set once, 30 s after the accept, the copy ends, and the handler
    closes the connection.  The last four bytes never reach the backend. *)
Theorem round_trip_cut_by_deadline :
  reachable w_echo_busy
  ∧ clock (w_os w_echo_busy) = 36 * Second
  ∧ ∃ h r, handlers (w_fwd w_echo_busy) = [h] ∧ remote h = Some r
           ∧ peer_sent (local h) = ping ++ ping ++ ping
           ∧ tx r = ping ++ ping
           ∧ peer_sent r = tx r
           ∧ tx (local h) = ping ++ ping
           ∧ tx (local h) ≠ peer_sent (local h)
           ∧ up h = RExited (CopyFail ErrTimeout)
           ∧ hpc h = HExited
           ∧ closed (local h) = true ∧ closed r = true.
Proof.
  split; [exact (reachable_run _ _ w_echo_busy_run)|].
  split; [by vm_compute|].
  eexists _, _. split; [vm_compute; reflexivity|].
  split; [reflexivity|]. by vm_compute.
Qed.

(** ** The relay changes no byte *)

Lemma dir_ok_prefix pc src dst : dir_ok pc src dst → tx dst `prefix_of` peer_sent src.
Proof.
  unfold dir_ok. destruct pc; try (by intros [? _]); intros ->; by eexists.
Qed.

Lemma dir_ok_complete pc src dst :
  dir_ok pc src dst → copy_result pc = Some CopyOk → tx dst = peer_sent src.
Proof.
  unfold dir_ok. destruct pc; simpl; intros H E; simplify_eq/=;
    by destruct H as [_ [? _]].
Qed.

(** A run that delivers any [B]. *)

Lemma admit_session :
  run (tr_admit 0) w_8000
  = Some (session px_admitted
            (relaying_at (conn_at [] [] [] false) (conn_at [] [] [] false)
                         RRead RRead)).
Proof. vm_compute. reflexivity. Qed.

Lemma run_session_relay p d ns h h' :
  relay_steps d ns h = Some h' →
  run (Relay 0 d <$> ns) (session p h) = Some (session p h').
Proof.
  revert h. induction ns as [|n ns IH]; intros h H; simplify_eq/=; [done|].
  destruct (relay_step 0 d n h) as [h1|] eqn:E; simplify_eq/=.
  assert (Hx : exec (Relay 0 d n) (session p h) = Some (session p h1)).
  { unfold exec, on_handler. simpl.
    change (clock (w_os w_8000)) with 0. by rewrite E. }
  rewrite Hx. simpl. by apply IH.
Qed.

Lemma pump_up bs ps pre eof r_ps r_rx r_eof dn :
  relay_steps Up (pump bs)
    (relaying_at (conn_at ps bs [] eof) (conn_at r_ps r_rx pre r_eof) RRead dn)
  = Some (relaying_at (conn_at ps [] [] eof) (conn_at r_ps r_rx (pre ++ bs) r_eof)
                      RRead dn).
Proof.
  revert pre. induction bs as [|b bs IH]; intros pre.
  - simpl. by rewrite app_nil_r.
  - change (relay_steps Up (pump (b :: bs)) ?h)
      with (h1 ← relay_step 0 Up 1 h;
            h2 ← relay_step 0 Up 0 h1; relay_steps Up (pump bs) h2).
    change (relay_step 0 Up 1
              (relaying_at (conn_at ps (b :: bs) [] eof)
                           (conn_at r_ps r_rx pre r_eof) RRead dn))
      with (Some (relaying_at (conn_at ps bs [] eof)
                              (conn_at r_ps r_rx pre r_eof) (RWrite [b]) dn)).
    change (Some ?x ≫= ?f) with (f x). cbv beta.
    change (relay_step 0 Up 0
              (relaying_at (conn_at ps bs [] eof)
                           (conn_at r_ps r_rx pre r_eof) (RWrite [b]) dn))
      with (Some (relaying_at (conn_at ps bs [] eof)
                              (conn_at r_ps r_rx (pre ++ [b]) r_eof) RRead dn)).
    change (Some ?x ≫= ?f) with (f x). cbv beta.
    rewrite IH. by rewrite <- app_assoc.
Qed.

Lemma pump_down bs ps pre eof l_ps l_rx l_eof u t :
  relay_steps Down (pump bs)
    (relaying_at (conn_at l_ps l_rx pre l_eof) (conn_at ps bs t eof) u RRead)
  = Some (relaying_at (conn_at l_ps l_rx (pre ++ bs) l_eof) (conn_at ps [] t eof)
                      u RRead).
Proof.
  revert pre. induction bs as [|b bs IH]; intros pre.
  - simpl. by rewrite app_nil_r.
  - change (relay_steps Down (pump (b :: bs)) ?h)
      with (h1 ← relay_step 0 Down 1 h;
            h2 ← relay_step 0 Down 0 h1; relay_steps Down (pump bs) h2).
    change (relay_step 0 Down 1
              (relaying_at (conn_at l_ps l_rx pre l_eof)
                           (conn_at ps (b :: bs) t eof) u RRead))
      with (Some (relaying_at (conn_at l_ps l_rx pre l_eof)
                              (conn_at ps bs t eof) u (RWrite [b]))).
    change (Some ?x ≫= ?f) with (f x). cbv beta.
    change (relay_step 0 Down 0
              (relaying_at (conn_at l_ps l_rx pre l_eof)
                           (conn_at ps bs t eof) u (RWrite [b])))
      with (Some (relaying_at (conn_at l_ps l_rx (pre ++ [b]) l_eof)
                              (conn_at ps bs t eof) u RRead)).
    change (Some ?x ≫= ?f) with (f x). cbv beta.
    rewrite IH. by rewrite <- app_assoc.
Qed.

Lemma run_echo_all B : run (tr_echo_all B) w_8000 = Some (w_echoed B).
Proof.
  unfold tr_echo_all.
  rewrite run_app, admit_session.
  change (Some ?x ≫= ?f) with (f x). cbv beta.
  rewrite run_app.
  change (run [PeerSend Client 0 B] _)
    with (Some (session px_admitted
                  (relaying_at (conn_at B B [] false) (conn_at [] [] [] false)
                               RRead RRead))).
  change (Some ?x ≫= ?f) with (f x). cbv beta.
  rewrite run_app.
  rewrite (run_session_relay _ _ _ _ _ (pump_up B B [] false [] [] false RRead)).
  change (Some ?x ≫= ?f) with (f x). cbv beta.
  rewrite run_app.
  change (run [PeerSend Backend 0 B] _)
    with (Some (session px_admitted
                  (relaying_at (conn_at B [] [] false) (conn_at B B B false)
                               RRead RRead))).
  change (Some ?x ≫= ?f) with (f x). cbv beta.
  rewrite run_app.
  rewrite (run_session_relay _ _ _ _ _ (pump_down B B [] false B [] false RRead B)).
  change (Some ?x ≫= ?f) with (f x). cbv beta.
  reflexivity.
Qed.

(** X30. (1) In every reachable state and for every connection the
    Forwarder relays: what was written to the backend is a prefix of what
    the client sent, and what was written to the client is a prefix of what
    the backend sent (no byte is changed, added or reordered); nothing is
    written to a client whose dial has not succeeded.  With an echo backend
    the client has read back a prefix of its own bytes [B], and all of [B]
    once both copies ended on end-of-stream and the backend echoed all it
    received.  (2) For every byte sequence [B], of any length, the run
    [tr_echo_all B] of a started Forwarder exists and ends with exactly [B]
    written back to the client that sent [B]. *)
Theorem relay_round_trip :
  (∀ (w : World) (i : nat) (h : Handler),
     reachable w → handlers (w_fwd w) !! i = Some h →
     (remote h = None → tx (local h) = [])
     ∧ (∀ r, remote h = Some r →
             tx r `prefix_of` peer_sent (local h)
             ∧ tx (local h) `prefix_of` peer_sent r)
     ∧ (echo_backend h → tx (local h) `prefix_of` peer_sent (local h))
     ∧ (∀ r, remote h = Some r →
             copy_result (up h) = Some CopyOk →
             copy_result (down h) = Some CopyOk →
             peer_sent r = tx r →
             tx (local h) = peer_sent (local h)))
  ∧ (∀ B : list byte,
       ∃ w h, run (tr_echo_all B) w_8000 = Some w
              ∧ handlers (w_fwd w) = [h]
              ∧ peer_sent (local h) = B
              ∧ (tx <$> remote h) = Some B
              ∧ (peer_sent <$> remote h) = Some B
              ∧ tx (local h) = B).
Proof.
  split.
  - intros w i h Hr Hi. apply invariant_reachable in Hr as [_ _ [T _ _] _ _].
    pose proof (Forall_lookup_1 _ _ _ _ T Hi) as Ht. unfold transparent in Ht.
    destruct (remote h) as [r|] eqn:Er.
    + destruct Ht as [Hu Hd].
      pose proof (dir_ok_prefix _ _ _ Hu) as Pu.
      pose proof (dir_ok_prefix _ _ _ Hd) as Pd.
      split; [done|]. split; [|split].
      * intros ? [= <-]. done.
      * intros He. specialize (He r Er).
        etrans; [exact Pd|]. etrans; [exact He|]. exact Pu.
      * intros ? [= <-] Cu Cd Hecho.
        rewrite (dir_ok_complete _ _ _ Hd Cd), Hecho.
        apply (dir_ok_complete _ _ _ Hu Cu).
    + destruct Ht as [Htx _]. split; [done|]. split; [done|].
      split; [|done]. intros _. rewrite Htx. apply prefix_nil.
  - intros B. eexists _, _. split; [apply run_echo_all|]. done.
Qed.

Lemma relay_round_trip_witness :
  ∃ h, handlers (w_fwd w_echo) !! 0%nat = Some h
       ∧ peer_sent (local h) = ping ∧ tx (local h) = peer_sent (local h).
Proof.
  pose proof (reachable_run _ _ w_echo_run) as Hr.
  destruct (handlers (w_fwd w_echo) !! 0%nat) as [h|] eqn:Hi;
    [|vm_compute in Hi; discriminate].
  exists h. split; [done|].
  destruct (proj1 relay_round_trip w_echo 0%nat h Hr Hi) as (_ & _ & _ & Hall).
  assert (E : Some h = handlers (w_fwd w_echo) !! 0%nat) by done.
  vm_compute in E. injection E as ->.
  split; [reflexivity|].
  eapply Hall; reflexivity.
Defined.

(** ** Claim C2 *)

Lemma relaying_holds_slot h : handler_ok h → (relaying h ≤ holds_slot h)%nat.
Proof.
  unfold handler_ok, relaying, holds_slot.
  destruct (hpc h); intros H; try (repeat case_match; lia);
    destruct H as [(_ & -> & ->) | (_ & Fu & Fd)]; try done;
    destruct (up h); try done; destruct (down h); done.
Qed.

Lemma sum_list_with_le {A} (g1 g2 : A → nat) (l : list A) :
  Forall (λ x, g1 x ≤ g2 x)%nat l →
  (sum_list_with g1 l ≤ sum_list_with g2 l)%nat.
Proof. induction 1; simpl; lia. Qed.

Lemma w_101_run : run tr_101 w_8000 = Some w_101.
Proof. vm_compute. reflexivity. Qed.

(** C2, as stated, fails: the handlers that have not returned can outnumber
    [MaxConnectionsPerProxy].  On a Proxy made by [New], 101 of them are
    alive in [w_101]: the first released its slot (line 92) and has not yet
    executed [p.wg.Done()] (line 93). *)
Lemma running_handlers_exceed_cap :
  ¬ (∀ o port host rport w,
       reachable_from o (New port host rport) w →
       (sum_list_with live (handlers (w_fwd w)) ≤ MaxConnectionsPerProxy)%nat).
Proof.
  intros H.
  specialize (H os_free 8000 "10.0.3.7"%string 8000 w_101).
  assert (Hr : reachable_from os_free (New 8000 "10.0.3.7" 8000) w_101).
  { exists w_8000, tr_101. split; [apply w_8000_started | apply w_101_run]. }
  specialize (H Hr). vm_compute in H. lia.
Qed.

Lemma cap_reachable o p w :
  reachable_from o p w →
  connSem_cap (px (w_fwd w)) = connSem_cap p ∧ LocalPort (px (w_fwd w)) = LocalPort p.
Proof.
  intros (w0 & tr & Hst & Hr).
  pose proof (config_reachable _ _ _ _ _ Hst Hr) as Hc.
  destruct (started_inv _ _ _ Hst) as (l & _ & Hf).
  unfold config in Hc. rewrite Hf in Hc. simpl in Hc. by simplify_eq.
Qed.

(** C2, amended.  On a Proxy made by [New], in every reachable state: at
    most 100 handlers hold a gate slot, so at most 100 connections have a
    relay goroutine running; the [select] on [connSem] never blocks; when
    the gate is full it takes no slot, spawns no handler, and the next
    statement closes the connection; and every connection rejected this way
    is closed with nothing written to it and nothing read from it. *)
Theorem admission_bound (o : OS) (port : Z) (host : string) (rport : Z) (w : World) :
  reachable_from o (New port host rport) w →
  (sum_list_with holds_slot (handlers (w_fwd w)) ≤ MaxConnectionsPerProxy)%nat
  ∧ (sum_list_with relaying (handlers (w_fwd w)) ≤ MaxConnectionsPerProxy)%nat
  ∧ (∀ c env, acceptor (w_fwd w) = AAcquire c → panicked (w_fwd w) = false →
       is_Some (exec (Acceptor env) w))
  ∧ (∀ c env env', acceptor (w_fwd w) = AAcquire c → panicked (w_fwd w) = false →
       connSem (px (w_fwd w)) = MaxConnectionsPerProxy →
       exec (Acceptor env) w
         = Some (mkWorld (w_os w) (f_set_acceptor (w_fwd w) (AReject c)))
       ∧ run [Acceptor env; Acceptor env'] w
         = Some (mkWorld (w_os w)
                   (f_set_acceptor
                      (f_set_rejected (w_fwd w) (rejected (w_fwd w) ++ [conn_Close c]))
                      AAccept)))
  ∧ Forall (λ c, closed c = true ∧ tx c = [] ∧ rx c = peer_sent c)
           (rejected (w_fwd w)).
Proof.
  intros Hr. destruct (cap_reachable _ _ _ Hr) as [Hcap _]. simpl in Hcap.
  assert (Hinv : invariant w) by (apply invariant_reachable; by do 2 eexists).
  destruct Hinv as [[C1 C2 _ _ _] [Hok _] [_ _ T3] _ _].
  rewrite Hcap in C2.
  assert (Hslots : (sum_list_with holds_slot (handlers (w_fwd w))
                    ≤ MaxConnectionsPerProxy)%nat) by lia.
  split; [done|]. split; [|split; [|split]].
  - etrans; [|exact Hslots]. apply sum_list_with_le.
    eapply Forall_impl; [exact Hok|]. apply relaying_holds_slot.
  - intros c env Ha Hp. unfold exec. rewrite Hp. simpl.
    unfold acceptor_step. rewrite Ha. case_bool_decide; eauto.
  - intros c env env' Ha Hp Hfull.
    assert (E : exec (Acceptor env) w
                = Some (mkWorld (w_os w) (f_set_acceptor (w_fwd w) (AReject c)))).
    { unfold exec. rewrite Hp. simpl. unfold acceptor_step. rewrite Ha.
      rewrite bool_decide_eq_false_2; [done|]. rewrite Hcap, Hfull. lia. }
    split; [done|]. simpl. rewrite E. simpl.
    unfold exec. simpl. by rewrite Hp.
  - eapply Forall_impl; [exact T3|]. by intros c [[? ?] ?].
Qed.

Lemma admission_bound_witness :
  acceptor (w_fwd w_full) = AAcquire (new_conn ping)
  ∧ (sum_list_with holds_slot (handlers (w_fwd w_full)) ≤ MaxConnectionsPerProxy)%nat
  ∧ run [Acceptor None; Acceptor None] w_full
    = Some (mkWorld (w_os w_full)
              (f_set_acceptor
                 (f_set_rejected (w_fwd w_full) [conn_Close (new_conn ping)])
                 AAccept)).
Proof.
  assert (Hr : reachable_from os_free (New 8000 "10.0.3.7" 8000) w_full).
  { exists w_8000, (tr_repeat 100 tr_accept ++ [Acceptor (Some ping)]).
    split; [apply w_8000_started | vm_compute; reflexivity]. }
  destruct (admission_bound _ _ _ _ _ Hr) as (H1 & _ & _ & H4 & _).
  assert (Ha : acceptor (w_fwd w_full) = AAcquire (new_conn ping))
    by (vm_compute; reflexivity).
  split; [exact Ha|]. split; [exact H1|].
  apply (H4 _ None None Ha); vm_compute; reflexivity.
Defined.

(** ** Claim C3 *)

Lemma lcloses_le_1 w : stop_ok w → (lcloses (w_fwd w) ≤ 1)%nat.
Proof.
  intros [S1 S2 _ _]. rewrite S2.
  etrans; [apply (sum_list_with_le past_listener past_done)|].
  - apply Forall_forall. intros pc _. apply past_listener_le.
  - rewrite S1. case_match; lia.
Qed.

Lemma elem_of_sum_ge {A} (g : A → nat) (l : list A) x :
  x ∈ l → (g x ≤ sum_list_with g l)%nat.
Proof.
  intros [i Hi]%list_elem_of_lookup. by eapply sum_list_with_lookup_le.
Qed.

Lemma exited_not_relaying h : handler_ok h → hpc h = HExited → relaying h = 0%nat.
Proof.
  intros Hok Hpc. pose proof (relaying_holds_slot h Hok) as Hle.
  unfold holds_slot in Hle. rewrite Hpc in Hle. lia.
Qed.

(** C3. For a Forwarder whose bind succeeded, in every reachable state:
    [listener.Close] ran at most once, and exactly as often as calls of
    [Stop] got past line 58.  Once a call of [Stop] has returned, it ran
    once, the accept loop has exited, every handler has exited together
    with its relay goroutines, the listener's port is no longer listening,
    and [net.Listen] on the Forwarder's [LocalPort] succeeds. *)
Theorem Stop_releases_and_joins (o : OS) (p : Proxy) (w : World) :
  reachable_from o p w →
  (lcloses (w_fwd w) ≤ 1)%nat
  ∧ lcloses (w_fwd w) = sum_list_with past_listener (stops (w_fwd w))
  ∧ (SReturned ∈ stops (w_fwd w) →
       lcloses (w_fwd w) = 1%nat
       ∧ acceptor (w_fwd w) = AExited
       ∧ Forall (λ h, hpc h = HExited ∧ relaying h = 0%nat) (handlers (w_fwd w))
       ∧ (∃ l, listener (px (w_fwd w)) = Some l ∧ l_closed l = true
               ∧ l_port l ∉ bound (w_os w))
       ∧ (LocalPort p ≠ 0 →
          ∃ l' o', net_Listen (w_os w) (LocalPort p) = inr (l', o'))).
Proof.
  intros Hr. pose proof Hr as (w0 & tr & Hst & Hrun).
  assert (Hinv : invariant w) by (apply invariant_reachable; by do 2 eexists).
  destruct Hinv as [C [Hok _] _ S _].
  pose proof (lcloses_le_1 w S) as Hle.
  pose proof S as [S1 S2 S3 S4].
  split; [done|]. split; [done|]. intros Hret.
  assert (Hone : lcloses (w_fwd w) = 1%nat).
  { pose proof (elem_of_sum_ge past_listener _ _ Hret) as Hge.
    simpl in Hge. lia. }
  destruct (S4 Hret) as [Hacc Hall].
  destruct C as [_ _ _ _ [l Hl]]. specialize (S3 l Hl).
  destruct (l_closed l) eqn:Hcl; [|lia]. destruct S3 as [_ Hfree].
  split; [done|]. split; [done|]. split; [|split].
  - apply Forall_forall. intros h Hin. split.
    + by apply (proj1 (Forall_forall _ _) Hall).
    + apply exited_not_relaying.
      * by apply (proj1 (Forall_forall _ _) Hok).
      * by apply (proj1 (Forall_forall _ _) Hall).
  - eauto.
  - intros Hne.
    pose proof (config_reachable _ _ _ _ _ Hst Hrun) as Hc.
    destruct (started_inv _ _ _ Hst) as (l0 & Hl0 & Hf).
    apply net_Listen_ok in Hl0 as (_ & _ & Ho & Hport).
    destruct (Hport Hne) as (Hp & Hrange & Hpriv).
    unfold config in Hc. rewrite Hf, Hl, Ho in Hc. simpl in Hc.
    injection Hc as HLP _ _ Hpr Hlp. rewrite Hp in Hlp.
    unfold net_Listen.
    rewrite bool_decide_eq_false_2 by lia.
    rewrite (bool_decide_eq_false_2 (LocalPort p = 0)) by done.
    rewrite Hpr.
    assert (E : bool_decide (LocalPort p < 1024) && negb (privileged o) = false).
    { case_bool_decide; [|done]. by rewrite Hpriv. }
    rewrite E. rewrite bool_decide_eq_false_2; [eauto|].
    by rewrite <- Hlp.
Qed.

Lemma w_stopped_run : run (tr_echo ++ tr_stop) w_8000 = Some w_stopped.
Proof. vm_compute. reflexivity. Qed.

Lemma Stop_releases_and_joins_witness :
  lcloses (w_fwd w_stopped) = 1%nat
  ∧ acceptor (w_fwd w_stopped) = AExited
  ∧ ∃ l' o', net_Listen (w_os w_stopped) 8000 = inr (l', o').
Proof.
  assert (Hr : reachable_from os_free px_8000 w_stopped).
  { exists w_8000, (tr_echo ++ tr_stop).
    split; [apply w_8000_started | apply w_stopped_run]. }
  destruct (Stop_releases_and_joins _ _ _ Hr) as (_ & _ & H).
  assert (Hin : SReturned ∈ stops (w_fwd w_stopped)).
  { vm_compute. apply list_elem_of_here. }
  destruct (H Hin) as (H1 & H2 & _ & _ & H5).
  split; [exact H1|]. split; [exact H2|]. apply H5. vm_compute. discriminate.
Defined.

(** ** Claim C9 *)

(** C9. In every reachable state in which a call of [Stop] has executed
    [close(p.done)], a further call of [Stop] panics at its first
    statement: the process is gone, no goroutine makes another step. *)
Theorem Stop_twice_panics (w : World) (j : nat) (pc : StopPc) :
  reachable w → panicked (w_fwd w) = false →
  stops (w_fwd w) !! j = Some pc → pc ≠ SCloseDone →
  done_closed (px (w_fwd w)) = true
  ∧ ∃ w', run [CallStop; StopAct (length (stops (w_fwd w)))] w = Some w'
          ∧ panicked (w_fwd w') = true
          ∧ ∀ a, exec a w' = None.
Proof.
  intros Hr Hp Hj Hne.
  apply invariant_reachable in Hr as [_ _ _ [S1 _ _ _] _].
  assert (Hd : done_closed (px (w_fwd w)) = true).
  { pose proof (sum_list_with_lookup_le past_done _ _ _ Hj) as Hge.
    destruct (done_closed (px (w_fwd w))); [done|].
    destruct pc; simpl in Hge; done || lia. }
  split; [done|].
  eexists. split; [|split].
  - simpl. unfold exec at 2. rewrite Hp. simpl.
    unfold exec. simpl. rewrite Hp.
    rewrite lookup_app_r by lia. rewrite Nat.sub_diag. simpl.
    rewrite Hd. reflexivity.
  - done.
  - intros a. unfold exec. done.
Qed.

Lemma Stop_twice_panics_witness :
  ∃ w', run [CallStop; StopAct 1] w_stopped = Some w'
        ∧ panicked (w_fwd w') = true.
Proof.
  assert (Hr : reachable w_stopped).
  { apply (reachable_run (tr_echo ++ tr_stop)). apply w_stopped_run. }
  destruct (Stop_twice_panics w_stopped 0 SReturned Hr) as (_ & w' & H1 & H2 & _).
  - vm_compute; reflexivity.
  - vm_compute; reflexivity.
  - discriminate.
  - exists w'. split; [exact H1 | exact H2].
Defined.

(** ** Claim C8 *)

(** C8. Whenever [Accept] returns an error, the accept loop runs the
    [select] on [done]; from there it leaves the loop exactly when [done]
    is closed at that moment and otherwise is back at [Accept], and nothing
    else of the Forwarder changes.  The loop is never left any other way. *)
Theorem accept_error_policy (w : World) :
  panicked (w_fwd w) = false → acceptor (w_fwd w) = AAccept →
  is_Some (listener (px (w_fwd w))) →
  exec (Acceptor None) w = Some (mkWorld (w_os w) (f_set_acceptor (w_fwd w) AErr))
  ∧ (∀ env,
       exec (Acceptor env) (mkWorld (w_os w) (f_set_acceptor (w_fwd w) AErr))
       = Some (mkWorld (w_os w)
                 (f_set_acceptor (w_fwd w)
                    (if done_closed (px (w_fwd w)) then ADeferDone else AAccept))))
  ∧ (∀ a v v', exec a v = Some v' →
       acceptor (w_fwd v') = ADeferDone → acceptor (w_fwd v) ≠ ADeferDone →
       acceptor (w_fwd v) = AErr ∧ done_closed (px (w_fwd v)) = true).
Proof.
  intros Hp Ha [l Hl]. split; [|split].
  - unfold exec. rewrite Hp. simpl. unfold acceptor_step. by rewrite Ha, Hl.
  - intros env. unfold exec. simpl. rewrite Hp. unfold acceptor_step. simpl.
    by destruct (done_closed (px (w_fwd w))).
  - clear. intros a v v' He Hd Hn. unfold exec in He.
    destruct (panicked (w_fwd v)); [done|]. destruct a.
    + destruct (acceptor_step env (w_fwd v)) as [|f'|] eqn:E; simplify_eq/=;
        try done.
      unfold acceptor_step in E.
      destruct (acceptor (w_fwd v)) eqn:Ea; repeat case_match; simplify_eq/=;
        done.
    + destruct (handlers (w_fwd v) !! i) as [h|]; simplify_eq/=.
      destruct (handler_step _ _ _ h) as [|[p' h']|]; simplify_eq/=; done.
    + by apply on_handler_inv in He as (h & h' & Hi & Hk & ->).
    + by simplify_eq/=.
    + destruct (stops (w_fwd v) !! j) as [pc|]; simplify_eq/=.
      destruct (stop_step v pc) as [|[w1 pc1]|] eqn:E; simplify_eq/=;
        try done.
      unfold stop_step, listener_Close in E.
      repeat case_match; simplify_eq/=; done.
    + case_match; by simplify_eq/=.
    + by apply on_handler_inv in He as (h & h' & Hi & Hk & ->).
    + by apply on_handler_inv in He as (h & h' & Hi & Hk & ->).
    + by apply on_handler_inv in He as (h & h' & Hi & Hk & ->).
Qed.

Lemma accept_error_policy_witness :
  run [Acceptor None; Acceptor None] w_8000 = Some w_8000.
Proof.
  destruct (accept_error_policy w_8000) as (H1 & H2 & _).
  - reflexivity.
  - reflexivity.
  - by eexists.
  - simpl. rewrite H1. simpl. rewrite (H2 None). reflexivity.
Defined.

(** ** Claim C5 *)











(** ** Claim C7 *)

Lemma exec_handler w i h dial p' h' :
  panicked (w_fwd w) = false → handlers (w_fwd w) !! i = Some h →
  handler_step (clock (w_os w)) dial (px (w_fwd w)) h = Ok (p', h') →
  exec (HandlerAct i dial) w
  = Some (mkWorld (w_os w)
            (f_set_handlers (f_set_px (w_fwd w) p') (<[i := h']> (handlers (w_fwd w))))).
Proof.
  intros Hp Hi Hs. unfold exec. rewrite Hp. simpl. rewrite Hi. simpl.
  by rewrite Hs.
Qed.









(** ** Claim C4 *)

Lemma relay_body_deadline now n pc src dst k pc' src' dst' k' :
  relay_body now n pc src dst k = Some (pc', src', dst', k') →
  deadline src' = deadline src ∧ deadline dst' = deadline dst.
Proof.
  unfold relay_body. intros H.
  destruct pc; repeat case_match; simplify_eq/=; io_facts; simpl;
    try done.
  unfold conn_CloseWrite. by case_match.
Qed.

Lemma relay_step_deadline now d n h h' :
  relay_step now d n h = Some h' → deadline (local h') = deadline (local h).
Proof.
  intros H. apply relay_step_inv in H as (src & dst & pc' & src' & dst' & k' &
                                          Hs & Hd & Hb & ->).
  apply relay_body_deadline in Hb as [D1 D2].
  destruct d; simpl in *; by simplify_eq/=.
Qed.

Lemma peer_step_deadline s h c c' :
  peer_conn s h = Some c → deadline c' = deadline c →
  deadline (local (peer_set_conn s h c')) = deadline (local h).
Proof. destruct s; simpl; intros; by simplify_eq/=. Qed.

(** Once line 97 has run, no step of any goroutine or peer changes the
    deadline of the local connection. *)
Lemma deadline_never_extended a w w' i h h' :
  exec a w = Some w' →
  handlers (w_fwd w) !! i = Some h → handlers (w_fwd w') !! i = Some h' →
  hpc h ≠ HSetDeadlineLocal →
  deadline (local h') = deadline (local h).
Proof.
  unfold exec. intros H Hi Hi' Hne.
  destruct (panicked (w_fwd w)); [done|]. destruct a.
  - destruct (acceptor_step env (w_fwd w)) as [|f'|] eqn:E; simplify_eq/=.
    + unfold acceptor_step in E.
      repeat case_match; simplify_eq/=; try congruence.
      rewrite lookup_app_l in Hi' by (by eapply lookup_lt_Some). congruence.
    + congruence.
  - destruct (handlers (w_fwd w) !! i0) as [h0|] eqn:Hi0; simplify_eq/=.
    destruct (handler_step _ _ _ h0) as [|[p' h1]|] eqn:E; simplify_eq/=;
      [|congruence].
    destruct (decide (i0 = i)) as [->|Hd].
    + rewrite list_lookup_insert_eq in Hi' by (by eapply lookup_lt_Some).
      assert (h0 = h) as -> by congruence. assert (h1 = h') as -> by congruence.
      unfold handler_step in E.
      destruct (hpc h) eqn:Hpc; repeat case_match; simplify_eq/=; done.
    + rewrite list_lookup_insert_ne in Hi' by done. congruence.
  - apply on_handler_inv in H as (h0 & h1 & Hi0 & Hk & ->). simpl in Hi'.
    destruct (decide (i0 = i)) as [->|Hd].
    + rewrite list_lookup_insert_eq in Hi' by (by eapply lookup_lt_Some).
      assert (h0 = h) as -> by congruence. assert (h1 = h') as -> by congruence.
      eauto using relay_step_deadline.
    + rewrite list_lookup_insert_ne in Hi' by done. congruence.
  - simplify_eq/=. congruence.
  - destruct (stops (w_fwd w) !! j) as [pc|] eqn:Hj; simplify_eq/=.
    destruct (stop_step w pc) as [|[w1 pc1]|] eqn:E; simplify_eq/=;
      [|congruence].
    unfold stop_step, listener_Close in E.
    repeat case_match; simplify_eq/=; congruence.
  - case_match; simplify_eq/=. congruence.
  - apply on_handler_inv in H as (h0 & h1 & Hi0 & Hk & ->). simpl in Hi'.
    destruct (peer_conn s h0) as [c|] eqn:Hc; simplify_eq/=.
    destruct (conn_peer_send bs c) as [c'|] eqn:Hs; simplify_eq/=.
    destruct (decide (i0 = i)) as [->|Hd].
    + rewrite list_lookup_insert_eq in Hi' by (by eapply lookup_lt_Some).
      assert (h0 = h) as -> by congruence. injection Hi' as <-.
      eapply peer_step_deadline; [done|].
      unfold conn_peer_send in Hs. case_match; by simplify_eq/=.
    + rewrite list_lookup_insert_ne in Hi' by done. congruence.
  - apply on_handler_inv in H as (h0 & h1 & Hi0 & Hk & ->). simpl in Hi'.
    destruct (peer_conn s h0) as [c|] eqn:Hc; simplify_eq/=.
    destruct (decide (i0 = i)) as [->|Hd].
    + rewrite list_lookup_insert_eq in Hi' by (by eapply lookup_lt_Some).
      assert (h0 = h) as -> by congruence. injection Hi' as <-.
      by eapply peer_step_deadline.
    + rewrite list_lookup_insert_ne in Hi' by done. congruence.
  - apply on_handler_inv in H as (h0 & h1 & Hi0 & Hk & ->). simpl in Hi'.
    destruct (peer_conn s h0) as [c|] eqn:Hc; simplify_eq/=.
    destruct (decide (i0 = i)) as [->|Hd].
    + rewrite list_lookup_insert_eq in Hi' by (by eapply lookup_lt_Some).
      assert (h0 = h) as -> by congruence. injection Hi' as <-.
      by eapply peer_step_deadline.
    + rewrite list_lookup_insert_ne in Hi' by done. congruence.
Qed.

(** C4 (what the code does).  The deadline of line 97 is the absolute
    instant "time of line 97 + 30 s" and no step of any goroutine or peer
    ever moves it.  In the run [tr_busy] the client sends four bytes every
    twelve seconds and the relay delivers the first two messages; the read
    of the third, thirty-six seconds after the connection was accepted and
    with no gap above twelve seconds, fails with a timeout and ends the
    copy. *)
Theorem deadline_is_absolute :
  run tr_busy w_8000 = Some w_busy
  ∧ clock (w_os w_busy) = 36 * Second
  ∧ (∃ h, handlers (w_fwd w_busy) !! 0%nat = Some h
          ∧ deadline (local h) = Some ConnectionTimeout
          ∧ up h = RCloseWrite (CopyFail ErrTimeout)
          ∧ (tx <$> remote h) = Some (ping ++ ping)
          ∧ rx (local h) = ping)
  ∧ (∀ a w w' i h h',
       exec a w = Some w' →
       handlers (w_fwd w) !! i = Some h → handlers (w_fwd w') !! i = Some h' →
       hpc h ≠ HSetDeadlineLocal →
       deadline (local h') = deadline (local h)).
Proof.
  split; [vm_compute; reflexivity|]. split; [vm_compute; reflexivity|].
  split.
  - eexists. split; [vm_compute; reflexivity|].
    repeat split; vm_compute; reflexivity.
  - apply deadline_never_extended.
Qed.

(** * Further properties of a running Forwarder *)

(** ** Panics *)

Lemma panic_explained_exec a w w' :
  exec a w = Some w' → counted (w_fwd w) →
  panic_explained (w_fwd w) → panic_explained (w_fwd w').
Proof.
  unfold exec, panic_explained. intros H C P.
  destruct (panicked (w_fwd w)) eqn:Hp; [done|]. clear P. destruct a.
  - destruct (acceptor_step env (w_fwd w)) as [|f'|] eqn:E; simplify_eq/=.
    + apply acceptor_step_frame in E as (_ & _ & _ & _ & E & _). congruence.
    + intros _. destruct C as [_ _ C3 _ [l Hl]].
      unfold acceptor_step in E. rewrite Hl in E.
      destruct (acceptor (w_fwd w)) eqn:Ea; repeat case_match; simplify_eq/=;
        tests; simpl in *; lia.
  - destruct (handlers (w_fwd w) !! i) as [h|] eqn:Hi; simplify_eq/=.
    destruct (handler_step _ _ _ h) as [|[p' h']|] eqn:E; simplify_eq/=;
      [congruence|].
    intros _. destruct C as [_ _ C3 _ _].
    pose proof (sum_list_with_lookup_le live _ _ _ Hi) as Hl.
    unfold handler_step in E.
    destruct (hpc h) eqn:Hpc; repeat case_match; simplify_eq/=; tests.
    unfold live in Hl at 1. rewrite Hpc in Hl. lia.
  - apply on_handler_inv in H as (h & h' & Hi & Hk & ->). simpl. congruence.
  - simplify_eq/=. congruence.
  - destruct (stops (w_fwd w) !! j) as [pc|] eqn:Hj; simplify_eq/=.
    destruct (stop_step w pc) as [|[w1 pc1]|] eqn:E; simplify_eq/=.
    + unfold stop_step, listener_Close in E.
      repeat case_match; simplify_eq/=; congruence.
    + intros _. unfold stop_step in E.
      destruct pc; repeat case_match; simplify_eq/=.
      split; [done|]. eapply list_elem_of_lookup_2; eauto.
  - case_match; simplify_eq/=. congruence.
  - apply on_handler_inv in H as (h & h' & Hi & Hk & ->). simpl. congruence.
  - apply on_handler_inv in H as (h & h' & Hi & Hk & ->). simpl. congruence.
  - apply on_handler_inv in H as (h & h' & Hi & Hk & ->). simpl. congruence.
Qed.

Lemma panic_explained_reachable w : reachable w → panic_explained (w_fwd w).
Proof.
  intros (o & p & w0 & tr & Hst & Hr).
  assert (H : invariant w ∧ panic_explained (w_fwd w)); [|by destruct H].
  eapply (run_invariant (λ w, invariant w ∧ panic_explained (w_fwd w)));
    [|exact Hr|].
  - intros a w1 w2 He [I P]. split; [by eapply invariant_exec|].
    eapply panic_explained_exec; eauto. by destruct I.
  - split; [by eapply invariant_started|].
    destruct (started_inv _ _ _ Hst) as (l & _ & Hf).
    unfold panic_explained. by rewrite Hf.
Qed.

(** X1. A Forwarder on which [Stop] was called at most once has not
    panicked: the WaitGroup counter never goes below zero, the listener is
    never nil when [Accept] is called, and [done] is closed once. *)
Theorem no_panic_without_second_Stop (w : World) :
  reachable w → (length (stops (w_fwd w)) ≤ 1)%nat → panicked (w_fwd w) = false.
Proof.
  intros Hr Hlen. destruct (panicked (w_fwd w)) eqn:Hp; [|done].
  destruct (panic_explained_reachable w Hr Hp) as [Hd Hin].
  apply invariant_reachable in Hr as [_ _ _ [S1 _ _ _] _].
  rewrite Hd in S1.
  destruct (stops (w_fwd w)) as [|pc [|pc' ss]]; simpl in *; try lia.
  apply list_elem_of_singleton in Hin as <-. simpl in S1. lia.
Qed.

Lemma no_panic_without_second_Stop_witness : panicked (w_fwd w_stopped) = false.
Proof.
  apply no_panic_without_second_Stop.
  - apply (reachable_run (tr_echo ++ tr_stop)). apply w_stopped_run.
  - vm_compute. lia.
Defined.

(** ** When [wg.Wait] returns *)

Lemma sum_live_exited hs :
  Forall (λ h, hpc h = HExited) hs → sum_list_with live hs = 0%nat.
Proof.
  induction 1 as [|h hs Hh _ IH]; simpl; [done|].
  unfold live at 1. rewrite Hh. lia.
Qed.

Lemma wg_0_iff_quiescent f : counted f → wg (px f) = 0 ↔ quiescent f.
Proof.
  intros C. split; [by apply counted_wg_0|].
  intros [Ha Hall]. destruct C as [_ _ C3 _ _].
  rewrite C3, Ha, (sum_live_exited _ Hall). done.
Qed.

(** X2. A call of [Stop] that waits at line 60 can return exactly when the
    accept loop and every handler have exited; returning changes nothing
    but the call itself. *)
Theorem Wait_returns_iff_quiescent (w : World) (j : nat) :
  reachable w → panicked (w_fwd w) = false →
  stops (w_fwd w) !! j = Some SWait →
  (is_Some (exec (StopAct j) w) ↔ quiescent (w_fwd w))
  ∧ (∀ w', exec (StopAct j) w = Some w' →
           w' = mkWorld (w_os w)
                  (f_set_stops (w_fwd w) (<[j := SReturned]> (stops (w_fwd w))))).
Proof.
  intros Hr Hp Hj. apply invariant_reachable in Hr as [C _ _ _ _].
  pose proof (wg_0_iff_quiescent _ C) as Hq.
  unfold exec. rewrite Hp. simpl. rewrite Hj. simpl.
  case_bool_decide as Hwg; simpl.
  - split; [|by intros w' [= <-]]. split; [intros _; by apply Hq | by eauto].
  - split; [|done]. split; [by intros [? ?] | intros Hquiet].
    by apply Hq in Hquiet.
Qed.

Lemma Wait_returns_iff_quiescent_witness :
  exec (StopAct 0) w_waiting = None ∧ ¬ quiescent (w_fwd w_waiting).
Proof.
  assert (Hr : reachable w_waiting).
  { apply (reachable_run (tr_echo ++ [CallStop; StopAct 0; StopAct 0])).
    vm_compute. reflexivity. }
  destruct (Wait_returns_iff_quiescent w_waiting 0 Hr) as [Hiff _].
  - vm_compute; reflexivity.
  - vm_compute; reflexivity.
  - assert (E : exec (StopAct 0) w_waiting = None) by (vm_compute; reflexivity).
    split; [exact E|]. intros Hq. apply Hiff in Hq. rewrite E in Hq.
    by destruct Hq.
Defined.

(** ** Nothing blocks once the copies have returned *)

Lemma exec_handler_at o p a hs ss rj lc i dial h p' h' :
  hs !! i = Some h → handler_step (clock o) dial p h = Ok (p', h') →
  exec (HandlerAct i dial) (mkWorld o (mkFwd p a hs ss rj lc false))
  = Some (mkWorld o (mkFwd p' a (<[i := h']> hs) ss rj lc false)).
Proof. intros Hi Hs. by rewrite (exec_handler _ _ h _ p' h'). Qed.

(** X3. In a reachable state: (1) a relay goroutine that has done its
    half-close can always send on [done] (the channel of capacity 2 is
    never full) and then exits; (2) a handler at line 132 whose two relay
    goroutines have exited runs to its end without ever blocking: it
    receives twice, closes both connections, returns its slot and marks its
    WaitGroup unit done, and changes nothing else. *)
Theorem finished_connection_is_cleaned_up (w : World) (i : nat) (h : Handler) :
  reachable w → panicked (w_fwd w) = false →
  handlers (w_fwd w) !! i = Some h →
  (∀ d res now n,
     relay_pc d h = RSend res →
     (done_ch h < 2)%nat
     ∧ ∃ h', relay_step now d n h = Some h'
             ∧ relay_pc d h' = RExited res
             ∧ done_ch h' = S (done_ch h)
             ∧ local h' = local h ∧ remote h' = remote h ∧ hpc h' = hpc h)
  ∧ (hpc h = HWait1 → fin (up h) = 1%nat → fin (down h) = 1%nat →
     ∃ k n,
       connSem (px (w_fwd w)) = S k ∧ wg (px (w_fwd w)) = n + 1 ∧ 0 ≤ n
       ∧ ∀ b,
           run (tr_repeat 6 [HandlerAct i b]) w
           = Some (mkWorld (w_os w)
                     (f_set_handlers
                        (f_set_px (w_fwd w)
                           (px_set_wg (px_set_connSem (px (w_fwd w)) k) n))
                        (<[i := cleaned_up h]> (handlers (w_fwd w)))))).
Proof.
  intros Hr Hp Hi.
  apply invariant_reachable in Hr as [C [Hok _] _ _ _].
  pose proof (Forall_lookup_1 _ _ _ _ Hok Hi) as Hh.
  split.
  - intros d res now n Hpc.
    assert (Hlt : (done_ch h < 2)%nat ∧ is_Some (remote h)).
    { revert Hh. unfold handler_ok.
      destruct h as [pc l rm u dn k]; destruct d; simpl in *; subst;
        destruct pc; simpl; intros Hh; destruct_and?; simplify_eq/=;
        try (destruct_or?; destruct_and?; simplify_eq/=);
        try (split; [|done]; simpl in *; lia);
        try (split; [|done]; destruct u; simpl in *; lia);
        try (split; [|done]; destruct dn; simpl in *; lia). }
    destruct Hlt as [Hlt [r Hrem]]. split; [done|].
    unfold relay_step.
    assert (Hs : is_Some (relay_src d h)) by (destruct d; simpl; eauto).
    assert (Hd : is_Some (relay_dst d h)) by (destruct d; simpl; eauto).
    destruct Hs as [src Hs]. destruct Hd as [dst Hd].
    rewrite Hs, Hd, Hpc. simpl.
    rewrite bool_decide_eq_true_2 by done. simpl.
    eexists. split; [done|].
    destruct h as [pc l rm u dn k]; destruct d; simpl in *; simplify_eq/=; done.
  - intros Hpc Hu Hd.
    unfold handler_ok in Hh. rewrite Hpc in Hh.
    destruct Hh as ([r Hrem] & _ & _ & Hdone & _).
    rewrite Hu, Hd in Hdone. simpl in Hdone.
    destruct C as [C1 _ C3 _ _].
    pose proof (sum_list_with_lookup_le holds_slot _ _ _ Hi) as Hs.
    pose proof (sum_list_with_lookup_le live _ _ _ Hi) as Hl.
    assert (Hs1 : holds_slot h = 1%nat) by (unfold holds_slot; by rewrite Hpc).
    assert (Hl1 : live h = 1%nat) by (unfold live; by rewrite Hpc).
    destruct (connSem (px (w_fwd w))) as [|k] eqn:Ek; [lia|].
    exists k, (wg (px (w_fwd w)) - 1).
    split; [done|]. split; [lia|]. split; [lia|]. intros b.
    assert (Hlen : (i < length (handlers (w_fwd w)))%nat)
      by (by eapply lookup_lt_Some).
    destruct w as [o f]. destruct f as [p a hs ss rj lc pk].
    destruct h as [pc l rm u dn dc]. simpl in *. subst.
    cbn [tr_repeat app run].
    do 4 (erewrite exec_handler_at;
            [|done || by apply list_lookup_insert_eq|reflexivity];
          cbn [mbind option_bind]; rewrite ?list_insert_insert_eq).
    erewrite exec_handler_at;
      [|by apply list_lookup_insert_eq
       |unfold handler_step; cbn [hpc h_set_pc]; rewrite Ek; reflexivity].
    cbn [mbind option_bind]. rewrite list_insert_insert_eq.
    erewrite exec_handler_at;
      [|by apply list_lookup_insert_eq
       |unfold handler_step; cbn [hpc h_set_pc];
        rewrite bool_decide_eq_false_2 by (cbn [wg px_set_connSem]; lia);
        reflexivity].
    cbn [mbind option_bind]. rewrite list_insert_insert_eq.
    reflexivity.
Qed.

Lemma w_copied_run : run tr_copied w_8000 = Some w_copied.
Proof. vm_compute. reflexivity. Qed.

Lemma finished_connection_is_cleaned_up_witness :
  run (tr_repeat 6 [HandlerAct 0 true]) w_copied = Some w_echo.
Proof.
  pose proof (reachable_run _ _ w_copied_run) as Hr.
  destruct (handlers (w_fwd w_copied) !! 0%nat) as [h|] eqn:Hi;
    [|vm_compute in Hi; discriminate].
  destruct (finished_connection_is_cleaned_up w_copied 0 h Hr eq_refl Hi)
    as [_ H2].
  assert (E : Some h = handlers (w_fwd w_copied) !! 0%nat) by done.
  vm_compute in E. injection E as ->.
  destruct H2 as (k & n & Hk & Hn & _ & Hrun); [reflexivity..|].
  rewrite (Hrun true).
  assert (k = 0%nat) as -> by (vm_compute in Hk; by injection Hk).
  assert (Hw : wg (px (w_fwd w_copied)) = 2) by (vm_compute; reflexivity).
  assert (n = 1) as -> by lia.
  vm_compute. reflexivity.
Defined.

(** ** How long a connection can relay *)











(** * A schedule on which [Stop] returns *)

Lemma unreset_SetDeadline t c : unreset (conn_SetDeadline t c) = unreset c.
Proof. unfold conn_SetDeadline, unreset. by destruct (closed c). Qed.
Lemma unreset_CloseWrite c : unreset (conn_CloseWrite c) = unreset c.
Proof. unfold conn_CloseWrite, unreset. by destruct (closed c). Qed.

(** The handler goroutine can make a step that brings it closer to its
    end, unless it waits for a relay goroutine. *)
Lemma handler_step_progress now p h :
  handler_ok h → hpc h ≠ HExited →
  (hpc h = HWait1 ∨ hpc h = HWait2 → done_ch h ≠ 0%nat) →
  (hpc h = HReleaseSem → connSem p ≠ 0%nat) →
  (hpc h = HWgDone → 1 ≤ wg p) →
  ∃ p' h', handler_step now false p h = Ok (p', h')
           ∧ (handler_rank h' < handler_rank h)%nat.
Proof.
  unfold handler_step, handler_ok, handler_rank, unreset.
  intros Hok Hne Hw Hs Hg.
  destruct h as [pc l rm u dn k]. simpl in *.
  destruct pc; try done;
    try (assert (k ≠ 0%nat) as Hk by (apply Hw; eauto);
         destruct k as [|k]; [done|]; clear Hk);
    destruct_and?; subst;
    try (destruct (connSem p) as [|c]; [by destruct Hs|]);
    try (specialize (Hg eq_refl); rewrite bool_decide_eq_false_2 by lia);
    (eexists _, _; split; [reflexivity|]);
    unfold conn_SetDeadline, conn_Close;
    cbn [hpc local remote up down done_ch h_set_pc h_set_local h_set_remote
         h_set_up h_set_down h_set_done_ch hpc_rank relay_rank];
    try destruct rm as [r|]; cbn [fmap option_fmap option_map from_option];
    cbn [rst conn_set_deadline conn_set_closed];
    repeat case_match; simpl in *; (congruence || lia).
Qed.

Lemma conn_Write_unreset now bs c c' :
  conn_Write now bs c = inr c' → unreset c' = unreset c.
Proof.
  unfold conn_Write, unreset. intros H.
  repeat case_match; simplify_eq/=; congruence.
Qed.

Lemma conn_Read_reset now n c :
  rst c = true → ∃ e, conn_Read now n c = ReadErr e.
Proof.
  unfold conn_Read. intros ->. repeat case_match; eauto.
Qed.

(** A relay goroutine that has not exited can make a step that brings it
    closer to its end, once the peer it reads from has reset the
    connection. *)
Lemma relay_progress now d h r0 :
  remote h = Some r0 →
  relay_pc d h ≠ RIdle → fin (relay_pc d h) = 0%nat →
  (∀ r, relay_pc d h = RSend r → (done_ch h < 2)%nat) →
  (∃ h', relay_step now d 1 h = Some h' ∧ hpc h' = hpc h
         ∧ (handler_rank h' < handler_rank h)%nat)
  ∨ (∃ c, peer_conn (source_peer d) h = Some c
          ∧ (handler_rank (peer_set_conn (source_peer d) h (conn_peer_reset c))
             < handler_rank h)%nat).
Proof.
  intros Hr Hni Hfin Hsend.
  destruct h as [pc l rm u dn k]; simpl in *; subst rm.
  unfold relay_step, handler_rank.
  destruct d; simpl in *.
  - destruct u as [| |buf|res|res|res]; try done; simpl.
    + destruct (rst l) eqn:El.
      * left. destruct (conn_Read_reset now 1 l El) as [e ->]. simpl.
        eexists. split; [reflexivity|]. split; [done|]. simpl. lia.
      * right. eexists. split; [reflexivity|]. simpl.
        unfold unreset at 1 3. simpl. rewrite El. lia.
    + left. destruct (conn_Write now buf r0) as [e|r1] eqn:Ew; simpl;
        (eexists; split; [reflexivity|]; split; [done|]; simpl);
        rewrite ?(conn_Write_unreset _ _ _ _ Ew); lia.
    + left. eexists. split; [reflexivity|]. split; [done|]. simpl.
      rewrite unreset_CloseWrite. lia.
    + left. rewrite bool_decide_eq_true_2 by eauto. simpl.
      eexists. split; [reflexivity|]. split; [done|]. simpl. lia.
  - destruct dn as [| |buf|res|res|res]; try done; simpl.
    + destruct (rst r0) eqn:El.
      * left. destruct (conn_Read_reset now 1 r0 El) as [e ->]. simpl.
        eexists. split; [reflexivity|]. split; [done|]. simpl. lia.
      * right. eexists. split; [reflexivity|]. simpl.
        unfold unreset at 2 4. simpl. rewrite El. lia.
    + left. destruct (conn_Write now buf l) as [e|l1] eqn:Ew; simpl;
        (eexists; split; [reflexivity|]; split; [done|]; simpl);
        rewrite ?(conn_Write_unreset _ _ _ _ Ew); lia.
    + left. eexists. split; [reflexivity|]. split; [done|]. simpl.
      rewrite unreset_CloseWrite. lia.
    + left. rewrite bool_decide_eq_true_2 by eauto. simpl.
      eexists. split; [reflexivity|]. split; [done|]. simpl. lia.
Qed.

Lemma exec_on_handler a w i k h h' :
  panicked (w_fwd w) = false → handlers (w_fwd w) !! i = Some h →
  k h = Some h' →
  (a = Relay i Up 1 ∧ k = relay_step (clock (w_os w)) Up 1
   ∨ a = Relay i Down 1 ∧ k = relay_step (clock (w_os w)) Down 1) →
  exec a w
  = Some (mkWorld (w_os w)
            (f_set_handlers (w_fwd w) (<[i := h']> (handlers (w_fwd w))))).
Proof.
  intros Hp Hi Hk [[-> ->]|[-> ->]]; unfold exec, on_handler;
    rewrite Hp; simpl; rewrite Hi; simpl; by rewrite Hk.
Qed.

Lemma exec_peer_reset s w i h c :
  panicked (w_fwd w) = false → handlers (w_fwd w) !! i = Some h →
  peer_conn s h = Some c →
  exec (PeerReset s i) w
  = Some (mkWorld (w_os w)
            (f_set_handlers (w_fwd w)
               (<[i := peer_set_conn s h (conn_peer_reset c)]>
                  (handlers (w_fwd w))))).
Proof.
  intros Hp Hi Hc. unfold exec, on_handler. rewrite Hp. simpl.
  rewrite Hi. simpl. by rewrite Hc.
Qed.

(** A handler goroutine that has not exited, or one of its relay
    goroutines, or the peer of one of them, can make a step after which
    the handler is closer to its end; nothing else changes but the
    counters of the Proxy. *)
Lemma handler_progress w i h :
  invariant w → panicked (w_fwd w) = false →
  handlers (w_fwd w) !! i = Some h → hpc h ≠ HExited →
  ∃ a w' h',
    exec a w = Some w' ∧ (∀ j, drains j a = true)
    ∧ panicked (w_fwd w') = false
    ∧ stops (w_fwd w') = stops (w_fwd w)
    ∧ acceptor (w_fwd w') = acceptor (w_fwd w)
    ∧ handlers (w_fwd w') = <[i := h']> (handlers (w_fwd w))
    ∧ (handler_rank h' < handler_rank h)%nat.
Proof.
  intros [C [Hok _] _ _ _] Hp Hi Hne.
  pose proof (Forall_lookup_1 _ _ _ _ Hok Hi) as Hh.
  assert (Hcase : ((hpc h = HWait1 ∨ hpc h = HWait2) ∧ done_ch h = 0%nat)
                  ∨ ¬ ((hpc h = HWait1 ∨ hpc h = HWait2) ∧ done_ch h = 0%nat)).
  { destruct (hpc h); destruct (done_ch h);
      (by left; split; eauto) || (right; by intros [[?|?] ?]). }
  destruct Hcase as [[Hw Hd]|Hnw].
  - (* the handler waits for a relay goroutine *)
    assert (Hrel : ∃ d r0, remote h = Some r0 ∧ relay_pc d h ≠ RIdle
                           ∧ fin (relay_pc d h) = 0%nat).
    { unfold handler_ok in Hh.
      destruct Hw as [Hw|Hw]; rewrite Hw in Hh;
        destruct Hh as ([r0 Hr0] & Hu & Hdn & Hk & _); rewrite Hd in Hk.
      - exists Up, r0. simpl. split_and!; try done. lia.
      - destruct (fin (up h)) eqn:Eu.
        + exists Up, r0. by simpl.
        + exists Down, r0. simpl. split_and!; try done.
          destruct (up h); simpl in *; try done; lia. }
    destruct Hrel as (d & r0 & Hr0 & Hni & Hfin).
    destruct (relay_progress (clock (w_os w)) d h r0 Hr0 Hni Hfin)
      as [(h' & Hs & _ & Hlt)|(c & Hc & Hlt)].
    + intros r _. lia.
    + eexists (Relay i d 1), _, h'.
      split; [eapply exec_on_handler; eauto; destruct d; eauto|].
      simpl. by split_and!.
    + eexists (PeerReset (source_peer d) i), _, _.
      split; [by eapply exec_peer_reset|]. simpl. by split_and!.
  - (* the handler goroutine moves *)
    destruct (handler_step_progress (clock (w_os w)) (px (w_fwd w)) h Hh Hne)
      as (p' & h' & Hs & Hlt).
    + intros Hw Hd. apply Hnw. by split.
    + intros Hpc. destruct C as [C1 _ _ _ _].
      pose proof (sum_list_with_lookup_le holds_slot _ _ _ Hi) as Hle.
      unfold holds_slot in Hle at 1. rewrite Hpc in Hle. lia.
    + intros Hpc. destruct C as [_ _ C3 _ _].
      pose proof (sum_list_with_lookup_le live _ _ _ Hi) as Hle.
      unfold live in Hle at 1. rewrite Hpc in Hle. lia.
    + eexists (HandlerAct i false), _, h'.
      split; [by eapply exec_handler|]. simpl. by split_and!.
Qed.

(** Once [Stop] has closed [done], the accept loop can make a step after
    which it is closer to its end: [Accept] answers with an error. *)
Lemma acceptor_progress w :
  invariant w → panicked (w_fwd w) = false →
  done_closed (px (w_fwd w)) = true → acceptor (w_fwd w) ≠ AExited →
  ∃ w', exec (Acceptor None) w = Some w' ∧ panicked (w_fwd w') = false
        ∧ stops (w_fwd w') = stops (w_fwd w)
        ∧ (acc_rank (acceptor (w_fwd w'))
           + sum_list_with handler_rank (handlers (w_fwd w'))
           < acc_rank (acceptor (w_fwd w))
             + sum_list_with handler_rank (handlers (w_fwd w)))%nat.
Proof.
  intros [C _ _ _ _] Hp Hd Hne. destruct C as [_ _ C3 C4 [l Hl]].
  unfold exec, acceptor_step. rewrite Hp, Hl, Hd.
  destruct w as [o f]. destruct f as [p a hs ss rj lc pk]. simpl in *.
  destruct a; try done; simpl.
  - eexists. split; [reflexivity|]. simpl. split_and!; try done. lia.
  - eexists. split; [reflexivity|]. simpl. split_and!; try done. lia.
  - case_bool_decide; (eexists; split; [reflexivity|]); simpl;
      split_and!; try done; lia.
  - eexists. split; [reflexivity|]. simpl. split_and!; try done. lia.
  - eexists. split; [reflexivity|].
    cbn [w_fwd acceptor handlers stops panicked f_set_acceptor f_set_handlers
         acc_rank].
    split_and!; try done.
    rewrite sum_list_with_app. cbn [sum_list_with].
    assert (handler_rank (spawn_handler c) ≤ 25)%nat; [|lia].
    unfold handler_rank, spawn_handler, unreset. simpl. case_match; lia.
  - eexists. split; [reflexivity|]. simpl. split_and!; try done. lia.
  - rewrite bool_decide_eq_false_2 by (simpl in C3; lia).
    eexists. split; [reflexivity|]. simpl. split_and!; try done. lia.
Qed.

Lemma live_handler_exists hs :
  (0 < sum_list_with live hs)%nat →
  ∃ i h, hs !! i = Some h ∧ hpc h ≠ HExited.
Proof.
  induction hs as [|h hs IH]; simpl; [lia|]. intros H.
  assert (Hcase : hpc h = HExited ∨ hpc h ≠ HExited)
    by (destruct (hpc h); (by left) || (by right)).
  destruct Hcase as [E|E].
  - destruct IH as (i & h' & Hi & Hne).
    + unfold live in H at 1. rewrite E in H. lia.
    + by exists (S i), h'.
  - by exists 0%nat, h.
Qed.

(** While a call of [Stop] has not returned, some step brings the
    Forwarder closer to the state in which it has. *)
Lemma Stop_progress w j pc :
  invariant w → panicked (w_fwd w) = false →
  stops (w_fwd w) !! j = Some pc → pc ≠ SReturned →
  (pc = SCloseDone → done_closed (px (w_fwd w)) = false) →
  ∃ a w' pc',
    exec a w = Some w' ∧ drains j a = true ∧ panicked (w_fwd w') = false
    ∧ stops (w_fwd w') !! j = Some pc'
    ∧ (pc' = SCloseDone → done_closed (px (w_fwd w')) = false)
    ∧ (rank j w' < rank j w)%nat.
Proof.
  intros I Hp Hj Hne Hd.
  assert (Hlt : (j < length (stops (w_fwd w)))%nat)
    by (by eapply lookup_lt_Some).
  destruct pc; try done.
  - (* line 56 *)
    eexists (StopAct j), _, SCloseListener.
    unfold exec, rank. rewrite Hp, Hj. simpl. rewrite (Hd eq_refl).
    split; [reflexivity|]. simpl.
    rewrite !list_lookup_insert_eq by done. simpl.
    rewrite bool_decide_eq_true_2 by done. split_and!; try done. lia.
  - (* lines 57-59 *)
    destruct I as [[_ _ _ _ [l Hl]] _ _ _ _].
    destruct (listener_Close (w_os w) l) as [l' o'] eqn:Elc.
    eexists (StopAct j), _, SWait.
    unfold exec, rank. rewrite Hp, Hj. simpl. rewrite Hl, Elc.
    split; [reflexivity|]. simpl.
    rewrite !list_lookup_insert_eq by done. simpl.
    rewrite bool_decide_eq_true_2 by done. split_and!; try done. lia.
  - (* line 60 *)
    destruct (decide (wg (px (w_fwd w)) = 0)) as [E0|E0].
    + eexists (StopAct j), _, SReturned.
      unfold exec, rank. rewrite Hp, Hj. simpl.
      rewrite bool_decide_eq_true_2 by done.
      split; [reflexivity|]. simpl.
      rewrite !list_lookup_insert_eq by done. simpl.
      rewrite bool_decide_eq_true_2 by done. split_and!; try done. lia.
    + assert (Hdc : done_closed (px (w_fwd w)) = true).
      { destruct I as [_ _ _ [S1 _ _ _] _].
        pose proof (sum_list_with_lookup_le past_done _ _ _ Hj) as Hle.
        simpl in Hle. destruct (done_closed (px (w_fwd w))); [done|lia]. }
      assert (Hcase : acceptor (w_fwd w) = AExited
                      ∨ acceptor (w_fwd w) ≠ AExited)
        by (destruct (acceptor (w_fwd w)); (by left) || (by right)).
      destruct Hcase as [Ea|Ea].
      * pose proof I as [[_ _ C3 _ _] _ _ _ _].
        rewrite Ea in C3. simpl in C3.
        destruct (live_handler_exists (handlers (w_fwd w)))
          as (i & h & Hi & Hh); [lia|].
        destruct (handler_progress w i h I Hp Hi Hh)
          as (a & w' & h' & He & Hdr & Hp' & Hs & Hacc & Hhs & Hr).
        exists a, w', SWait. split_and!; try done.
        -- by rewrite Hs.
        -- unfold rank. rewrite Hs, Hacc, Hhs.
           pose proof (sum_list_with_insert handler_rank _ i h h' Hi). lia.
      * destruct (acceptor_progress w I Hp Hdc Ea)
          as (w' & He & Hp' & Hs & Hr).
        exists (Acceptor None), w', SWait. split_and!; try done.
        -- by rewrite Hs.
        -- unfold rank. rewrite Hs. lia.
Qed.

Lemma Stop_returns_within n w j pc :
  (rank j w < n)%nat →
  invariant w → panicked (w_fwd w) = false →
  stops (w_fwd w) !! j = Some pc →
  (pc = SCloseDone → done_closed (px (w_fwd w)) = false) →
  ∃ tr w', run tr w = Some w' ∧ panicked (w_fwd w') = false
           ∧ stops (w_fwd w') !! j = Some SReturned
           ∧ forallb (drains j) tr = true ∧ (length tr < n)%nat.
Proof.
  revert w pc. induction n as [|n IH]; intros w pc Hn I Hp Hj Hd; [lia|].
  assert (Hcase : pc = SReturned ∨ pc ≠ SReturned)
    by (destruct pc; (by left) || (by right)).
  destruct Hcase as [->|Hne].
  - exists [], w. simpl. split_and!; try done. lia.
  - destruct (Stop_progress w j pc I Hp Hj Hne Hd)
      as (a & w1 & pc1 & He & Hdr & Hp1 & Hj1 & Hd1 & Hr).
    destruct (IH w1 pc1) as (tr & w' & Hrun & Hp' & Hj' & Hdrs & Hlen);
      try done.
    + lia.
    + by eapply invariant_exec.
    + exists (a :: tr), w'. simpl. rewrite He, Hdr, Hdrs. simpl.
      split_and!; try done. lia.
Qed.

(** X20. [Stop] cannot be kept waiting by the Forwarder itself: from every
    state a running Forwarder can be in, a call of [Stop] that is under way
    (and did not find [done] closed by another call) returns on some
    schedule of at most [rank] steps, on which the peers hang up, no
    connection is accepted or dialed and no time passes. *)
Theorem Stop_can_return (w : World) (j : nat) (pc : StopPc) :
  reachable w → panicked (w_fwd w) = false →
  stops (w_fwd w) !! j = Some pc →
  (pc = SCloseDone → done_closed (px (w_fwd w)) = false) →
  ∃ tr w', run tr w = Some w' ∧ panicked (w_fwd w') = false
           ∧ stops (w_fwd w') !! j = Some SReturned
           ∧ quiescent (w_fwd w')
           ∧ forallb (drains j) tr = true ∧ (length tr ≤ rank j w)%nat.
Proof.
  intros Hr Hp Hj Hd. apply invariant_reachable in Hr as I.
  destruct (Stop_returns_within (S (rank j w)) w j pc) as
    (tr & w' & Hrun & Hp' & Hj' & Hdr & Hlen); try done; [lia|].
  exists tr, w'. split_and!; try done; [|lia].
  assert (I' : invariant w').
  { eapply (run_invariant invariant); [|done|done].
    intros a w1 w2. apply invariant_exec. }
  destruct I' as [_ _ _ [_ _ _ S4] _]. apply S4.
  by eapply list_elem_of_lookup_2.
Qed.

Lemma Stop_can_return_witness :
  ∃ tr w', run tr w_waiting = Some w'
           ∧ stops (w_fwd w') !! 0%nat = Some SReturned
           ∧ (length tr ≤ 6)%nat.
Proof.
  destruct (Stop_can_return w_waiting 0 SWait)
    as (tr & w' & Hrun & _ & Hj & _ & _ & Hlen).
  - apply (reachable_run (tr_echo ++ [CallStop; StopAct 0; StopAct 0])).
    vm_compute. reflexivity.
  - vm_compute. reflexivity.
  - vm_compute. reflexivity.
  - intros ?. discriminate.
  - exists tr, w'. by split_and!.
Defined.

(** * The Manager: invariant *)

Lemma no_panic_exec a w w' :
  exec a w = Some w' → invariant w →
  (length (stops (w_fwd w')) ≤ 1)%nat → panicked (w_fwd w') = false.
Proof.
  intros He I Hlen.
  pose proof (invariant_exec _ _ _ He I) as [_ _ _ [S1 _ _ _] _].
  assert (P : panic_explained (w_fwd w')).
  { eapply panic_explained_exec; [done|by destruct I|].
    unfold exec in He. intros Hp. by rewrite Hp in He. }
  destruct (panicked (w_fwd w')) eqn:Hp; [|done].
  destruct (P Hp) as [Hd Hin]. rewrite Hd in S1.
  destruct (stops (w_fwd w')) as [|pc [|pc' ss]]; simpl in *; try lia.
  apply list_elem_of_singleton in Hin as <-. simpl in S1. lia.
Qed.

Lemma local_exec_frame a w w' :
  local_action a = true → exec a w = Some w' →
  w_os w' = w_os w ∧ stops (w_fwd w') = stops (w_fwd w)
  ∧ listener (px (w_fwd w')) = listener (px (w_fwd w)).
Proof.
  unfold exec. intros Hl H.
  destruct (panicked (w_fwd w)); [done|]. destruct a; try done.
  - destruct (acceptor_step env (w_fwd w)) as [|f'|] eqn:E; simplify_eq/=;
      [|done].
    by apply acceptor_step_frame in E as (? & _ & _ & ? & _).
  - destruct (handlers (w_fwd w) !! i) as [h|] eqn:Hi; simplify_eq/=.
    destruct (handler_step _ _ _ h) as [|[p' h']|] eqn:E; simplify_eq/=;
      [|done].
    by apply handler_step_frame in E as (_ & ? & _).
  - by apply on_handler_inv in H as (h & h' & Hi & Hk & ->).
  - by apply on_handler_inv in H as (h & h' & Hi & Hk & ->).
  - by apply on_handler_inv in H as (h & h' & Hi & Hk & ->).
  - by apply on_handler_inv in H as (h & h' & Hi & Hk & ->).
Qed.

(** The invariant of one Proxy looks at the system through the clock and
    through the port of its closed listener. *)
Lemma invariant_os o o' f :
  invariant (mkWorld o f) → clock o' = clock o →
  (∀ l, listener (px f) = Some l → l_closed l = true → l_port l ∉ bound o') →
  invariant (mkWorld o' f).
Proof.
  intros [C H T [S1 S2 S3 S4] D] Hc Hb. split; try done.
  - split; try done. simpl in *. intros l Hl.
    specialize (S3 l Hl). destruct (l_closed l) eqn:El; [|done].
    split; [by destruct S3|]. by apply Hb.
  - unfold dial_timed in *. simpl in *. by rewrite Hc.
Qed.

Lemma quiescent_local_exec a o f w' :
  local_action a = true → quiescent f → panicked f = false →
  exec a (mkWorld o f) = Some w' →
  w_os w' = o ∧ quiescent (w_fwd w') ∧ panicked (w_fwd w') = false.
Proof.
  unfold exec. simpl. intros Hl [Qa Qh] Hp H. rewrite Hp in H.
  destruct a; try done.
  - unfold acceptor_step in H. by rewrite Qa in H.
  - destruct (handlers f !! i) as [h|] eqn:Hi; simplify_eq/=.
    pose proof (Forall_lookup_1 _ _ _ _ Qh Hi) as Hh. simpl in Hh.
    unfold handler_step in H. by rewrite Hh in H.
  - apply on_handler_inv in H as (h & h' & Hi & Hk & ->). simpl in *.
    split; [done|]. split; [|done].
    eapply (quiescent_same_pc f); [done| |done].
    by eapply relay_step_hpc.
  - apply on_handler_inv in H as (h & h' & Hi & Hk & ->). simpl in *.
    destruct (peer_conn s h) as [c|] eqn:Hc; simplify_eq/=.
    destruct (conn_peer_send bs c) as [c'|] eqn:Hs; simplify_eq/=.
    split; [done|]. split; [|done].
    eapply (quiescent_same_pc f); [done| |done]. apply peer_set_conn_hpc.
  - apply on_handler_inv in H as (h & h' & Hi & Hk & ->). simpl in *.
    destruct (peer_conn s h) as [c|] eqn:Hc; simplify_eq/=.
    split; [done|]. split; [|done].
    eapply (quiescent_same_pc f); [done| |done]. apply peer_set_conn_hpc.
  - apply on_handler_inv in H as (h & h' & Hi & Hk & ->). simpl in *.
    destruct (peer_conn s h) as [c|] eqn:Hc; simplify_eq/=.
    split; [done|]. split; [|done].
    eapply (quiescent_same_pc f); [done| |done]. apply peer_set_conn_hpc.
Qed.

(** At most one call holds the mutex. *)
Lemma holder_unique (cs : list StopAllPc) t t' pc pc' :
  (sum_list_with holding cs ≤ 1)%nat →
  cs !! t = Some pc → cs !! t' = Some pc' → t ≠ t' →
  holding pc = 1%nat → holding pc' = 0%nat.
Proof.
  intros Hs Ht Ht' Hne Hh.
  pose proof (sum_list_with_insert holding cs t pc SALock Ht) as E.
  assert (Ht'' : <[t := SALock]> cs !! t' = Some pc')
    by (by rewrite list_lookup_insert_ne).
  pose proof (sum_list_with_lookup_le holding _ _ _ Ht'') as Hle.
  simpl in E. lia.
Qed.

Lemma not_holding_phase pc k f : holding pc = 0%nat → member_phase pc k f.
Proof. by destruct pc. Qed.

Lemma m_dead_false w :
  m_dead w = false ↔
  m_fatal w = false
  ∧ Forall (λ f, panicked f = false) (proxies (m_mgr w) ++ m_retired w).
Proof.
  unfold m_dead. rewrite orb_false_iff.
  apply and_iff_compat_l. split.
  - intros H. apply Forall_forall. intros f Hf.
    destruct (panicked f) eqn:Hp; [|done].
    assert (existsb panicked (proxies (m_mgr w) ++ m_retired w) = true);
      [|congruence].
    apply existsb_exists. exists f. split; [|done]. by apply list_elem_of_In.
  - intros H. destruct (existsb _ _) eqn:E; [|done].
    apply existsb_exists in E as (f & Hf & Hp).
    apply list_elem_of_In in Hf.
    rewrite Forall_forall in H. specialize (H f Hf). congruence.
Qed.

Lemma open_port_closed o f :
  invariant (mkWorld o f) → (0 < lcloses f)%nat → open_port f = None.
Proof.
  intros [_ _ _ [_ _ S3 _] _] Hl. unfold open_port. simpl in *.
  destruct (listener (px f)) as [l|]; [|done].
  specialize (S3 l eq_refl). destruct (l_closed l); [done|]. lia.
Qed.

Lemma open_port_never_stopped o f :
  invariant (mkWorld o f) → stops f = [] →
  ∃ l, listener (px f) = Some l ∧ l_closed l = false
       ∧ open_port f = Some (l_port l).
Proof.
  intros [[_ _ _ _ [l Hl]] _ _ [_ S2 S3 _] _] Hs. simpl in *.
  rewrite Hs in S2. simpl in S2. specialize (S3 l Hl).
  exists l. unfold open_port. rewrite Hl.
  destruct (l_closed l); [|done]. lia.
Qed.

Lemma stop_exec_length j w w' :
  exec (StopAct j) w = Some w' →
  length (stops (w_fwd w')) = length (stops (w_fwd w)).
Proof.
  unfold exec. intros H.
  destruct (panicked (w_fwd w)); [done|].
  destruct (stops (w_fwd w) !! j) as [pc|] eqn:Hj; simplify_eq/=.
  destruct (stop_step w pc) as [|[w1 pc1]|] eqn:E; simplify_eq/=; [|done].
  by rewrite length_insert.
Qed.

(** What a step of [Stop] does to the system: nothing, or the port of the
    Proxy stops listening. *)
Lemma stop_exec_frame j o f w' :
  exec (StopAct j) (mkWorld o f) = Some w' → panicked (w_fwd w') = false →
  (w_os w' = o ∧ open_port (w_fwd w') = open_port f)
  ∨ (∃ p, open_port f = Some p ∧ open_port (w_fwd w') = None
          ∧ w_os w' = os_set_bound o (bound o ∖ {[p]})).
Proof.
  unfold exec. simpl. intros H Hp.
  destruct (panicked f); [done|].
  destruct (stops f !! j) as [pc|] eqn:Hj; simplify_eq/=.
  destruct (stop_step (mkWorld o f) pc) as [|[w1 pc1]|] eqn:E; simplify_eq/=.
  unfold stop_step, listener_Close, open_port in *. simpl in *.
  destruct pc; repeat case_match; simplify_eq/=; eauto; congruence.
Qed.

Lemma callstop_exec o f :
  panicked f = false →
  exec CallStop (mkWorld o f)
  = Some (mkWorld o (f_set_stops f (stops f ++ [SCloseDone]))).
Proof. intros Hp. unfold exec. simpl. by rewrite Hp. Qed.

Lemma tick_exec dt o f :
  panicked f = false → 0 < dt →
  forallb (dial_allows (clock o + dt)) (handlers f) = true →
  exec (Tick dt) (mkWorld o f)
  = Some (mkWorld (os_set_clock o (clock o + dt)) f).
Proof.
  intros Hp Hdt Hd. unfold exec. simpl. rewrite Hp, Hd.
  by rewrite bool_decide_eq_true_2.
Qed.

Lemma ports_ok_close b0 b ops i p :
  ops !! i = Some (Some p) → ports_ok b0 b ops →
  ports_ok b0 (b ∖ {[p]}) (<[i := None]> ops).
Proof.
  intros Hi [N B F].
  assert (Hlt : (i < length ops)%nat) by (by eapply lookup_lt_Some).
  assert (Hold : ∀ k q, <[i := None]> ops !! k = Some (Some q) →
                        k ≠ i ∧ ops !! k = Some (Some q)).
  { intros k q Hk. destruct (decide (k = i)) as [->|Hne].
    - rewrite list_lookup_insert_eq in Hk by done. done.
    - by rewrite list_lookup_insert_ne in Hk. }
  split.
  - intros k1 k2 q H1 H2.
    apply Hold in H1 as [_ H1]. apply Hold in H2 as [_ H2]. eauto.
  - intros q. rewrite elem_of_difference, B, elem_of_singleton. split.
    + intros [[H0|Hin] Hne]; [by left|]. right.
      apply list_elem_of_lookup in Hin as [k Hk].
      apply list_elem_of_lookup. exists k.
      rewrite list_lookup_insert_ne; [done|]. intros ->. congruence.
    + intros [H0|Hin].
      * split; [by left|]. intros ->. apply (F p); [|done].
        eapply list_elem_of_lookup_2; eauto.
      * apply list_elem_of_lookup in Hin as [k Hk].
        apply Hold in Hk as [Hne Hk]. split.
        -- right. eapply list_elem_of_lookup_2; eauto.
        -- intros ->. apply Hne. eauto.
  - intros q Hin. apply list_elem_of_lookup in Hin as [k Hk].
    apply Hold in Hk as [_ Hk]. apply F. eapply list_elem_of_lookup_2; eauto.
Qed.

Lemma ports_ok_add b0 b ops p :
  p ∉ b → ports_ok b0 b ops → ports_ok b0 ({[p]} ∪ b) (ops ++ [Some p]).
Proof.
  intros Hp [N B F].
  assert (Hnew : ∀ k q, (ops ++ [Some p]) !! k = Some (Some q) →
                        (ops !! k = Some (Some q) ∧ q ≠ p)
                        ∨ (k = length ops ∧ q = p)).
  { intros k q Hk. apply lookup_app_Some in Hk as [Hk|[Hge Hk]].
    - left. split; [done|]. intros ->. apply Hp, B. right.
      eapply list_elem_of_lookup_2; eauto.
    - right. apply list_lookup_singleton_Some in Hk as [Hk ?].
      simplify_eq. split; [lia|done]. }
  split.
  - intros k1 k2 q H1 H2.
    apply Hnew in H1. apply Hnew in H2.
    destruct H1 as [[H1 ?]|[E1 ?]], H2 as [[H2 ?]|[E2 ?]]; subst; eauto; done.
  - intros q. rewrite elem_of_union, elem_of_singleton, B, elem_of_app,
      list_elem_of_singleton. split.
    + intros [E|[?|?]]; eauto. right. right. by rewrite E.
    + intros [?|[?|Hq]]; eauto. left. congruence.
  - intros q. rewrite elem_of_app, list_elem_of_singleton.
    intros [Hin|Hq]; [by apply F|]. simplify_eq.
    intros H0. apply Hp, B. by left.
Qed.

Lemma ports_ok_none b0 b ops :
  Forall (λ x, x = None) ops → ports_ok b0 b ops → ports_ok b0 b [].
Proof.
  intros Hn [N B F]. split.
  - intros k1 k2 p H1. done.
  - intros p. rewrite B. split; intros [?|Hin]; eauto.
    + rewrite Forall_forall in Hn. by specialize (Hn _ Hin).
    + by apply elem_of_nil in Hin.
  - intros p Hin. by apply elem_of_nil in Hin.
Qed.

Lemma ports_ok_nil_eq b0 b : ports_ok b0 b [] → b = b0.
Proof.
  intros [_ B _]. apply set_eq. intros p. rewrite B.
  split; [|by left]. intros [?|Hin]; [done|]. by apply elem_of_nil in Hin.
Qed.

Lemma member_phase_stops pc k f f' :
  stops f' = stops f → member_phase pc k f → member_phase pc k f'.
Proof. intros E. unfold member_phase. by rewrite E. Qed.

Lemma open_port_listener f f' :
  listener (px f') = listener (px f) → open_port f' = open_port f.
Proof. intros E. unfold open_port. by rewrite E. Qed.

Lemma fmap_insert_same {A B} (g : A → B) (l : list A) i x y :
  l !! i = Some x → g y = g x → g <$> <[i := y]> l = g <$> l.
Proof.
  intros Hi E. rewrite list_fmap_insert, E.
  apply list_insert_id. by rewrite list_lookup_fmap, Hi.
Qed.

(** While a call of [StopAll] holds the mutex, some call is past line
    163. *)
Lemma holder_exists (cs : list StopAllPc) :
  (0 < sum_list_with holding cs)%nat → ∃ pc, pc ∈ cs ∧ holding pc = 1%nat.
Proof.
  induction cs as [|pc cs IH]; simpl; [lia|]. intros H.
  destruct (decide (holding pc = 1%nat)) as [E|E].
  - exists pc. split; [apply list_elem_of_here|done].
  - destruct IH as (pc' & Hin & Hh).
    + assert (holding pc = 0%nat) by (destruct pc; simpl in *; done). lia.
    + exists pc'. split; [by apply list_elem_of_further|done].
Qed.

Lemma member_stops o0 w k f :
  minv o0 w → proxies (m_mgr w) !! k = Some f → (length (stops f) ≤ 1)%nat.
Proof.
  intros I Hk. destruct (m_mu w) eqn:Hmu.
  - destruct (holder_exists (m_calls w)) as (pc & Hin & Hh).
    { rewrite (mi_mutex _ _ I), Hmu. lia. }
    pose proof (mi_phase _ _ I pc k f Hin Hk) as P.
    destruct pc; simpl in *; try done; repeat case_decide;
      destruct_and?; try rewrite P; simpl; lia.
  - pose proof (mi_unlocked _ _ I Hmu) as U.
    rewrite (Forall_lookup_1 _ _ _ _ U Hk). simpl. lia.
Qed.

Lemma member_cfg_exec o0 a o f w' :
  exec a (mkWorld o f) = Some w' → member_cfg o0 f → member_cfg o0 (w_fwd w').
Proof.
  intros E. apply config_exec in E. unfold config in E. simpl in E.
  unfold member_cfg. intros C l Hl Hne. simplify_eq.
  rewrite Hl in *. destruct (listener (px f)) as [l0|]; simplify_eq/=.
  destruct (C l0 eq_refl) as (C1 & C2 & C3); [congruence|].
  repeat split; try congruence; try lia.
  intros Hlt. apply C3. congruence.
Qed.

Lemma target_exec a o f w' :
  exec a (mkWorld o f) = Some w' → target (w_fwd w') = target f.
Proof.
  intros E. apply config_exec in E. unfold config in E. simpl in E.
  unfold target. injection E as E1 E2 _ _ _. by rewrite E1, E2.
Qed.

Lemma minv_member o0 w k a w' :
  local_action a = true → on_member w k a = Some w' → minv o0 w → minv o0 w'.
Proof.
  unfold on_member. intros Hl H I.
  destruct (proxies (m_mgr w) !! k) as [f|] eqn:Hk; simplify_eq/=.
  destruct (exec a (mkWorld (m_os w) f)) as [w1|] eqn:E; simplify_eq/=.
  destruct (local_exec_frame _ _ _ Hl E) as (Ho & Hs & Hli). simpl in *.
  pose proof (Forall_lookup_1 _ _ _ _ (mi_members _ _ I) Hk) as [If Hp].
  pose proof (invariant_exec _ _ _ E If) as I1.
  assert (Hp1 : panicked (w_fwd w1) = false).
  { eapply no_panic_exec; [done..|]. rewrite Hs. by eapply member_stops. }
  destruct I as [M R Fa Mu Ph U P Pr Cf Rg]. split; simpl; rewrite ?Ho; try done.
  - apply Forall_insert; [done|]. split; [|done].
    destruct w1 as [o1 f1]. simpl in *. by subst.
  - intros pc k' f' Hin Hk'. destruct (decide (k' = k)) as [->|Hne].
    + rewrite list_lookup_insert_eq in Hk' by (by eapply lookup_lt_Some).
      simplify_eq. eapply member_phase_stops; [done|]. eauto.
    + rewrite list_lookup_insert_ne in Hk' by done. eauto.
  - intros Hmu. apply Forall_insert; [eauto|]. rewrite Hs.
    exact (Forall_lookup_1 _ _ _ _ (U Hmu) Hk).
  - erewrite fmap_insert_same; [done|done|]. by apply open_port_listener.
  - apply Forall_insert; [done|]. eapply member_cfg_exec; [done|].
    exact (Forall_lookup_1 _ _ _ _ Cf Hk).
  - intros i j Hin. rewrite length_insert. eauto.
Qed.

Lemma minv_retired o0 w k a w' :
  local_action a = true → on_retired w k a = Some w' → minv o0 w → minv o0 w'.
Proof.
  unfold on_retired. intros Hl H I.
  destruct (m_retired w !! k) as [f|] eqn:Hk; simplify_eq/=.
  destruct (exec a (mkWorld (m_os w) f)) as [w1|] eqn:E; simplify_eq/=.
  pose proof (Forall_lookup_1 _ _ _ _ (mi_retired _ _ I) Hk) as [Q Hp].
  destruct (quiescent_local_exec _ _ _ _ Hl Q Hp E) as (Ho & Q1 & Hp1).
  destruct I as [M R Fa Mu Ph U P Pr Cf Rg]. split; simpl; rewrite ?Ho; try done.
  by apply Forall_insert.
Qed.

Lemma minv_tick o0 w dt :
  0 < dt →
  forallb (λ f, forallb (dial_allows (clock (m_os w) + dt)) (handlers f))
          (proxies (m_mgr w) ++ m_retired w) = true →
  minv o0 w →
  minv o0 (m_set_os w (os_set_clock (m_os w) (clock (m_os w) + dt))).
Proof.
  intros Hdt Hd I. destruct I as [M R Fa Mu Ph U P Pr Cf Rg].
  split; simpl; try done.
  apply Forall_forall. intros f Hf. rewrite Forall_forall in M.
  destruct (M f Hf) as [If Hp]. split; [|done].
  eapply (invariant_exec (Tick dt) (mkWorld (m_os w) f)); [|done].
  apply tick_exec; [done..|].
  rewrite forallb_forall in Hd. apply Hd.
  apply list_elem_of_In, elem_of_app. by left.
Qed.

Lemma minv_add o0 w localPort remoteHost remotePort err o' m' :
  m_mu w = false →
  Add (m_os w) (m_mgr w) localPort remoteHost remotePort = (err, o', m') →
  minv o0 w →
  minv o0 (mkMWorld o' m' (m_mu w) (m_retired w) (m_calls w) (m_fatal w)).
Proof.
  unfold Add. intros Hmu H I.
  set (p := New localPort remoteHost remotePort) in *.
  destruct (net_Listen (m_os w) (LocalPort p)) as [e|[l o1]] eqn:EL.
  - rewrite (Start_failure _ _ _ EL) in H. simplify_eq/=. by destruct w.
  - rewrite (Start_success _ _ _ _ EL) in H. simplify_eq/=.
    destruct (net_Listen_ok _ _ _ _ EL) as (Hc & Hnb & -> & Hcfg).
    assert (Inew : invariant (mkWorld (os_set_bound (m_os w)
                                ({[l_port l]} ∪ bound (m_os w))) (running p l))).
    { eapply (invariant_started (m_os w) p). split; [done|].
      by apply Start_success. }
    destruct I as [M R Fa Mu Ph U P Pr Cf Rg]. split; simpl; try done.
    + apply Forall_app. split; [|by apply Forall_singleton].
      apply Forall_forall. intros f Hf. rewrite Forall_forall in M.
      destruct (M f Hf) as [If Hp]. split; [|done].
      apply (invariant_os (m_os w)); [done|done|].
      intros l' Hl' Hcl.
      pose proof (U Hmu) as U'. rewrite Forall_forall in U'.
      destruct (open_port_never_stopped _ _ If (U' f Hf)) as (l0 & ? & ? & _).
      congruence.
    + intros pc k f Hin _. apply not_holding_phase.
      pose proof (elem_of_sum_ge holding _ _ Hin) as Hle.
      rewrite Mu, Hmu in Hle. lia.
    + intros _. apply Forall_app. split; [by apply U|by apply Forall_singleton].
    + rewrite fmap_app. simpl.
      replace (open_port (running p l)) with (Some (l_port l))
        by (unfold open_port; simpl; by rewrite Hc).
      by apply ports_ok_add.
    + apply Forall_app. split; [done|]. apply Forall_singleton.
      intros l' Hl' Hne. simpl in *. simplify_eq.
      destruct (Hcfg Hne) as (? & ? & Hpriv). simpl in *.
      split_and!; try done; try lia.
      intros Hlt. rewrite <- Pr. by apply Hpriv.
    + intros i j Hin. rewrite length_app. specialize (Rg i j Hin). lia.
Qed.

Lemma minv_callstopall o0 w :
  minv o0 w → minv o0 (m_set_calls w (m_calls w ++ [SALock])).
Proof.
  intros [M R Fa Mu Ph U P Pr Cf Rg]. split; simpl; try done.
  - rewrite sum_list_with_app. simpl. lia.
  - intros pc k f Hin Hk. apply elem_of_app in Hin as [Hin|Hin]; [eauto|].
    apply list_elem_of_singleton in Hin as ->. done.
  - intros i j Hin. apply elem_of_app in Hin as [Hin|Hin]; [eauto|].
    by apply list_elem_of_singleton in Hin.
Qed.

Lemma phase_insert (cs : list StopAllPc) t pc pc' (ps : list Fwd) :
  cs !! t = Some pc →
  (∀ t' pc2, t' ≠ t → cs !! t' = Some pc2 → holding pc2 = 0%nat) →
  (∀ k f, ps !! k = Some f → member_phase pc' k f) →
  ∀ pc2 k f, pc2 ∈ <[t := pc']> cs → ps !! k = Some f → member_phase pc2 k f.
Proof.
  intros Ht Hothers Hnew pc2 k f Hin Hk.
  apply list_elem_of_lookup in Hin as [t2 Ht2].
  destruct (decide (t2 = t)) as [->|Hne].
  - rewrite list_lookup_insert_eq in Ht2 by (by eapply lookup_lt_Some).
    simplify_eq. eauto.
  - rewrite list_lookup_insert_ne in Ht2 by done.
    apply not_holding_phase. eauto.
Qed.

Lemma inrange_insert (cs : list StopAllPc) t pc' (L : nat) :
  (∀ t' pc2, t' ≠ t → cs !! t' = Some pc2 → holding pc2 = 0%nat) →
  (∀ i j, pc' = SAStop i j → (i < L)%nat) →
  ∀ i j, SAStop i j ∈ <[t := pc']> cs → (i < L)%nat.
Proof.
  intros Hothers Hnew i j Hin.
  apply list_elem_of_lookup in Hin as [t2 Ht2].
  destruct (decide (t2 = t)) as [->|Hne].
  - apply list_lookup_insert_Some in Ht2 as [(_ & E & _)|[? _]]; [|done].
    eauto.
  - rewrite list_lookup_insert_ne in Ht2 by done.
    by specialize (Hothers _ _ Hne Ht2).
Qed.

(** The calls that do not make the step hold no mutex. *)
Lemma others_idle o0 w t pc r :
  minv o0 w → m_calls w !! t = Some pc → stopall_step w pc = Ok r →
  (m_mu w = true ↔ holding pc = 1%nat)
  ∧ ∀ t' pc2, t' ≠ t → m_calls w !! t' = Some pc2 → holding pc2 = 0%nat.
Proof.
  intros I Ht Hs.
  pose proof (mi_mutex _ _ I) as Mu.
  pose proof (sum_list_with_lookup_le holding _ _ _ Ht) as Hle.
  assert (Hcase : (m_mu w = false ∧ holding pc = 0%nat)
                  ∨ (m_mu w = true ∧ holding pc = 1%nat)).
  { destruct pc; simpl in *; try done; destruct (m_mu w); simplify_eq/=;
      eauto; lia. }
  split.
  - destruct Hcase as [[-> ->]|[-> ->]]; done.
  - intros t' pc2 Hne Ht'. destruct Hcase as [[Hmu Hh]|[Hmu Hh]].
    + pose proof (sum_list_with_lookup_le holding _ _ _ Ht') as Hle'.
      rewrite Mu, Hmu in Hle'. lia.
    + eapply (holder_unique (m_calls w) t t'); eauto.
      rewrite Mu, Hmu. lia.
Qed.

Ltac inrange :=
  by (eapply inrange_insert; [eassumption|]; intros ? ? ?; simplify_eq/=;
      rewrite ?length_insert; eapply lookup_lt_Some; eassumption).

Lemma minv_stopall o0 w t pc w' pc' :
  m_calls w !! t = Some pc → stopall_step w pc = Ok (w', pc') → minv o0 w →
  minv o0 (m_set_calls w' (<[t := pc']> (m_calls w))).
Proof.
  intros Ht Hs I.
  destruct (others_idle _ _ _ _ _ I Ht Hs) as [Hmu Hothers].
  pose proof (sum_list_with_insert holding _ t pc pc' Ht) as Hsum.
  pose proof I as [M R Fa Mu Ph U P Pr Cf Rg].
  assert (Hin : pc ∈ m_calls w) by (by eapply list_elem_of_lookup_2).
  destruct pc; simpl in Hs.
  - (* line 163 *)
    destruct (m_mu w) eqn:Emu; simplify_eq/=.
    split; simpl; try done; try (intros ?; congruence); try inrange.
    + lia.
    + eapply phase_insert; [done|done|]. intros k f Hk. simpl.
      exact (Forall_lookup_1 _ _ _ _ (U eq_refl) Hk).
  - (* line 166 *)
    assert (Emu : m_mu w = true) by (by apply Hmu).
    destruct (proxies (m_mgr w) !! i) as [f|] eqn:Hi.
    + pose proof (Forall_lookup_1 _ _ _ _ M Hi) as [If Hp].
      unfold on_member in Hs. rewrite Hi in Hs. simpl in Hs.
      rewrite (callstop_exec _ _ Hp) in Hs. simplify_eq/=.
      pose proof (Ph _ i f Hin Hi) as Pi. simpl in Pi.
      rewrite decide_False in Pi by lia.
      split; simpl; try done; try (intros ?; congruence); try inrange.
      * apply Forall_insert; [done|]. split; [|done].
        apply (invariant_exec CallStop (mkWorld (m_os w) f)); [|done].
        by apply callstop_exec.
      * rewrite Emu in *. simpl in Hsum. lia.
      * eapply phase_insert; [done|done|]. intros k g Hk.
        pose proof (Ph (SARange i) k) as Pk. simpl in *.
        destruct (decide (k = i)) as [->|Hne].
        -- rewrite list_lookup_insert_eq in Hk by (by eapply lookup_lt_Some).
           simplify_eq. repeat case_decide; try lia. simpl. by rewrite Pi.
        -- rewrite list_lookup_insert_ne in Hk by done.
           specialize (Pk g Hin Hk).
           repeat case_decide; try done; lia.
      * by erewrite fmap_insert_same.
      * apply Forall_insert; [done|].
        apply (member_cfg_exec o0 CallStop (m_os w) f (mkWorld (m_os w) _));
          [by apply callstop_exec|].
        exact (Forall_lookup_1 _ _ _ _ Cf Hi).
    + simplify_eq/=. split; simpl; try done; try (intros ?; congruence); try inrange.
      * rewrite Emu in *. simpl in Hsum. lia.
      * eapply phase_insert; [done|done|]. intros k g Hk.
        specialize (Ph _ k g Hin Hk). simpl in *.
        apply lookup_ge_None in Hi. apply lookup_lt_Some in Hk.
        by rewrite decide_True in Ph by lia.
  - (* line 167 *)
    assert (Emu : m_mu w = true) by (by apply Hmu).
    destruct (proxies (m_mgr w) !! i) as [f|] eqn:Hi; [|done].
    pose proof (Forall_lookup_1 _ _ _ _ M Hi) as [If Hp].
    pose proof (Ph _ i f Hin Hi) as Pi. simpl in Pi.
    rewrite decide_False in Pi by lia. rewrite decide_True in Pi by done.
    destruct Pi as [-> Hlen].
    assert (Hret : stops f !! 0%nat = Some SReturned ∨
                   (stops f !! 0%nat ≠ Some SReturned
                    ∧ ∃ w1, on_member w i (StopAct 0) = Some w1
                            ∧ w' = w1 ∧ pc' = SAStop i 0)).
    { destruct (stops f !! 0%nat) as [[]|] eqn:E0; eauto;
        right; (split; [done|]);
        destruct (on_member w i (StopAct 0)); simplify_eq/=; eauto. }
    destruct Hret as [E0|(E0 & w1 & Hw1 & -> & ->)].
    + rewrite E0 in Hs. simplify_eq/=. split; simpl; try done; try (intros ?; congruence); try inrange.
      * rewrite Emu in *. simpl in Hsum. lia.
      * eapply phase_insert; [done|done|]. intros k g Hk.
        specialize (Ph _ k g Hin Hk). simpl in *.
        destruct (decide (k = i)) as [->|Hne].
        -- rewrite decide_True by lia. simplify_eq.
           destruct (stops f) as [|s [|]]; simplify_eq/=. done.
        -- repeat case_decide; try done; lia.
    + clear Hs. unfold on_member in Hw1. rewrite Hi in Hw1. simpl in Hw1.
      destruct (exec (StopAct 0) (mkWorld (m_os w) f)) as [wx|] eqn:E;
        simplify_eq/=.
      pose proof (invariant_exec _ _ _ E If) as Ix.
      pose proof (stop_exec_length _ _ _ E) as Hlx. simpl in Hlx.
      assert (Hpx : panicked (w_fwd wx) = false).
      { eapply no_panic_exec; [done..|]. lia. }
      assert (Hos : clock (w_os wx) = clock (m_os w)
                    ∧ privileged (w_os wx) = privileged (m_os w)
                    ∧ bound (w_os wx) ⊆ bound (m_os w)).
      { destruct (stop_exec_frame _ _ _ _ E Hpx)
          as [[-> _]|(p & _ & _ & ->)]; simpl; split_and!; try done.
        intros x Hx. by apply elem_of_difference in Hx as [? _]. }
      destruct Hos as (Hck & Hpr & Hsub).
      split; simpl; try done; try (intros ?; congruence); try inrange.
      * apply Forall_insert.
        -- apply Forall_forall. intros g Hg. rewrite Forall_forall in M.
           destruct (M g Hg) as [Ig Hpg]. split; [|done].
           apply (invariant_os (m_os w)); [done|done|].
           intros l Hl Hcl. destruct Ig as [_ _ _ [_ _ S3 _] _]. simpl in *.
           specialize (S3 l Hl). rewrite Hcl in S3. destruct S3 as [_ S3].
           intros Hx. by apply S3, Hsub.
        -- split; [|done]. by destruct wx.
      * rewrite Emu in *. simpl in Hsum. lia.
      * eapply phase_insert; [done|done|]. intros k g Hk.
        pose proof (Ph (SAStop i 0) k) as Pk. simpl in *.
        destruct (decide (k = i)) as [->|Hne].
        -- rewrite list_lookup_insert_eq in Hk by (by eapply lookup_lt_Some).
           simplify_eq. repeat case_decide; try lia; try (split; [done|lia]).
        -- rewrite list_lookup_insert_ne in Hk by done.
           specialize (Pk g Hin Hk).
           repeat case_decide; try done; lia.
      * destruct (stop_exec_frame _ _ _ _ E Hpx)
          as [[-> Hop]|(p & Hop & Hop' & ->)]; simpl.
        -- by erewrite fmap_insert_same.
        -- rewrite list_fmap_insert, Hop'. apply ports_ok_close; [|done].
           by rewrite list_lookup_fmap, Hi, <- Hop.
      * by rewrite Hpr.
      * apply Forall_insert; [done|]. eapply member_cfg_exec; [done|].
        exact (Forall_lookup_1 _ _ _ _ Cf Hi).
  - (* line 169 *)
    assert (Emu : m_mu w = true) by (by apply Hmu).
    simplify_eq/=. split; simpl; try done; try (intros ?; congruence); try inrange.
    + apply Forall_app. split; [done|].
      apply Forall_lookup. intros k f Hk.
      pose proof (Forall_lookup_1 _ _ _ _ M Hk) as [If Hp].
      specialize (Ph _ k f Hin Hk). simpl in Ph.
      split; [|done]. destruct If as [_ _ _ [_ _ _ S4] _]. simpl in S4.
      apply S4. rewrite Ph. apply list_elem_of_here.
    + rewrite Emu in *. simpl in Hsum. lia.
    + eapply ports_ok_none; [|done].
      apply Forall_fmap, Forall_lookup. intros k f Hk. simpl.
      pose proof (Forall_lookup_1 _ _ _ _ M Hk) as [If Hp].
      specialize (Ph _ k f Hin Hk). simpl in Ph.
      eapply open_port_closed; [done|].
      destruct If as [_ _ _ [_ S2 _ _] _]. simpl in S2.
      rewrite S2, Ph. simpl. lia.
  - (* line 164 *)
    destruct (m_mu w) eqn:Emu; simplify_eq/=.
    assert (Hnone : ∀ k f, proxies (m_mgr w) !! k = Some f → False).
    { intros k f Hk. exact (Ph _ k f Hin Hk). }
    split; simpl; try done; try (intros ?; congruence); try inrange.
    + lia.
    + eapply phase_insert; [done|done|]. intros k f Hk. done.
    + intros _. apply Forall_lookup. intros k f Hk.
      destruct (Hnone k f Hk).
  - done.
Qed.

Lemma stopall_no_crash o0 w t pc :
  minv o0 w → m_calls w !! t = Some pc → stopall_step w pc ≠ Crash.
Proof.
  intros I Ht. pose proof (mi_mutex _ _ I) as Mu.
  pose proof (sum_list_with_lookup_le holding _ _ _ Ht) as Hle.
  destruct pc; simpl; repeat case_match; try done.
  simpl in Hle. rewrite Mu in Hle. simplify_eq/=. lia.
Qed.

Lemma minv_mexec o0 a w w' : mexec a w = Some w' → minv o0 w → minv o0 w'.
Proof.
  unfold mexec. intros H I. destruct (m_dead w); [done|]. destruct a.
  - destruct (m_mu w) eqn:Emu; [done|].
    destruct (Add _ _ _ _ _) as [[err o'] m'] eqn:EA. simplify_eq/=.
    rewrite <- Emu. by eapply minv_add.
  - simplify_eq/=. by apply minv_callstopall.
  - destruct (m_calls w !! t) as [pc|] eqn:Ht; simplify_eq/=.
    destruct (stopall_step w pc) as [|[w1 pc1]|] eqn:E; simplify_eq/=.
    + by eapply minv_stopall.
    + by destruct (stopall_no_crash _ _ _ _ I Ht).
  - destruct (local_action a) eqn:El; [|done]. by eapply minv_member.
  - destruct (local_action a) eqn:El; [|done]. by eapply minv_retired.
  - destruct (bool_decide (0 < dt)) eqn:Hdt; [|done].
    destruct (forallb _ _) eqn:Hd; [|done]. simplify_eq/=.
    apply bool_decide_eq_true in Hdt. by apply minv_tick.
Qed.

Lemma minv_init o : minv o (m_init o).
Proof.
  split; simpl; try done.
  - split.
    + intros k1 k2 p H. done.
    + intros p. split; [by left|]. intros [?|Hin]; [done|].
      by apply elem_of_nil in Hin.
    + intros p Hin. by apply elem_of_nil in Hin.
  - intros i j Hin. by apply elem_of_nil in Hin.
Qed.

Lemma minv_reachable o w : mreachable o w → minv o w.
Proof.
  intros [tr Hr]. revert Hr. generalize (minv_init o).
  generalize (m_init o). induction tr as [|a tr IH]; intros w0 I Hr.
  - by simplify_eq/=.
  - simpl in Hr. destruct (mexec a w0) as [w1|] eqn:E; simplify_eq/=.
    eapply IH; [|done]. by eapply minv_mexec.
Qed.

Lemma mrun_app tr1 tr2 w :
  mrun (tr1 ++ tr2) w = mrun tr1 w ≫= mrun tr2.
Proof.
  revert w. induction tr1 as [|a tr1 IH]; intros w; simpl; [done|].
  destruct (mexec a w); simpl; [apply IH|done].
Qed.

Lemma mw_two_reachable : mreachable os_free mw_two.
Proof. exists mtr_two. vm_compute. reflexivity. Qed.
Lemma mw_clearing_reachable : mreachable os_free mw_clearing.
Proof. exists mtr_clearing. vm_compute. reflexivity. Qed.
Lemma mw_twice_reachable : mreachable os_free mw_twice.
Proof. exists mtr_twice. vm_compute. reflexivity. Qed.

(** ** StopAll and Add *)

(** X5. A process that reaches its Proxies through a Manager never panics,
    whatever the number of calls of [StopAll] and however they interleave
    with [Add], the goroutines and the peers: [Stop] is called at most once
    on every Proxy, and no call unlocks a mutex it does not hold. *)
Theorem StopAll_never_panics (o : OS) (w : MWorld) :
  mreachable o w →
  m_dead w = false
  ∧ Forall (λ f, (length (stops f) ≤ 1)%nat) (proxies (m_mgr w))
  ∧ ∀ t pc, m_calls w !! t = Some pc → stopall_step w pc ≠ Crash.
Proof.
  intros Hr. apply minv_reachable in Hr as I. split; [|split].
  - apply m_dead_false. split; [by destruct I|].
    apply Forall_app. split.
    + eapply Forall_impl; [exact (mi_members _ _ I)|]. by intros f [_ ?].
    + eapply Forall_impl; [exact (mi_retired _ _ I)|]. by intros f [_ ?].
  - apply Forall_lookup. intros k f Hk. by eapply member_stops.
  - intros t pc Ht. by eapply stopall_no_crash.
Qed.

Lemma StopAll_never_panics_witness :
  m_dead mw_twice = false ∧ m_calls mw_twice = [SAReturned; SAReturned].
Proof.
  split.
  - apply (StopAll_never_panics os_free mw_twice mw_twice_reachable).
  - vm_compute. reflexivity.
Defined.

(** X6. When a call of [StopAll] reaches line 169, every Proxy of the
    Manager has been stopped by it: no goroutine of the Proxy is left, its
    listener was closed once, its port no longer listens, and the ports that
    listen are those that did before the Manager was made.  When the call
    unlocks, the Manager lists no Proxy.  The Proxies it dropped stay
    without goroutines, and a Manager without Proxies holds no port. *)
Theorem StopAll_joins_and_releases (o : OS) (w : MWorld) (t : nat) :
  mreachable o w →
  (m_calls w !! t = Some SAClear →
     Forall (λ f, quiescent f ∧ stops f = [SReturned] ∧ lcloses f = 1%nat
                  ∧ open_port f = None) (proxies (m_mgr w))
     ∧ bound (m_os w) = bound o)
  ∧ (m_calls w !! t = Some SAUnlock → proxies (m_mgr w) = [])
  ∧ Forall quiescent (m_retired w)
  ∧ (proxies (m_mgr w) = [] → bound (m_os w) = bound o).
Proof.
  intros Hr. apply minv_reachable in Hr as I.
  pose proof I as [M R Fa Mu Ph U P Pr Cf Rg].
  assert (Hclear : m_calls w !! t = Some SAClear →
            Forall (λ f, quiescent f ∧ stops f = [SReturned]
                         ∧ lcloses f = 1%nat ∧ open_port f = None)
                   (proxies (m_mgr w))).
  { intros Ht. apply Forall_lookup. intros k f Hk.
    apply list_elem_of_lookup_2 in Ht.
    pose proof (Ph _ k f Ht Hk) as Hs. simpl in Hs.
    pose proof (Forall_lookup_1 _ _ _ _ M Hk) as [If _].
    pose proof If as [_ _ _ [_ S2 _ S4] _]. simpl in *.
    assert (Hl : lcloses f = 1%nat) by (by rewrite S2, Hs).
    split_and!; try done.
    - apply S4. rewrite Hs. apply list_elem_of_here.
    - eapply open_port_closed; [done|lia]. }
  split_and!.
  - intros Ht. split; [by apply Hclear|].
    eapply ports_ok_nil_eq, ports_ok_none; [|done].
    apply Forall_fmap. eapply Forall_impl; [by apply Hclear|].
    by intros f (_ & _ & _ & ?).
  - intros Ht. apply list_elem_of_lookup_2 in Ht.
    destruct (proxies (m_mgr w)) as [|f ps] eqn:E; [done|].
    by destruct (Ph SAUnlock 0%nat f Ht).
  - eapply Forall_impl; [done|]. by intros f [? _].
  - intros E. rewrite E in P. by apply ports_ok_nil_eq in P.
Qed.

Lemma StopAll_joins_and_releases_witness :
  Forall (λ f, quiescent f ∧ stops f = [SReturned] ∧ lcloses f = 1%nat
               ∧ open_port f = None) (proxies (m_mgr mw_clearing))
  ∧ length (proxies (m_mgr mw_clearing)) = 2%nat
  ∧ bound (m_os mw_clearing) = ∅.
Proof.
  destruct (StopAll_joins_and_releases os_free mw_clearing 0
              mw_clearing_reachable) as (H & _).
  destruct H as [H1 H2]; [vm_compute; reflexivity|].
  split; [exact H1|]. split; [vm_compute; reflexivity|exact H2].
Defined.

(** X7. At most one call of [StopAll] is between its [Lock] and its
    [Unlock], and the mutex is held exactly while there is one. *)
Theorem StopAll_mutual_exclusion (o : OS) (w : MWorld) (t t' : nat)
    (pc pc' : StopAllPc) :
  mreachable o w →
  m_calls w !! t = Some pc → m_calls w !! t' = Some pc' →
  holding pc = 1%nat → holding pc' = 1%nat →
  t = t' ∧ m_mu w = true.
Proof.
  intros Hr Ht Ht' Hh Hh'. apply minv_reachable in Hr as I.
  pose proof (mi_mutex _ _ I) as Mu.
  pose proof (sum_list_with_lookup_le holding _ _ _ Ht) as Hle.
  destruct (m_mu w); [|lia]. split; [|done].
  destruct (decide (t = t')) as [|Hne]; [done|].
  pose proof (holder_unique _ _ _ _ _ ltac:(rewrite Mu; lia) Ht Ht' Hne Hh).
  lia.
Qed.

Lemma StopAll_mutual_exclusion_witness :
  m_calls mw_clearing = [SAClear; SALock] ∧ m_mu mw_clearing = true.
Proof.
  split; [vm_compute; reflexivity|].
  apply (StopAll_mutual_exclusion os_free mw_clearing 0 0 SAClear SAClear
           mw_clearing_reachable); vm_compute; reflexivity.
Defined.

(** X8. While no call of [StopAll] holds the mutex, every Proxy the Manager
    lists is in service: [Stop] was never called on it, its listener is
    open, its port listens, was free before the Manager was made, and is
    the port of no other Proxy of the Manager. *)
Theorem Manager_serves_until_StopAll (o : OS) (w : MWorld) (k : nat) (f : Fwd) :
  mreachable o w → m_mu w = false → proxies (m_mgr w) !! k = Some f →
  stops f = [] ∧ done_closed (px f) = false
  ∧ ∃ l, listener (px f) = Some l ∧ l_closed l = false
         ∧ l_port l ∈ bound (m_os w) ∧ (l_port l ∉ bound o)
         ∧ ∀ k' f' l', proxies (m_mgr w) !! k' = Some f' →
                       listener (px f') = Some l' → l_port l' = l_port l →
                       k' = k.
Proof.
  intros Hr Hmu Hk. apply minv_reachable in Hr as I.
  pose proof I as [M R Fa Mu Ph U P Pr Cf Rg].
  pose proof (U Hmu) as U'.
  pose proof (Forall_lookup_1 _ _ _ _ U' Hk) as Hs.
  pose proof (Forall_lookup_1 _ _ _ _ M Hk) as [If _].
  destruct (open_port_never_stopped _ _ If Hs) as (l & Hl & Hc & Hop).
  assert (Hin : Some (l_port l) ∈ open_port <$> proxies (m_mgr w)).
  { apply list_elem_of_lookup. exists k. by rewrite list_lookup_fmap, Hk, <- Hop. }
  split; [done|]. split.
  { destruct If as [_ _ _ [S1 _ _ _] _]. simpl in S1. rewrite Hs in S1.
    simpl in S1. by destruct (done_closed (px f)). }
  exists l. split_and!; try done.
  - apply (po_bound _ _ _ P). by right.
  - by apply (po_foreign _ _ _ P).
  - intros k' f' l' Hk' Hl' Hpe.
    pose proof (Forall_lookup_1 _ _ _ _ U' Hk') as Hs'.
    pose proof (Forall_lookup_1 _ _ _ _ M Hk') as [If' _].
    destruct (open_port_never_stopped _ _ If' Hs') as (l2 & Hl2 & _ & Hop').
    assert (l2 = l') as -> by congruence.
    apply (po_nodup _ _ _ P k' k (l_port l)).
    + by rewrite list_lookup_fmap, Hk', <- Hpe, <- Hop'.
    + by rewrite list_lookup_fmap, Hk, <- Hop.
Qed.

Lemma Manager_serves_until_StopAll_witness :
  bound (m_os mw_two) = {[8000; 8001]}
  ∧ ∃ f, proxies (m_mgr mw_two) !! 1%nat = Some f ∧ stops f = [].
Proof.
  split; [vm_compute; reflexivity|].
  destruct (proxies (m_mgr mw_two) !! 1%nat) as [f|] eqn:Hk;
    [|vm_compute in Hk; discriminate].
  exists f. split; [done|].
  apply (Manager_serves_until_StopAll os_free mw_two 1 f mw_two_reachable
           eq_refl Hk).
Defined.

Lemma Manager_serves_until_StopAll_aux o w k f :
  mreachable o w → m_mu w = false → proxies (m_mgr w) !! k = Some f →
  ∃ l, listener (px f) = Some l ∧ l_port l ∈ bound (m_os w).
Proof.
  intros Hr Hmu Hk. apply minv_reachable in Hr as I.
  pose proof I as [M R Fa Mu Ph U P Pr Cf Rg].
  pose proof (Forall_lookup_1 _ _ _ _ (U Hmu) Hk) as Hs.
  pose proof (Forall_lookup_1 _ _ _ _ M Hk) as [If _].
  destruct (open_port_never_stopped _ _ If Hs) as (l & Hl & Hc & Hop).
  exists l. split; [done|]. apply (po_bound _ _ _ P). right.
  apply list_elem_of_lookup. exists k. by rewrite list_lookup_fmap, Hk, <- Hop.
Qed.

(** X9. [Add] for the port of a Proxy the Manager has in service fails:
    [net.Listen] answers that the address is in use, [Add] returns that
    error wrapped by [Start], and neither the Manager nor the system has
    changed. *)
Theorem Add_of_served_port_fails (o : OS) (w : MWorld) (k : nat) (f : Fwd)
    (remoteHost : string) (remotePort : Z) :
  mreachable o w → m_mu w = false → proxies (m_mgr w) !! k = Some f →
  LocalPort (px f) ≠ 0 →
  Add (m_os w) (m_mgr w) (LocalPort (px f)) remoteHost remotePort
  = (Some (bind_error (LocalPort (px f)) (OpError EADDRINUSE)),
     m_os w, m_mgr w).
Proof.
  intros Hr Hmu Hk Hne.
  destruct (Manager_serves_until_StopAll_aux o w k f Hr Hmu Hk)
    as (l & Hl & Hin).
  apply minv_reachable in Hr as I.
  pose proof (Forall_lookup_1 _ _ _ _ (mi_cfg _ _ I) Hk l Hl Hne)
    as (Hp & Hrange & Hpriv).
  rewrite Hp in Hin.
  assert (EL : net_Listen (m_os w) (LocalPort (px f))
               = inl (OpError EADDRINUSE)).
  { unfold net_Listen.
    rewrite bool_decide_eq_false_2 by lia.
    rewrite bool_decide_eq_false_2 by done.
    destruct (bool_decide (LocalPort (px f) < 1024)) eqn:E1024.
    - apply bool_decide_eq_true in E1024.
      rewrite (mi_priv _ _ I), (Hpriv E1024). simpl.
      by rewrite bool_decide_eq_true_2.
    - simpl. by rewrite bool_decide_eq_true_2. }
  unfold Add.
  by rewrite (Start_failure _ (New (LocalPort (px f)) remoteHost remotePort)
                _ EL).
Qed.

Lemma Add_of_served_port_fails_witness :
  Add (m_os mw_two) (m_mgr mw_two) 8001 "localhost" 9
  = (Some (bind_error 8001 (OpError EADDRINUSE)), m_os mw_two, m_mgr mw_two).
Proof.
  destruct (proxies (m_mgr mw_two) !! 1%nat) as [f|] eqn:Hk;
    [|vm_compute in Hk; discriminate].
  assert (Hp : LocalPort (px f) = 8001).
  { assert (E : Some f = proxies (m_mgr mw_two) !! 1%nat) by done.
    vm_compute in E. by injection E as ->. }
  rewrite <- Hp.
  apply (Add_of_served_port_fails os_free mw_two 1 f "localhost" 9
           mw_two_reachable eq_refl Hk).
  rewrite Hp. done.
Defined.

(** * A schedule on which [StopAll] returns *)

Lemma minv_alive o0 m : minv o0 m → m_dead m = false.
Proof.
  intros I. apply m_dead_false. split; [by destruct I|].
  apply Forall_app. split.
  - eapply Forall_impl; [exact (mi_members _ _ I)|]. by intros f [_ ?].
  - eapply Forall_impl; [exact (mi_retired _ _ I)|]. by intros f [_ ?].
Qed.

(** A step of the Forwarder that [StopAll] is stopping is a step of the
    process: of the call of [StopAll] when it is the step of [Stop], of the
    Forwarder otherwise. *)
Lemma lift_step o0 m t k f a w1 :
  minv o0 m → m_calls m !! t = Some (SAStop k 0) →
  proxies (m_mgr m) !! k = Some f →
  exec a (mkWorld (m_os m) f) = Some w1 → drains 0 a = true →
  ∃ ma, stopall_or_env t ma
        ∧ mexec ma m
          = Some (mkMWorld (w_os w1)
                    (mkManager (<[k := w_fwd w1]> (proxies (m_mgr m))))
                    (m_mu m) (m_retired m) (m_calls m) (m_fatal m)).
Proof.
  intros I Ht Hk He Hd. pose proof (minv_alive _ _ I) as Ha.
  assert (Hcase : a = StopAct 0 ∨ local_action a = true).
  { destruct a as [[]| i []| | |j| | | |]; simpl in Hd; try done; eauto.
    apply bool_decide_eq_true in Hd as ->. by left. }
  destruct Hcase as [->|Hl].
  - exists (MStopAll t). split; [by left|].
    unfold mexec. rewrite Ha, Ht. simpl. rewrite Hk.
    assert (Hs : ∃ pc, stops f !! 0%nat = Some pc ∧ pc ≠ SReturned).
    { unfold exec in He. simpl in He. destruct (panicked f); [done|].
      destruct (stops f !! 0%nat) as [pc|]; [|done]. exists pc.
      split; [done|]. intros ->. done. }
    destruct Hs as (pc & Hs & Hne). rewrite Hs.
    unfold on_member. rewrite Hk. simpl. rewrite He. simpl.
    destruct pc; try done; simpl; unfold m_set_calls; simpl;
      by rewrite (list_insert_id _ _ _ Ht).
  - exists (MMember k a). split; [right; eauto|].
    unfold mexec. rewrite Ha, Hl.
    unfold on_member. rewrite Hk. simpl. by rewrite He.
Qed.

Lemma lift_run o0 t k tr :
  ∀ m f w',
    minv o0 m → m_calls m !! t = Some (SAStop k 0) →
    proxies (m_mgr m) !! k = Some f →
    run tr (mkWorld (m_os m) f) = Some w' → forallb (drains 0) tr = true →
    ∃ mtr m', mrun mtr m = Some m' ∧ minv o0 m'
              ∧ Forall (stopall_or_env t) mtr
              ∧ m_calls m' = m_calls m
              ∧ proxies (m_mgr m') = <[k := w_fwd w']> (proxies (m_mgr m)).
Proof.
  induction tr as [|a tr IH]; intros m f w' I Ht Hk Hr Hd.
  - simplify_eq/=. exists [], m. split_and!; try done.
    by rewrite list_insert_id.
  - simpl in Hr, Hd. apply andb_prop in Hd as [Hd Hds].
    destruct (exec a (mkWorld (m_os m) f)) as [w1|] eqn:He; simplify_eq/=.
    destruct (lift_step _ _ _ _ _ _ _ I Ht Hk He Hd) as (ma & Hma & Hm).
    pose proof (minv_mexec _ _ _ _ Hm I) as I1.
    pose proof (lookup_lt_Some _ _ _ Hk) as Hlt.
    destruct (IH _ (w_fwd w1) w' I1)
      as (mtr & m' & Hrun & I' & Hf & Hc & Hp); simpl; try done.
    + by apply list_lookup_insert_eq.
    + by destruct w1.
    + exists (ma :: mtr), m'. simpl. rewrite Hm. simpl.
      simpl in Hp. split_and!; try done; [by apply Forall_cons|].
      by rewrite Hp, list_insert_insert_eq.
Qed.

Lemma mexec_stopall o0 m t pc m1 pc1 :
  minv o0 m → m_calls m !! t = Some pc → stopall_step m pc = Ok (m1, pc1) →
  mexec (MStopAll t) m = Some (m_set_calls m1 (<[t := pc1]> (m_calls m))).
Proof.
  intros I Ht Hs. unfold mexec. rewrite (minv_alive _ _ I), Ht. simpl.
  by rewrite Hs.
Qed.

(** The call of [StopAll] that holds the mutex can run to its end. *)
Lemma holder_returns o0 n :
  ∀ m t pc,
    (remaining (length (proxies (m_mgr m))) pc < n)%nat →
    minv o0 m → m_calls m !! t = Some pc → holding pc = 1%nat →
    ∃ mtr m', mrun mtr m = Some m' ∧ minv o0 m'
              ∧ Forall (stopall_or_env t) mtr
              ∧ m_calls m' = <[t := SAReturned]> (m_calls m).
Proof.
  induction n as [|n IH]; intros m t pc Hn I Ht Hh; [lia|].
  assert (Hin : pc ∈ m_calls m) by (by eapply list_elem_of_lookup_2).
  pose proof (lookup_lt_Some _ _ _ Ht) as Htl.
  (* one step of the call, then the rest *)
  assert (Hstep : ∀ m0 pc0 m1 pc1,
            minv o0 m0 → m_calls m0 = m_calls m → m_calls m0 !! t = Some pc0 →
            stopall_step m0 pc0 = Ok (m1, pc1) → m_calls m1 = m_calls m0 →
            holding pc1 = 1%nat ∨ pc1 = SAReturned →
            (remaining (length (proxies (m_mgr m1))) pc1 < n)%nat →
            (∃ mtr, mrun mtr m = Some m0 ∧ Forall (stopall_or_env t) mtr) →
            ∃ mtr m', mrun mtr m = Some m' ∧ minv o0 m'
                      ∧ Forall (stopall_or_env t) mtr
                      ∧ m_calls m' = <[t := SAReturned]> (m_calls m)).
  { intros m0 pc0 m1 pc1 I0 Hc0 Ht0 Hs Hc1 Hh1 Hr1 (mtr0 & Hrun0 & Hf0).
    assert (Hsa : stopall_or_env t (MStopAll t)) by (by left).
    pose proof (mexec_stopall _ _ _ _ _ _ I0 Ht0 Hs) as Hm.
    pose proof (minv_mexec _ _ _ _ Hm I0) as I1.
    set (m2 := m_set_calls m1 (<[t := pc1]> (m_calls m0))) in *.
    assert (Ht2 : m_calls m2 !! t = Some pc1).
    { simpl. apply list_lookup_insert_eq. by rewrite Hc0. }
    destruct Hh1 as [Hh1| ->].
    - destruct (IH m2 t pc1) as (mtr & m' & Hrun & I' & Hf & Hc'); try done.
      exists (mtr0 ++ MStopAll t :: mtr), m'.
      rewrite mrun_app, Hrun0. simpl. rewrite Hm. simpl.
      split_and!; try done.
      + apply Forall_app. split; [done|]. by apply Forall_cons.
      + rewrite Hc'. simpl. by rewrite list_insert_insert_eq, Hc0.
    - exists (mtr0 ++ [MStopAll t]), m2.
      rewrite mrun_app, Hrun0. simpl. rewrite Hm. simpl.
      split_and!; try done.
      + apply Forall_app. split; [done|]. by apply Forall_singleton.
      + by rewrite Hc0. }
  destruct pc; try done.
  - (* line 166 *)
    destruct (proxies (m_mgr m) !! i) as [f|] eqn:Hi.
    + pose proof (Forall_lookup_1 _ _ _ _ (mi_members _ _ I) Hi) as [If Hp].
      pose proof (mi_phase _ _ I _ i f Hin Hi) as Pi. simpl in Pi.
      rewrite decide_False in Pi by lia.
      eapply (Hstep m (SARange i)
                (mkMWorld (m_os m)
                   (mkManager (<[i := f_set_stops f (stops f ++ [SCloseDone])]>
                                 (proxies (m_mgr m))))
                   (m_mu m) (m_retired m) (m_calls m) (m_fatal m))
                (SAStop i 0)); try done.
      * simpl. rewrite Hi. unfold on_member. rewrite Hi. simpl.
        rewrite (callstop_exec _ _ Hp). simpl. by rewrite Pi.
      * by left.
      * simpl. rewrite length_insert. simpl in Hn.
        apply lookup_lt_Some in Hi. lia.
      * by exists [].
    + eapply (Hstep m (SARange i) m SAClear); try done.
      * simpl. by rewrite Hi.
      * by left.
      * simpl in *. lia.
      * by exists [].
  - (* line 167 *)
    pose proof (mi_inrange _ _ I i j Hin) as Hil.
    destruct (lookup_lt_is_Some_2 _ _ Hil) as [f Hi].
    pose proof (Forall_lookup_1 _ _ _ _ (mi_members _ _ I) Hi) as [If Hp].
    pose proof (mi_phase _ _ I _ i f Hin Hi) as Pi. simpl in Pi.
    rewrite decide_False in Pi by lia. rewrite decide_True in Pi by done.
    destruct Pi as [-> Hlen].
    destruct (stops f) as [|pc0 [|]] eqn:Es; simplify_eq/=.
    (* [Stop] on Proxy [i] runs to its end *)
    destruct (Stop_returns_within (S (rank 0 (mkWorld (m_os m) f)))
                (mkWorld (m_os m) f) 0 pc0)
      as (tr & w' & Hrun & Hp' & Hj' & Hdr & _); simpl; try done; [lia|..].
    { by rewrite Es. }
    { intros ->. destruct If as [_ _ _ [S1 _ _ _] _]. simpl in S1.
      rewrite Es in S1. simpl in S1. by destruct (done_closed (px f)). }
    destruct (lift_run _ _ _ _ _ _ _ I Ht Hi Hrun Hdr)
      as (mtr0 & m0 & Hrun0 & I0 & Hf0 & Hc0 & Hp0).
    eapply (Hstep m0 (SAStop i 0) m0 (SARange (S i))); try done.
    + by rewrite Hc0.
    + simpl. rewrite Hp0, list_lookup_insert_eq by done. by rewrite Hj'.
    + by left.
    + rewrite Hp0, length_insert. simpl in *. lia.
    + by exists mtr0.
  - (* line 169 *)
    eapply (Hstep m SAClear
              (mkMWorld (m_os m) (mkManager []) (m_mu m)
                        (m_retired m ++ proxies (m_mgr m)) (m_calls m)
                        (m_fatal m))
              SAUnlock); try done.
    + by left.
    + simpl in *. lia.
    + by exists [].
  - (* line 164 *)
    assert (Hmu : m_mu m = true).
    { pose proof (mi_mutex _ _ I) as Mu.
      pose proof (sum_list_with_lookup_le holding _ _ _ Ht) as Hle.
      simpl in Hle. destruct (m_mu m); [done|lia]. }
    eapply (Hstep m SAUnlock (m_set_mu m false) SAReturned); try done.
    + simpl. by rewrite Hmu.
    + by right.
    + simpl in *. lia.
    + by exists [].
Qed.

Lemma unlocked_returns o0 m t :
  minv o0 m → m_calls m !! t = Some SALock → m_mu m = false →
  ∃ mtr m', mrun mtr m = Some m' ∧ minv o0 m'
            ∧ Forall (stopall_or_env t) mtr
            ∧ m_calls m' !! t = Some SAReturned.
Proof.
  intros I Ht Hmu. pose proof (lookup_lt_Some _ _ _ Ht) as Htl.
  assert (Hs : stopall_step m SALock = Ok (m_set_mu m true, SARange 0))
    by (simpl; by rewrite Hmu).
  pose proof (mexec_stopall _ _ _ _ _ _ I Ht Hs) as Hm.
  pose proof (minv_mexec _ _ _ _ Hm I) as I1.
  set (m1 := m_set_calls (m_set_mu m true) (<[t := SARange 0]> (m_calls m)))
    in *.
  destruct (holder_returns o0 (S (remaining (length (proxies (m_mgr m1)))
                                    (SARange 0))) m1 t (SARange 0))
    as (mtr & m' & Hrun & I' & Hf & Hc); try done; [lia| |].
  { simpl. by apply list_lookup_insert_eq. }
  exists (MStopAll t :: mtr), m'. simpl. rewrite Hm. simpl.
  split_and!; try done.
  - apply Forall_cons. split; [by left|done].
  - rewrite Hc. apply list_lookup_insert_eq. simpl. by rewrite length_insert.
Qed.

(** The one call of [StopAll] of a process runs to its end on a schedule
    of its own steps and of the goroutines and peers. *)
Lemma call_returns o0 m t pc :
  minv o0 m → m_calls m !! t = Some pc → (pc = SALock → m_mu m = false) →
  ∃ mtr m', mrun mtr m = Some m' ∧ minv o0 m'
            ∧ Forall (stopall_or_env t) mtr
            ∧ m_calls m' !! t = Some SAReturned.
Proof.
  intros I Ht Hmu. pose proof (lookup_lt_Some _ _ _ Ht) as Htl.
  assert (Hcase : pc = SAReturned ∨ holding pc = 1%nat ∨ pc = SALock)
    by (destruct pc; eauto).
  destruct Hcase as [->|[Hh| ->]].
  - by exists [], m.
  - destruct (holder_returns o0 (S (remaining (length (proxies (m_mgr m))) pc))
                m t pc) as (mtr & m' & Hrun & I' & Hf & Hc);
      try done; [lia|].
    exists mtr, m'. split_and!; try done.
    rewrite Hc. by apply list_lookup_insert_eq.
  - by apply unlocked_returns; [..|apply Hmu].
Qed.

(** X21. A call of [StopAll] can always return: from every state of a
    process that uses a Manager, whatever the other calls of [StopAll] and
    of [Add] have done, some schedule brings the call to its end (the call
    that holds the mutex first, if there is one), and nothing panics on
    the way. *)
Theorem StopAll_can_return (o : OS) (m : MWorld) (t : nat) (pc : StopAllPc) :
  mreachable o m → m_calls m !! t = Some pc →
  ∃ mtr m', mrun mtr m = Some m' ∧ m_calls m' !! t = Some SAReturned
            ∧ m_dead m' = false.
Proof.
  intros Hr Ht. apply minv_reachable in Hr as I.
  pose proof (lookup_lt_Some _ _ _ Ht) as Htl.
  assert (H : ∃ mtr m', mrun mtr m = Some m' ∧ minv o m'
                        ∧ m_calls m' !! t = Some SAReturned).
  { assert (Hcase : pc = SAReturned ∨ holding pc = 1%nat ∨ pc = SALock)
      by (destruct pc; eauto).
    destruct Hcase as [->|[Hh| ->]].
    - by exists [], m.
    - destruct (holder_returns o (S (remaining (length (proxies (m_mgr m))) pc))
                  m t pc) as (mtr & m' & Hrun & I' & _ & Hc);
        try done; [lia|].
      exists mtr, m'. split_and!; try done.
      rewrite Hc. by apply list_lookup_insert_eq.
    - destruct (m_mu m) eqn:Hmu.
      2:{ destruct (unlocked_returns o m t I Ht Hmu)
            as (mtr & m' & ? & ? & _ & ?). by exists mtr, m'. }
      (* another call holds the mutex: it returns first *)
      pose proof (mi_mutex _ _ I) as Mu. rewrite Hmu in Mu.
      destruct (holder_exists (m_calls m)) as (pc' & Hin & Hh'); [lia|].
      apply list_elem_of_lookup in Hin as [t' Ht'].
      assert (Hne : t ≠ t') by (intros ->; by simplify_eq).
      destruct (holder_returns o (S (remaining (length (proxies (m_mgr m))) pc'))
                  m t' pc') as (mtr1 & m1 & Hrun1 & I1 & _ & Hc1);
        try done; [lia|].
      assert (Ht1 : m_calls m1 !! t = Some SALock).
      { rewrite Hc1. by rewrite list_lookup_insert_ne. }
      assert (Hmu1 : m_mu m1 = false).
      { pose proof (mi_mutex _ _ I1) as Mu1. rewrite Hc1 in Mu1.
        pose proof (sum_list_with_insert holding _ t' pc' SAReturned Ht') as E.
        simpl in E. destruct (m_mu m1); [lia|done]. }
      destruct (unlocked_returns o m1 t I1 Ht1 Hmu1)
        as (mtr2 & m2 & Hrun2 & I2 & _ & Hc2).
      exists (mtr1 ++ mtr2), m2. rewrite mrun_app, Hrun1. simpl.
      by split_and!. }
  destruct H as (mtr & m' & Hrun & I' & Hc).
  exists mtr, m'. split_and!; try done. by eapply minv_alive.
Qed.

Lemma StopAll_can_return_witness :
  ∃ mtr m', mrun mtr mw_clearing = Some m'
            ∧ m_calls m' !! 1%nat = Some SAReturned.
Proof.
  destruct (StopAll_can_return os_free mw_clearing 1 SALock
              mw_clearing_reachable)
    as (mtr & m' & Hrun & Hc & _); [vm_compute; reflexivity|].
  by exists mtr, m'.
Defined.

(** * Validation and configuration: properties *)

Lemma ValidatePort_None port :
  ValidatePort port = None ↔ MinPort ≤ port ≤ MaxPort.
Proof.
  unfold ValidatePort. case_bool_decide; split; try done; lia.
Qed.

Lemma ValidatePorts_loop_None seen ports :
  ValidatePorts_loop seen ports = None
  ↔ Forall (λ p, MinPort ≤ p ≤ MaxPort) ports ∧ NoDup ports
    ∧ ∀ p, p ∈ ports → p ∉ seen.
Proof.
  revert seen. induction ports as [|port rest IH]; intros seen; simpl.
  - split; [|done]. intros _. split_and!; [done|apply NoDup_nil_2|].
    intros p Hp. by apply elem_of_nil in Hp.
  - destruct (ValidatePort port) as [e|] eqn:Ep.
    + split; [done|]. intros (Hf & _ & _).
      apply Forall_cons in Hf as [Hf _].
      apply ValidatePort_None in Hf. congruence.
    + apply ValidatePort_None in Ep. case_bool_decide as Hs.
      * split; [done|]. intros (_ & _ & Hn).
        destruct (Hn port); [apply list_elem_of_here|done].
      * rewrite IH. split.
        -- intros (Hf & Hd & Hn). split_and!.
           ++ by apply Forall_cons.
           ++ apply NoDup_cons. split; [|done]. intros Hin.
              apply (Hn _ Hin). apply elem_of_union. left.
              by apply elem_of_singleton.
           ++ intros p Hp. apply elem_of_cons in Hp as [->|Hp]; [done|].
              intros Hps. apply (Hn _ Hp). apply elem_of_union. by right.
        -- intros (Hf & Hd & Hn).
           apply Forall_cons in Hf as [_ Hf].
           apply NoDup_cons in Hd as [Hni Hd]. split_and!; try done.
           intros p Hp Hu. apply elem_of_union in Hu as [Hu|Hu].
           ++ apply elem_of_singleton in Hu as ->. done.
           ++ apply (Hn p); [by apply list_elem_of_further|done].
Qed.

(** The ports of a list that [ValidatePorts] accepts. *)
Lemma ValidatePorts_None_elim (ports : list Z) :
  ValidatePorts ports = None →
  Forall (λ p, 1 ≤ p ≤ 65535) ports ∧ NoDup ports.
Proof.
  unfold ValidatePorts. rewrite ValidatePorts_loop_None.
  by intros (? & ? & _).
Qed.

(** X10. [ValidatePorts] returns nil exactly for the lists of pairwise
    different ports between 1 and 65535. *)
Theorem ValidatePorts_nil_iff (ports : list Z) :
  ValidatePorts ports = None
  ↔ Forall (λ p, 1 ≤ p ≤ 65535) ports ∧ NoDup ports.
Proof.
  unfold ValidatePorts. rewrite ValidatePorts_loop_None.
  split; [by intros (? & ? & _)|]. intros [? ?]. by split_and!.
Qed.

Lemma ValidatePorts_loop_Some seen ports e :
  ValidatePorts_loop seen ports = Some e →
  ∃ i p, ports !! i = Some p
         ∧ ValidatePorts_loop seen (take i ports) = None
         ∧ ((¬ (1 ≤ p ≤ 65535) ∧ e = InvalidPort p)
            ∨ (1 ≤ p ≤ 65535 ∧ (p ∈ seen ∨ p ∈ take i ports)
               ∧ e = DuplicatePort p)).
Proof.
  revert seen. induction ports as [|port rest IH]; intros seen; simpl; [done|].
  destruct (ValidatePort port) as [e'|] eqn:Ep.
  - intros ?. simplify_eq. exists 0%nat, port. split_and!; try done.
    left. unfold ValidatePort in Ep. case_bool_decide; simplify_eq.
    split; [unfold MinPort, MaxPort in *; lia|done].
  - pose proof Ep as Hr. apply ValidatePort_None in Hr.
    unfold MinPort, MaxPort in Hr. case_bool_decide as Hs.
    + intros ?. simplify_eq. exists 0%nat, port. split_and!; try done.
      right. split; [done|]. split; [by left|done].
    + intros H. apply IH in H as (i & p & Hi & Hn & Hc).
      exists (S i), p. split_and!; [done| |].
      * simpl. rewrite Ep. by rewrite bool_decide_eq_false_2.
      * destruct Hc as [?|(? & Hin & ?)]; [by left|].
        right. split; [done|]. split; [|done].
        destruct Hin as [Hin|Hin].
        -- apply elem_of_union in Hin as [Hin|Hin]; [|by left].
           right. apply elem_of_singleton in Hin as ->.
           apply list_elem_of_here.
        -- right. simpl. by apply list_elem_of_further.
Qed.

(** X11. The error of [ValidatePorts] is about the first port that is out
    of range or repeats an earlier one: the ports before it pass, and a
    port that is both out of range and a repetition is reported as out of
    range. *)
Theorem ValidatePorts_first_offender (ports : list Z) (e : ValidationError) :
  ValidatePorts ports = Some e →
  ∃ i p, ports !! i = Some p
         ∧ ValidatePorts (take i ports) = None
         ∧ ((¬ (1 ≤ p ≤ 65535) ∧ e = InvalidPort p)
            ∨ (1 ≤ p ≤ 65535 ∧ p ∈ take i ports ∧ e = DuplicatePort p)).
Proof.
  intros H. apply ValidatePorts_loop_Some in H as (i & p & Hi & Hn & Hc).
  exists i, p. split_and!; try done.
  destruct Hc as [?|(? & [Hin|Hin] & ?)]; [by left| |by right].
  by apply not_elem_of_empty in Hin.
Qed.

Lemma ValidatePorts_first_offender_witness :
  ∃ i p, [8000; 70000; 8000] !! i = Some p
         ∧ ValidatePorts (take i [8000; 70000; 8000]) = None
         ∧ ((¬ (1 ≤ p ≤ 65535) ∧ InvalidPort 70000 = InvalidPort p)
            ∨ (1 ≤ p ≤ 65535 ∧ p ∈ take i [8000; 70000; 8000]
               ∧ InvalidPort 70000 = DuplicatePort p)).
Proof.
  apply (ValidatePorts_first_offender [8000; 70000; 8000] (InvalidPort 70000)).
  vm_compute. reflexivity.
Defined.

Lemma Validate_range_None T project entries :
  Validate_range T project entries = None
  ↔ Forall (λ e, Validate_container T project e.1 e.2 = None) entries.
Proof.
  induction entries as [|[name ct] rest IH]; simpl; [done|].
  destruct (Validate_container T project name ct) eqn:E.
  - split; [done|]. intros Hf. apply Forall_cons in Hf as [Hf _].
    simpl in Hf. congruence.
  - rewrite IH, Forall_cons. simpl. split; [done|]. by intros [_ ?].
Qed.

(** X12. Whether [Validate] accepts a configuration does not depend on the
    order in which Go ranges over the map of containers (the error it
    reports may). *)
Theorem Validate_order_irrelevant (T : string → string)
    (order1 order2 : list (string * Container)) (c : Config) :
  order1 ≡ₚ order2 →
  Validate T order1 c = None ↔ Validate T order2 c = None.
Proof.
  intros Hp. unfold Validate.
  destruct (bool_decide (Project c ≠ "") && negb (IsValidProjectName (Project c)));
    [done|].
  destruct (ValidatePorts (def_Ports (cfg_Defaults c))); [done|].
  rewrite !Validate_range_None. by rewrite Hp.
Qed.

Lemma Validate_order_irrelevant_witness :
  Validate id (map_to_list (Containers cfg_dev1)) cfg_dev1 = None
  ↔ Validate id (reverse (map_to_list (Containers cfg_dev1))) cfg_dev1 = None.
Proof.
  apply Validate_order_irrelevant. by rewrite reverse_Permutation.
Defined.

(** [Validate] has run [ValidatePorts] on every list that [GetPorts] can
    return: the default one, and the one of each container that has
    ports. *)
Lemma Validate_GetPorts (T : string → string)
    (order : list (string * Container)) (c : Config) (name : string) :
  order ≡ₚ map_to_list (Containers c) →
  Validate T order c = None →
  ValidatePorts (GetPorts c name) = None.
Proof.
  intros Hp Hv.
  unfold Validate in Hv.
  destruct (bool_decide (Project c ≠ "") && negb (IsValidProjectName (Project c)));
    [done|].
  destruct (ValidatePorts (def_Ports (cfg_Defaults c))) eqn:Ed; [done|].
  unfold GetPorts. destruct (Containers c !! name) as [ct|] eqn:Hc; [|done].
  case_bool_decide as Hlen; [|done].
  apply Validate_range_None in Hv. rewrite Hp in Hv.
  rewrite Forall_forall in Hv.
  specialize (Hv (name, ct)). simpl in Hv.
  unfold Validate_container in Hv.
  rewrite bool_decide_eq_true_2 in Hv by done.
  destruct (ValidatePorts (Ports ct)); [|done].
  destruct (ValidateFullContainerName T (Project c) name);
    by specialize (Hv ltac:(by apply elem_of_map_to_list)).
Qed.

(** X13. In a configuration that [Validate] accepted, what [GetPorts]
    returns for any name passes [ValidatePorts]: the ports are pairwise
    different and between 1 and 65535.  (The list may be empty.) *)
Theorem validated_ports (T : string → string)
    (order : list (string * Container)) (c : Config) (name : string) :
  order ≡ₚ map_to_list (Containers c) →
  Validate T order c = None →
  ValidatePorts (GetPorts c name) = None
  ∧ Forall (λ p, 1 ≤ p ≤ 65535) (GetPorts c name) ∧ NoDup (GetPorts c name).
Proof.
  intros Hp Hv.
  pose proof (Validate_GetPorts T order c name Hp Hv) as H.
  split; [done|]. by apply ValidatePorts_None_elim.
Qed.

Lemma validated_ports_witness :
  ValidatePorts (GetPorts cfg_dev1 "dev2") = None
  ∧ Forall (λ p, 1 ≤ p ≤ 65535) (GetPorts cfg_dev1 "dev2")
  ∧ NoDup (GetPorts cfg_dev1 "dev2").
Proof.
  apply (validated_ports id (map_to_list (Containers cfg_dev1))); [done|].
  vm_compute. reflexivity.
Defined.

Lemma append_nil (s : string) : "" +:+ s = s.
Proof. reflexivity. Qed.
Lemma append_cons (c : ascii) (s1 s2 : string) :
  String c s1 +:+ s2 = String c (s1 +:+ s2).
Proof. reflexivity. Qed.

Lemma string_app_assoc (s1 s2 s3 : string) :
  (s1 +:+ s2) +:+ s3 = s1 +:+ s2 +:+ s3.
Proof.
  induction s1 as [|c s1 IH]; [done|]. by rewrite !append_cons, IH.
Qed.

Lemma prefix_app (p s : string) : String.prefix p (p +:+ s) = true.
Proof.
  induction p as [|c p IH]; [by destruct s|].
  rewrite append_cons. simpl.
  destruct (Ascii.ascii_dec c c); [done|congruence].
Qed.

Lemma drop_string_app (p s : string) :
  drop_string (String.length p) (p +:+ s) = s.
Proof.
  induction p as [|c p IH]; [by destruct s|]. by rewrite append_cons.
Qed.

(** X14. [GetShortName] undoes [GetLXCName]: from the LXC name of a
    container the configuration gets back the name it was given. *)
Theorem GetShortName_GetLXCName (c : Config) (shortName : string) :
  GetShortName c (GetLXCName c shortName) = shortName.
Proof.
  unfold GetShortName, GetLXCName. case_bool_decide; [done|].
  unfold HasPrefix.
  replace (Project c +:+ "-" +:+ shortName)
    with ((Project c +:+ "-") +:+ shortName)
    by apply string_app_assoc.
  by rewrite prefix_app, drop_string_app.
Qed.

Lemma length_app_string (s1 s2 : string) :
  String.length (s1 +:+ s2) = (String.length s1 + String.length s2)%nat.
Proof.
  induction s1 as [|c s1 IH]; [done|]. rewrite append_cons. simpl.
  by rewrite IH.
Qed.

(** X15. In a configuration that [Validate] accepted, the LXC name of
    every container ([GetLXCName]: the project, a hyphen, the name as the
    file has it) is at most 63 bytes long, the limit of LXC. *)
Theorem validated_lxc_names_fit (T : string → string)
    (order : list (string * Container)) (c : Config) (name : string) :
  order ≡ₚ map_to_list (Containers c) →
  Validate T order c = None → HasContainer c name = true →
  (String.length (GetLXCName c name) ≤ 63)%nat
  ∧ ValidateContainerName T name = None.
Proof.
  intros Hp Hv Hc. unfold HasContainer in Hc.
  apply bool_decide_eq_true in Hc as [ct Hc].
  unfold Validate in Hv.
  destruct (bool_decide (Project c ≠ "") && negb (IsValidProjectName (Project c)));
    [done|].
  destruct (ValidatePorts (def_Ports (cfg_Defaults c))); [done|].
  apply Validate_range_None in Hv. rewrite Hp in Hv.
  rewrite Forall_forall in Hv.
  specialize (Hv (name, ct) ltac:(by apply elem_of_map_to_list)).
  simpl in Hv. unfold Validate_container in Hv.
  destruct (ValidateFullContainerName T (Project c) name) eqn:Ef; [done|].
  unfold ValidateFullContainerName in Ef.
  destruct (ValidateContainerName T name); [done|]. split; [|done].
  unfold GetLXCName. unfold MaxCombinedLength in Ef.
  repeat case_bool_decide; simplify_eq; try done; lia.
Qed.

Lemma validated_lxc_names_fit_witness :
  (String.length (GetLXCName cfg_dev1 "dev1") ≤ 63)%nat
  ∧ ValidateContainerName id "dev1" = None.
Proof.
  apply (validated_lxc_names_fit id (map_to_list (Containers cfg_dev1)));
    [done|vm_compute; reflexivity|vm_compute; reflexivity].
Defined.

(** * Properties of the containers and snapshots of the configuration *)

(** X23. [GetUser] never returns a user without a name or without a
    password, whatever the configuration says or leaves out: each of the
    three sources it falls back through ends in the hard-coded [dev]. *)
Theorem GetUser_never_empty (c : Config) (name : string) :
  user_Name (GetUser c name) ≠ "" ∧ user_Password (GetUser c name) ≠ "".
Proof.
  assert (D : user_Name (GetUser_defaults c) ≠ ""
              ∧ user_Password (GetUser_defaults c) ≠ "").
  { unfold GetUser_defaults. repeat case_bool_decide; simpl; try done. }
  unfold GetUser. destruct (Containers c !! name) as [ct|]; [|done].
  repeat case_bool_decide; simpl in *; try done.
Qed.

(** X24. [AddSnapshot] for a container that the configuration does not have
    makes the container: afterwards [HasContainer] holds for it, with the
    zero value of a Container but for the one snapshot.  [RemoveSnapshot]
    for such a container changes nothing. *)
Theorem AddSnapshot_makes_container (now : string) (c : Config)
    (containerName snapshotName description : string) :
  HasContainer c containerName = false →
  let c' := AddSnapshot now c containerName snapshotName description in
  HasContainer c' containerName = true
  ∧ Containers c' !! containerName
    = Some (mkContainer "" [] (mkUser "" "")
                        {[snapshotName := mkSnapshot description now]})
  ∧ HasSnapshot c' containerName snapshotName = true
  ∧ RemoveSnapshot c containerName snapshotName = c.
Proof.
  unfold HasContainer. intros H. case_bool_decide as Hc; [done|].
  assert (Hn : Containers c !! containerName = None).
  { destruct (Containers c !! containerName); [|done]. by destruct Hc. }
  unfold AddSnapshot, HasSnapshot, RemoveSnapshot. rewrite Hn. simpl.
  rewrite lookup_insert_eq. simpl. rewrite lookup_insert_eq.
  by split_and!.
Qed.

Lemma AddSnapshot_makes_container_witness :
  HasContainer (AddSnapshot "2024-01-01T00:00:00Z" cfg_dev1 "ghost" "s1" "")
               "ghost" = true.
Proof.
  exact (proj1 (AddSnapshot_makes_container "2024-01-01T00:00:00Z" cfg_dev1
                  "ghost" "s1" "" eq_refl)).
Defined.

(** X25. [AddContainer] with the name of a container that is there replaces
    it: the result is the one of removing the container first, so its
    ports, its user and its snapshots are gone. *)
Theorem AddContainer_replaces (c : Config) (name image : string) :
  AddContainer c name image = AddContainer (RemoveContainer c name) name image
  ∧ GetPorts (AddContainer c name image) name = def_Ports (cfg_Defaults c)
  ∧ GetUser (AddContainer c name image) name = GetUser_defaults c
  ∧ GetSnapshots (AddContainer c name image) name = ∅.
Proof.
  unfold AddContainer, RemoveContainer, GetPorts, GetUser, GetSnapshots. simpl.
  rewrite insert_delete_eq, lookup_insert_eq. simpl. done.
Qed.

(** X26. Taking a snapshot and removing it leaves the configuration as it
    was, for a container of the configuration that had no snapshot of that
    name. *)
Theorem RemoveSnapshot_AddSnapshot (now : string) (c : Config)
    (containerName snapshotName description : string) :
  HasContainer c containerName = true →
  HasSnapshot c containerName snapshotName = false →
  RemoveSnapshot (AddSnapshot now c containerName snapshotName description)
                 containerName snapshotName = c.
Proof.
  unfold HasContainer, HasSnapshot. intros Hc Hs.
  apply bool_decide_eq_true in Hc as [ct Hc]. rewrite Hc in Hs.
  apply bool_decide_eq_false in Hs.
  assert (Hn : Snapshots ct !! snapshotName = None).
  { destruct (Snapshots ct !! snapshotName); [|done]. by destruct Hs. }
  unfold RemoveSnapshot, AddSnapshot. simpl. rewrite lookup_insert_eq, Hc.
  simpl. rewrite delete_insert_eq, insert_insert_eq.
  rewrite (delete_id _ _ Hn).
  destruct c as [p d cs]. destruct ct as [im po us sn]. simpl in *.
  f_equal. by apply insert_id.
Qed.

Lemma RemoveSnapshot_AddSnapshot_witness :
  RemoveSnapshot (AddSnapshot "2024-01-01T00:00:00Z" cfg_dev1 "dev1" "s1" "")
                 "dev1" "s1" = cfg_dev1.
Proof.
  apply RemoveSnapshot_AddSnapshot; by vm_compute.
Defined.

(** A name that the pattern of container names matches starts with a
    letter. *)
Lemma containerNameRegex_no_hyphen (name : string) :
  containerNameRegex name = true → HasPrefix name "-" = false.
Proof.
  destruct name as [|c rest]; [done|]. intros H. simpl in H.
  apply andb_true_iff in H as [Hl _]. unfold HasPrefix.
  change (String.prefix "-" (String c rest))
    with (if ascii_dec "-" c then String.prefix "" rest else false).
  destruct (ascii_dec "-" c) as [<-|]; [by vm_compute in Hl|done].
Qed.

(** X27. The test for a hyphen at the start, in [ValidateContainerName],
    never decides: where it is made the pattern has matched, so the name
    starts with a letter.  When the function says that the name cannot
    start or end with a hyphen, the name ends with one. *)
Theorem hyphen_error_is_trailing (T : string → string) (name : string) :
  ValidateContainerName T name = Some HyphenAtEnd →
  HasPrefix (T name) "-" = false ∧ HasSuffix (T name) "-" = true.
Proof.
  unfold ValidateContainerName. destruct (T name) as [|c0 rest] eqn:E; [done|].
  case_bool_decide; [done|].
  destruct (containerNameRegex (String c0 rest)) eqn:R; cbn [negb].
  - pose proof (containerNameRegex_no_hyphen _ R) as Hp. rewrite Hp.
    cbn [orb].
    destruct (HasSuffix (String c0 rest) "-"); [done|].
    destruct (Contains (String c0 rest) "--"); [done|].
    by case_bool_decide.
  - by repeat case_match.
Qed.

Lemma hyphen_error_is_trailing_witness :
  HasPrefix "web-" "-" = false ∧ HasSuffix "web-" "-" = true.
Proof.
  apply (hyphen_error_is_trailing (λ s, s) "web-"). by vm_compute.
Defined.

(** * Properties of [GetIP] *)

Lemma line_ip_nonempty (line : string) : line ≠ "" → line_ip line ≠ "".
Proof.
  unfold line_ip. intros Hl. destruct (Index line " ") as [idx|]; [|done].
  case_bool_decide as Hi; [|done].
  destruct line as [|a rest]; [done|]. destruct idx as [|n]; [lia|done].
Qed.

Lemma GetIP_range_address T lines : ∀ firstIP ip,
  GetIP_range T lines firstIP = inr ip →
  ip ≠ ""
  ∧ (ip = firstIP
     ∨ ∃ line, line ∈ lines ∧ T line ≠ "" ∧ ip = line_ip (T line)).
Proof.
  induction lines as [|line rest IH]; intros firstIP ip H; simpl in H.
  - case_bool_decide; simplify_eq. eauto.
  - case_bool_decide as Hl.
    { destruct (IH _ _ H) as [? [?|(l & ? & ? & ?)]]; split; eauto.
      right. exists l. split_and!; try done. by apply list_elem_of_further. }
    assert (Hhere : ∃ l, l ∈ line :: rest ∧ T l ≠ ""
                         ∧ line_ip (T line) = line_ip (T l)).
    { exists line. split_and!; try done. apply list_elem_of_here. }
    destruct (Contains (T line) "(eth0)").
    { simplify_eq. split; [by apply line_ip_nonempty|]. right.
      destruct Hhere as (l & ? & ? & ?). eauto. }
    destruct (bool_decide (firstIP = "") && bool_decide (line_ip (T line) ≠ ""));
      destruct (IH _ _ H) as [? [?|(l & ? & ? & ?)]]; split; try done.
    + right. destruct Hhere as (l & ? & ? & ?). exists l.
      split_and!; try done. congruence.
    + right. exists l. split_and!; try done. by apply list_elem_of_further.
    + by left.
    + right. exists l. split_and!; try done. by apply list_elem_of_further.
Qed.

(** X28. The address [GetIP] returns without an error is never empty: it
    is what stands before the first space on one of the lines of the
    output, and that line is not blank.  The test [ip != ""] at line 444 is
    always true. *)
Theorem GetIP_address_nonempty (T : string → string) (run : string + string)
    (ip : string) :
  GetIP T run = inr ip →
  ip ≠ ""
  ∧ ∃ output line,
      run = inl output
      ∧ line ∈ Split (Trim (T output) "034") "010"
      ∧ T line ≠ "" ∧ ip = line_ip (T line).
Proof.
  unfold GetIP. destruct run as [output|err]; [|done]. intros H.
  destruct (GetIP_range_address _ _ _ _ H) as [Hne [->|(line & ? & ? & ?)]];
    [done|].
  split; [done|]. by exists output, line.
Qed.

Lemma GetIP_address_nonempty_witness :
  GetIP (λ s, s) (inl "10.10.10.45 (eth0)") = inr "10.10.10.45"
  ∧ "10.10.10.45" ≠ "".
Proof.
  split; [done|].
  exact (proj1 (GetIP_address_nonempty (λ s, s) (inl "10.10.10.45 (eth0)")
                  "10.10.10.45" eq_refl)).
Defined.

(** X29. [GetIP] prefers eth0 wherever it stands: when a line of the
    output names the interface eth0, the address of the first such line is
    returned, whatever addresses the lines before it carry. *)
Theorem GetIP_prefers_eth0 (T : string → string)
    (before after : list string) (line firstIP : string) :
  Forall (λ l, Contains (T l) "(eth0)" = false) before →
  Contains (T line) "(eth0)" = true →
  GetIP_range T (before ++ line :: after) firstIP = inr (line_ip (T line)).
Proof.
  intros Hb Hl. revert firstIP.
  induction Hb as [|l before Hn _ IH]; intros firstIP; simpl.
  - case_bool_decide as He; [by rewrite He in Hl|]. by rewrite Hl.
  - rewrite Hn. by repeat case_match.
Qed.

Lemma GetIP_prefers_eth0_witness :
  GetIP (λ s, s)
        (inl ("192.168.1.100 (eth1)" +:+ String "010" "10.10.10.45 (eth0)"))
  = inr "10.10.10.45".
Proof.
  exact (GetIP_prefers_eth0 (λ s, s) ["192.168.1.100 (eth1)"] []
           "10.10.10.45 (eth0)" "" ltac:(by repeat constructor) eq_refl).
Defined.

(** * [runProxy]: invariant *)

Lemma net_Listen_error o port e :
  net_Listen o port = inl e → ∃ n, e = OpError n.
Proof.
  unfold net_Listen. intros H.
  repeat case_match; simplify_eq; eauto.
Qed.

(** What a call of [Add] does, by the answer of [net.Listen]. *)
Lemma Add_cases o m localPort remoteHost remotePort :
  (∃ n, net_Listen o localPort = inl (OpError n)
        ∧ Add o m localPort remoteHost remotePort
          = (Some (bind_error localPort (OpError n)), o, m))
  ∨ (∃ l o', net_Listen o localPort = inr (l, o')
             ∧ Add o m localPort remoteHost remotePort
               = (None, o',
                  mkManager (proxies m
                             ++ [running (New localPort remoteHost remotePort) l]))).
Proof.
  unfold Add. set (p := New localPort remoteHost remotePort).
  destruct (net_Listen o localPort) as [e|[l o']] eqn:EL.
  - destruct (net_Listen_error _ _ _ EL) as [n ->]. left. exists n.
    split; [done|]. by rewrite (Start_failure o p _ EL).
  - right. exists l, o'. split; [done|].
    by rewrite (Start_success o p _ _ EL).
Qed.

Lemma in_StopAll_cases m t after pc w' :
  in_StopAll m t after pc = Some w' →
  (m_calls m !! t = Some SAReturned ∧ w' = mkPWorld m after)
  ∨ (m_calls m !! t ≠ Some SAReturned
     ∧ ∃ m', mexec (MStopAll t) m = Some m' ∧ w' = mkPWorld m' pc).
Proof.
  unfold in_StopAll. intros H.
  destruct (m_calls m !! t) as [[]|] eqn:Ht;
    try (right; split; [done|];
         destruct (mexec (MStopAll t) m) as [m'|]; simplify_eq/=; by eauto).
  left. by simplify_eq.
Qed.

(** Every step of [runProxy] and of its environment is a sequence of steps
    of the Manager's process. *)
Lemma pexec_mrun a w w' :
  pexec a w = Some w' → ∃ tr, mrun tr (p_m w) = Some (p_m w').
Proof.
  destruct w as [m pc]. destruct a as [sig|a]; simpl.
  - unfold main_step. simpl. destruct (m_dead m) eqn:Hd; [done|].
    destruct pc as [ip [|port rest]|t port err| |t|r]; try done.
    + intros ?. simplify_eq. by exists [].
    + destruct (m_mu m) eqn:Hmu; [done|].
      destruct (Add_cases (m_os m) (m_mgr m) port ip port)
        as [(n & _ & EA)|(l & o' & _ & EA)]; rewrite EA; intros ?; simplify_eq.
      * exists [MAdd port ip port; MCallStopAll].
        assert (E1 : mexec (MAdd port ip port) m
                     = Some (mkMWorld (m_os m) (m_mgr m) false (m_retired m)
                                      (m_calls m) (m_fatal m))).
        { unfold mexec. by rewrite Hd, Hmu, EA. }
        simpl. rewrite E1. simpl.
        unfold mexec, m_dead in *. simpl. by rewrite Hd.
      * exists [MAdd port ip port]. simpl.
        unfold mexec. by rewrite Hd, Hmu, EA.
    + intros H. apply in_StopAll_cases in H as [[_ ->]|(_ & m' & E & ->)].
      * by exists [].
      * exists [MStopAll t]. simpl. by rewrite E.
    + destruct sig; [|done]. intros ?. simplify_eq.
      exists [MCallStopAll]. simpl. unfold mexec. by rewrite Hd.
    + intros H. apply in_StopAll_cases in H as [[_ ->]|(_ & m' & E & ->)].
      * by exists [].
      * exists [MStopAll t]. simpl. by rewrite E.
  - destruct (env_action a); [|done].
    destruct (mexec a m) as [m'|] eqn:E; [|done]. intros ?. simplify_eq/=.
    exists [a]. simpl. by rewrite E.
Qed.

Lemma preachable_mreachable o ip ports w :
  preachable o ip ports w → mreachable o (p_m w).
Proof.
  intros [tr Hr]. unfold mreachable.
  assert (H : ∀ w0, prun tr w0 = Some w →
                    ∃ mtr, mrun mtr (p_m w0) = Some (p_m w)).
  { clear Hr. induction tr as [|a tr IH]; intros w0 Hr.
    - simplify_eq/=. by exists [].
    - simpl in Hr. destruct (pexec a w0) as [w1|] eqn:E; simplify_eq/=.
      destruct (pexec_mrun _ _ _ E) as [tr1 H1].
      destruct (IH _ Hr) as [tr2 H2].
      exists (tr1 ++ tr2). by rewrite mrun_app, H1. }
  exact (H _ Hr).
Qed.

(** What the goroutines, the peers and the clock leave as it is. *)
Lemma env_frame a m m' :
  env_action a = true → mexec a m = Some m' →
  m_calls m' = m_calls m ∧ m_mu m' = m_mu m
  ∧ length (m_retired m') = length (m_retired m)
  ∧ length (proxies (m_mgr m')) = length (proxies (m_mgr m))
  ∧ target <$> proxies (m_mgr m') = target <$> proxies (m_mgr m).
Proof.
  unfold mexec. intros He H. destruct (m_dead m); [done|].
  destruct a; try done.
  - destruct (local_action a); [|done]. unfold on_member in H.
    destruct (proxies (m_mgr m) !! k) as [f|] eqn:Hk; simplify_eq/=.
    destruct (exec a (mkWorld (m_os m) f)) as [w1|] eqn:E; simplify_eq/=.
    rewrite length_insert. split_and!; try done.
    apply (fmap_insert_same target _ _ f); [done|]. by eapply target_exec.
  - destruct (local_action a); [|done]. unfold on_retired in H.
    destruct (m_retired m !! k) as [f|] eqn:Hk; simplify_eq/=.
    destruct (exec a (mkWorld (m_os m) f)) as [w1|] eqn:E; simplify_eq/=.
    by rewrite length_insert.
  - case_match; by simplify_eq/=.
Qed.

Lemma serving_env ip started a m m' :
  env_action a = true → mexec a m = Some m' →
  serving ip started m → serving ip started m'.
Proof.
  intros He H (S1 & S2 & S3 & S4).
  destruct (env_frame _ _ _ He H) as (E1 & E2 & E3 & E4 & E5).
  split_and!; try congruence.
  rewrite S3 in E3. by apply nil_length_inv.
Qed.

Lemma stopping_env n a m m' :
  env_action a = true → mexec a m = Some m' →
  stopping n m → stopping n m'.
Proof.
  intros He H (pc & S1 & S2).
  destruct (env_frame _ _ _ He H) as (E1 & E2 & E3 & E4 & E5).
  exists pc. split; [congruence|].
  destruct pc; destruct S2 as [S2 S3]; split;
    try (apply nil_length_inv; rewrite S2 in *; simpl in *; congruence);
    try (apply nil_length_inv; rewrite S3 in *; simpl in *; congruence);
    congruence.
Qed.

(** What one step of the call of [StopAll] does to the lists. *)
Lemma stopping_step n m m' :
  mexec (MStopAll 0) m = Some m' → stopping n m → stopping n m'.
Proof.
  unfold mexec. intros H (pc & S1 & S2). destruct (m_dead m); [done|].
  rewrite S1 in H. simpl in H.
  destruct (stopall_step m pc) as [|[m1 pc1]|] eqn:E; simplify_eq/=.
  - exists pc1. split; [done|].
    destruct pc; simpl in E.
    + destruct (m_mu m); by simplify_eq/=.
    + destruct (proxies (m_mgr m) !! i) as [f|] eqn:Hi; [|by simplify_eq/=].
      unfold on_member in E. rewrite Hi in E. simpl in E.
      destruct (exec CallStop (mkWorld (m_os m) f)); simplify_eq/=.
      by rewrite length_insert.
    + destruct (proxies (m_mgr m) !! i) as [f|] eqn:Hi; [|done].
      assert (Hc : pc1 = SARange (S i) ∧ m1 = m
                   ∨ ∃ w1, exec (StopAct j) (mkWorld (m_os m) f) = Some w1
                           ∧ pc1 = SAStop i j
                           ∧ m1 = mkMWorld (w_os w1)
                                    (mkManager (<[i := w_fwd w1]> (proxies (m_mgr m))))
                                    (m_mu m) (m_retired m) (m_calls m) (m_fatal m)).
      { unfold on_member in E. rewrite Hi in E. simpl in E.
        destruct (stops f !! j) as [[]|];
          destruct (exec (StopAct j) (mkWorld (m_os m) f)); simplify_eq/=;
          eauto. }
      destruct Hc as [[-> ->]|(w1 & _ & -> & ->)]; simpl; [done|].
      by rewrite length_insert.
    + simplify_eq/=. destruct S2 as [S2 S3]. by rewrite S3.
    + destruct (m_mu m); by simplify_eq/=.
    + done.
  - exists pc. done.
Qed.

Lemma pinv_init o ip ports : pinv ip ports (p_init o ip ports).
Proof. simpl. split; [done|]. by exists []. Qed.

Lemma pinv_pexec ip ports a w w' :
  pexec a w = Some w' → pinv ip ports w → pinv ip ports w'.
Proof.
  destruct w as [m pc]. destruct a as [sig|a]; simpl.
  - unfold main_step, pinv. simpl. destruct (m_dead m) eqn:Hd; [done|].
    destruct pc as [ip' [|port rest]|t port err| |t|r]; try done.
    + intros ? (-> & started & -> & S). simplify_eq/=.
      by rewrite app_nil_r.
    + destruct (m_mu m) eqn:Hmu; [done|].
      intros H (-> & started & -> & S1 & S2 & S3 & S4).
      destruct (Add_cases (m_os m) (m_mgr m) port ip port)
        as [(n & _ & EA)|(l & o' & _ & EA)]; rewrite EA in H; simplify_eq/=.
      * split; [by rewrite S1|]. exists started, rest, n.
        split_and!; try done. exists SALock. rewrite S1. split; [done|].
        split; [|done]. simpl.
        by rewrite <- (length_fmap target), S4, length_fmap.
      * split; [done|]. exists (started ++ [port]).
        split; [by rewrite <- app_assoc|].
        split_and!; try done. simpl. by rewrite !fmap_app, S4.
    + intros H (-> & started & rest & e & -> & -> & S).
      pose proof S as (pc & S1 & S2).
      apply in_StopAll_cases in H as [[Hc ->]|(_ & m' & Hm & ->)]; simpl.
      * rewrite S1 in Hc. simplify_eq/=.
        destruct S2 as [S2 S3]. split_and!; try done.
        by exists started, rest, e.
      * split; [done|]. exists started, rest, e. split_and!; try done.
        by eapply stopping_step.
    + destruct sig; [|done]. intros ? (S1 & S2 & S3 & S4). simplify_eq/=.
      split; [by rewrite S1|]. exists SALock. simpl. rewrite S1.
      split; [done|]. split; [|done].
      by rewrite <- (length_fmap target), S4, length_fmap.
    + intros H (-> & S).
      pose proof S as (pc & S1 & S2).
      apply in_StopAll_cases in H as [[Hc ->]|(_ & m' & Hm & ->)]; simpl.
      * rewrite S1 in Hc. simplify_eq/=. by destruct S2 as [S2 S3].
      * split; [done|]. by eapply stopping_step.
  - destruct (env_action a) eqn:He; [|done].
    destruct (mexec a m) as [m'|] eqn:E; [|done]. intros ?. simplify_eq/=.
    unfold pinv. simpl.
    destruct (env_frame _ _ _ He E) as (E1 & E2 & E3 & E4 & E5).
    destruct pc as [ip' rest|t port err| |t|r].
    + intros (-> & started & -> & S). split; [done|].
      exists started. split; [done|]. by eapply serving_env.
    + intros (-> & started & rest & e & -> & -> & S). split; [done|].
      exists started, rest, e. split_and!; try done. by eapply stopping_env.
    + intros S. by eapply serving_env.
    + intros (-> & S). split; [done|]. by eapply stopping_env.
    + intros (S1 & S2 & S3). split; [congruence|]. split.
      * apply nil_length_inv. rewrite E4, S2. done.
      * by rewrite E3.
Qed.

Lemma pinv_reachable o ip ports w :
  preachable o ip ports w → pinv ip ports w.
Proof.
  intros [tr Hr]. revert Hr. generalize (pinv_init o ip ports).
  generalize (p_init o ip ports). induction tr as [|a tr IH]; intros w0 I Hr.
  - by simplify_eq/=.
  - simpl in Hr. destruct (pexec a w0) as [w1|] eqn:E; simplify_eq/=.
    eapply IH; [|done]. by eapply pinv_pexec.
Qed.

Lemma pw_serving_reachable :
  preachable os_free "10.0.3.7" [8000; 8001] pw_serving.
Proof. exists ptr_serve. vm_compute. reflexivity. Qed.
Lemma pw_done_reachable : preachable os_free "10.0.3.7" [8000; 8001] pw_done.
Proof. exists ptr_signal. vm_compute. reflexivity. Qed.
Lemma pw_failed_reachable :
  preachable os_8080 "10.0.3.7" [8000; 8080; 8001] pw_failed.
Proof. exists ptr_fail. vm_compute. reflexivity. Qed.

(** ** What [runProxy] guarantees *)

(** X16. When [runProxy] returns, with nil or with an error, it has
    undone what it did: the Manager lists no Proxy, every Proxy it started
    is without goroutines, the ports that listen are those that did when
    the command began, the mutex is free and nothing has panicked. *)
Theorem runProxy_cleans_up (o : OS) (ip : string) (ports : list Z)
    (w : PWorld) (r : option RunError) :
  preachable o ip ports w → p_main w = PReturned r →
  proxies (m_mgr (p_m w)) = []
  ∧ Forall quiescent (m_retired (p_m w))
  ∧ bound (m_os (p_m w)) = bound o
  ∧ m_mu (p_m w) = false ∧ m_dead (p_m w) = false.
Proof.
  intros Hr Hpc.
  pose proof (pinv_reachable _ _ _ _ Hr) as P.
  apply preachable_mreachable, minv_reachable in Hr as I.
  unfold pinv in P. rewrite Hpc in P. destruct P as (Hc & Hp & _).
  pose proof I as [M R Fa Mu Ph U Po Pr Cf Rg].
  split_and!.
  - done.
  - eapply Forall_impl; [done|]. by intros f [? _].
  - rewrite Hp in Po. by apply ports_ok_nil_eq in Po.
  - rewrite Hc in Mu. simpl in Mu. by destruct (m_mu (p_m w)).
  - apply m_dead_false. split; [done|]. rewrite Hp. simpl.
    eapply Forall_impl; [done|]. by intros f [_ ?].
Qed.

Lemma runProxy_cleans_up_witness :
  p_main pw_done = PReturned None
  ∧ length (m_retired (p_m pw_done)) = 2%nat
  ∧ Forall quiescent (m_retired (p_m pw_done))
  ∧ bound (m_os (p_m pw_done)) = ∅.
Proof.
  assert (Hpc : p_main pw_done = PReturned None) by (vm_compute; reflexivity).
  destruct (runProxy_cleans_up _ _ _ _ _ pw_done_reachable Hpc)
    as (_ & Hq & Hb & _).
  split; [done|]. split; [vm_compute; reflexivity|]. by split.
Defined.



(** X18. The only error [runProxy] returns once it has reached the loop is
    about the first port whose [Add] failed; it wraps the error of
    [net.Listen] for that port as [Start] wrapped it; the ports before it
    were forwarded until then, those after it were never tried. *)
Theorem runProxy_error_is_first_failure (o : OS) (ip : string)
    (ports : list Z) (w : PWorld) (e : RunError) :
  preachable o ip ports w → p_main w = PReturned (Some e) →
  ∃ started port rest n,
    ports = started ++ port :: rest
    ∧ e = ErrStartProxy port (bind_error port (OpError n))
    ∧ length (m_retired (p_m w)) = length started.
Proof.
  intros Hr Hpc. pose proof (pinv_reachable _ _ _ _ Hr) as P.
  unfold pinv in P. rewrite Hpc in P. destruct P as (_ & _ & P).
  destruct e as [| | |port err]; try done.
  destruct P as (started & rest & n & -> & -> & Hl).
  by exists started, port, rest, n.
Qed.

Lemma runProxy_error_is_first_failure_witness :
  p_main pw_failed
  = PReturned (Some (ErrStartProxy 8080 (bind_error 8080 (OpError EADDRINUSE))))
  ∧ length (m_retired (p_m pw_failed)) = 1%nat.
Proof.
  assert (Hpc : p_main pw_failed
                = PReturned (Some (ErrStartProxy 8080
                    (bind_error 8080 (OpError EADDRINUSE)))))
    by (vm_compute; reflexivity).
  split; [done|].
  destruct (runProxy_error_is_first_failure _ _ _ _ _ pw_failed_reachable Hpc)
    as (started & port & rest & n & Hports & He & Hl).
  vm_compute. reflexivity.
Defined.

Lemma Add_succeeds o ip ports started port rest m :
  bindable o ports → minv o m → serving ip started m →
  ports = started ++ port :: rest →
  ∃ o' mgr', Add (m_os m) (m_mgr m) port ip port = (None, o', mgr').
Proof.
  intros [Hv Hf] I (S1 & S2 & S3 & S4) ->.
  apply ValidatePorts_None_elim in Hv as [Hrange Hnd].
  destruct (Add_cases (m_os m) (m_mgr m) port ip port)
    as [(n & EL & _)|(l & o' & _ & EA)]; [|by eauto].
  exfalso.
  apply Forall_app in Hrange as [Hrs Hrange].
  apply Forall_cons in Hrange as [Hr _].
  apply Forall_app in Hf as [_ Hf]. apply Forall_cons in Hf as [[Hfree Hpriv] _].
  apply NoDup_app in Hnd as (_ & Hnd & _).
  pose proof I as [M R Fa Mu Ph U Po Pr Cf Rg].
  unfold net_Listen in EL.
  rewrite bool_decide_eq_false_2 in EL by lia.
  rewrite bool_decide_eq_false_2 in EL by lia.
  assert (Hp : bool_decide (port < 1024) && negb (privileged (m_os m)) = false).
  { rewrite Pr. destruct (bool_decide (port < 1024)) eqn:E; [|done].
    apply bool_decide_eq_true in E. by rewrite (Hpriv E). }
  rewrite Hp in EL. clear Hp. case_bool_decide as Hb; [|done]. clear EL.
  apply (po_bound _ _ _ Po) in Hb as [Hb|Hb]; [done|].
  apply list_elem_of_lookup in Hb as [k Hk].
  rewrite list_lookup_fmap in Hk.
  destruct (proxies (m_mgr m) !! k) as [f|] eqn:Hf'; simplify_eq/=.
  assert (Ht : (target <$> proxies (m_mgr m)) !! k = Some (target f))
    by (by rewrite list_lookup_fmap, Hf').
  rewrite S4, list_lookup_fmap in Ht.
  destruct (started !! k) as [q|] eqn:Hq; simplify_eq/=.
  unfold target, forward in Ht. injection Ht as Hq1 _.
  pose proof (Forall_lookup_1 _ _ _ _ Hrs Hq) as Hqr. simpl in Hqr.
  unfold open_port in Hk.
  destruct (listener (px f)) as [l|] eqn:Hl; [|done].
  destruct (l_closed l); simplify_eq/=.
  destruct (Forall_lookup_1 _ _ _ _ Cf Hf' l Hl) as (Hlp & _); [lia|].
  apply (Hnd (l_port l)).
  - apply list_elem_of_lookup. exists k. congruence.
  - apply list_elem_of_here.
Qed.

Lemma unfailed_pexec o ip ports a w w' :
  bindable o ports → minv o (p_m w) → pinv ip ports w →
  pexec a w = Some w' → unfailed w → unfailed w'.
Proof.
  intros Hb I P. destruct w as [m pc]. destruct a as [sig|a]; simpl.
  - unfold main_step, unfailed. simpl. destruct (m_dead m); [done|].
    destruct pc as [ip' [|port rest]|t port err| |t|[e|]]; try done.
    + intros ?. by simplify_eq.
    + destruct (m_mu m); [done|].
      destruct P as (-> & started & -> & S). simpl in *.
      destruct (Add_succeeds _ _ _ _ _ _ _ Hb I S eq_refl) as (o' & mgr' & EA).
      rewrite EA. intros ?. by simplify_eq.
    + destruct sig; [|done]. intros ?. by simplify_eq.
    + intros H _. by apply in_StopAll_cases in H as [[_ ->]|(_ & m' & _ & ->)].
  - destruct (env_action a); [|done].
    destruct (mexec a m); [|done]. intros ?. by simplify_eq/=.
Qed.

Lemma unfailed_reachable o ip ports w :
  bindable o ports → preachable o ip ports w → unfailed w.
Proof.
  intros Hb [tr Hr].
  assert (H : ∀ w0, preachable o ip ports w0 → unfailed w0 →
                    prun tr w0 = Some w → unfailed w).
  { clear Hr. induction tr as [|a tr IH]; intros w0 R0 U0 Hr.
    - by simplify_eq/=.
    - simpl in Hr. destruct (pexec a w0) as [w1|] eqn:E; simplify_eq/=.
      apply (IH w1); [| |done].
      + destruct R0 as [tr0 R0]. exists (tr0 ++ [a]).
        clear -R0 E. revert R0. generalize (p_init o ip ports).
        induction tr0 as [|b tr0 IH]; intros w2 R0; simplify_eq/=.
        * by rewrite E.
        * destruct (pexec b w2); simplify_eq/=. by apply IH.
      + eapply unfailed_pexec; eauto.
        * by apply minv_reachable, (preachable_mreachable _ ip ports).
        * by eapply pinv_reachable. }
  apply (H (p_init o ip ports)); [by exists []|done|done].
Qed.

Lemma prun_returned tr w0 w r :
  p_main w0 = PReturned r → prun tr w0 = Some w → p_main w = PReturned r.
Proof.
  revert w0. induction tr as [|a tr IH]; intros w0 Hpc Hr.
  - by simplify_eq/=.
  - simpl in Hr. destruct (pexec a w0) as [w1|] eqn:E; simplify_eq/=.
    apply (IH w1); [|done]. destruct a as [sig|a]; simpl in E.
    + unfold main_step in E. rewrite Hpc in E. by destruct (m_dead (p_m w0)).
    + destruct (env_action a); [|done].
      destruct (mexec a (p_m w0)); by simplify_eq/=.
Qed.

(** X19. End to end, from the configuration to the sockets: for a
    configuration that [Validate] accepted, if no other program listens on
    a port that [GetPorts] lists and none of them is privileged (or the
    process is), then no [Add] of [runProxy] ever fails: the command never
    takes the error branch of its loop, and the only error it can return
    once the container was found and its address read is that no port is
    configured. *)
Theorem validated_config_starts (T : string → string)
    (order : list (string * Container)) (cfg : Config)
    (name lxcName ip : string) (getIP : string → string + string)
    (o : OS) (tr : list PAction) (w : PWorld) :
  order ≡ₚ map_to_list (Containers cfg) → Validate T order cfg = None →
  getIP lxcName = inr ip →
  Forall (λ p, (p ∉ bound o) ∧ (p < 1024 → privileged o = true))
         (GetPorts cfg name) →
  prun tr (runProxy_begin o (inr (cfg, lxcName)) getIP name) = Some w →
  match p_main w with
  | PStopAllFailed _ _ _ => False
  | PReturned (Some e) => e = ErrNoPorts name ∧ GetPorts cfg name = []
  | _ => True
  end.
Proof.
  intros Hp Hv Hip Hfree Hr. unfold runProxy_begin in Hr. rewrite Hip in Hr.
  case_bool_decide as Hlen.
  - apply nil_length_inv in Hlen.
    apply prun_returned with (r := Some (ErrNoPorts name)) in Hr; [|done].
    by rewrite Hr.
  - assert (Hb : bindable o (GetPorts cfg name)).
    { split; [|done]. by apply (Validate_GetPorts T order). }
    pose proof (unfailed_reachable o ip _ w Hb (ex_intro _ tr Hr)) as U.
    unfold unfailed in U. by destruct (p_main w) as [| | | |[?|]].
Qed.

Lemma validated_config_starts_witness :
  match p_main pw_dev2 with
  | PStopAllFailed _ _ _ => False
  | PReturned (Some e) =>
      e = ErrNoPorts "dev2" ∧ GetPorts cfg_dev1 "dev2" = []
  | _ => True
  end.
Proof.
  apply (validated_config_starts id (map_to_list (Containers cfg_dev1))
           cfg_dev1 "dev2" "web-dev2" "10.0.3.7" (λ _, inr "10.0.3.7")
           os_free ptr_serve pw_dev2).
  - done.
  - vm_compute. reflexivity.
  - done.
  - assert (E : GetPorts cfg_dev1 "dev2" = [3000; 3001])
      by (vm_compute; reflexivity).
    rewrite E. repeat apply Forall_cons_2; try apply Forall_nil_2;
      (split; [apply not_elem_of_empty|lia]).
  - vm_compute. reflexivity.
Defined.

(** * Ending the command [proxy] *)

Lemma minv_mrun o0 tr m m' : minv o0 m → mrun tr m = Some m' → minv o0 m'.
Proof.
  revert m. induction tr as [|a tr IH]; intros m I Hr.
  - by simplify_eq/=.
  - simpl in Hr. destruct (mexec a m) as [m1|] eqn:E; simplify_eq/=.
    eapply IH; [|done]. by eapply minv_mexec.
Qed.

Lemma pexec_inv o0 ip ports a w w' :
  minv o0 (p_m w) → pinv ip ports w → pexec a w = Some w' →
  minv o0 (p_m w') ∧ pinv ip ports w'.
Proof.
  intros I P E. split; [|by eapply pinv_pexec].
  destruct (pexec_mrun _ _ _ E) as [tr Hr]. by eapply minv_mrun.
Qed.

(** A schedule of the process made of steps of the call of [StopAll] and
    of the Forwarders is a schedule of [runProxy] inside that call. *)
Lemma lift_prun t pc mtr m m' :
  in_call t pc → mrun mtr m = Some m' → Forall (stopall_or_env t) mtr →
  prun (lift_action <$> mtr) (mkPWorld m pc) = Some (mkPWorld m' pc).
Proof.
  intros Hpc. revert m. induction mtr as [|a mtr IH]; intros m Hr Hf.
  - by simplify_eq/=.
  - simpl in Hr. destruct (mexec a m) as [m1|] eqn:E; simplify_eq/=.
    apply Forall_cons in Hf as [Ha Hf].
    assert (E1 : pexec (lift_action a) (mkPWorld m pc) = Some (mkPWorld m1 pc)).
    { destruct Ha as [->|(k & a' & ->)]; simpl.
      - assert (Hd : m_dead m = false).
        { unfold mexec in E. by destruct (m_dead m). }
        assert (Ht : m_calls m !! t ≠ Some SAReturned).
        { intros Ht. unfold mexec in E. by rewrite Hd, Ht in E. }
        unfold main_step. simpl. rewrite Hd.
        assert (Hin : ∀ after, in_StopAll m t after pc
                               = Some (mkPWorld m1 pc)).
        { intros after. unfold in_StopAll. rewrite E. simpl.
          by destruct (m_calls m !! t) as [[]|]. }
        by destruct Hpc as [->|(port & err & ->)].
      - by rewrite E. }
    rewrite E1. simpl. by apply IH.
Qed.

Lemma prun_cons a tr w : prun (a :: tr) w = pexec a w ≫= prun tr.
Proof. done. Qed.

Lemma prun_app tr1 tr2 w :
  prun (tr1 ++ tr2) w = prun tr1 w ≫= prun tr2.
Proof.
  revert w. induction tr1 as [|a tr1 IH]; intros w; simpl; [done|].
  destruct (pexec a w); simpl; [apply IH|done].
Qed.

(** Inside [StopAll], [runProxy] can return. *)
Lemma stopping_returns o0 ip ports w t :
  minv o0 (p_m w) → pinv ip ports w → in_call t (p_main w) →
  ∃ ptr w' r, prun ptr w = Some w' ∧ p_main w' = PReturned r.
Proof.
  intros I P Hpc. destruct w as [m pc]. simpl in *.
  assert (Hs : t = 0%nat ∧ ∃ n, stopping n m).
  { destruct Hpc as [->|(port & err & ->)]; simpl in P.
    - destruct P as [-> S]. eauto.
    - destruct P as (-> & started & rest & e & _ & _ & S). eauto. }
  destruct Hs as (-> & n & spc & Hc & _).
  destruct (call_returns o0 m 0%nat spc I) as (mtr & m' & Hr & I' & Hf & Hc').
  { by rewrite Hc. }
  { intros ->. pose proof (mi_mutex _ _ I) as Hmu. rewrite Hc in Hmu.
    simpl in Hmu. by destruct (m_mu m). }
  pose proof (lift_prun _ _ _ _ _ Hpc Hr Hf) as Hp.
  pose proof (minv_alive _ _ I') as Hd.
  assert (E : ∃ r, pexec (PMain false) (mkPWorld m' pc)
                   = Some (mkPWorld m' (PReturned r))).
  { simpl. unfold main_step. simpl. rewrite Hd.
    destruct Hpc as [->|(port & err & ->)]; unfold in_StopAll; rewrite Hc';
      eauto. }
  destruct E as [r E].
  exists ((lift_action <$> mtr) ++ [PMain false]), (mkPWorld m' (PReturned r)), r.
  split; [|done]. rewrite prun_app, Hp.
  change (pexec (PMain false) (mkPWorld m' pc) ≫= prun []
          = Some (mkPWorld m' (PReturned r))). by rewrite E.
Qed.

(** While it waits for the signal, [runProxy] can return: the signal
    arrives. *)
Lemma waiting_returns o0 ip ports w :
  minv o0 (p_m w) → pinv ip ports w → p_main w = PWaitSignal →
  ∃ ptr w' r, prun ptr w = Some w' ∧ p_main w' = PReturned r.
Proof.
  intros I P Hpc. destruct w as [m pc]. simpl in *. subst pc.
  pose proof (minv_alive _ _ I) as Hd.
  assert (E : pexec (PMain true) (mkPWorld m PWaitSignal)
              = Some (mkPWorld (call_StopAll m)
                               (PStopAllSignal (length (m_calls m))))).
  { simpl. unfold main_step. simpl. by rewrite Hd. }
  destruct (pexec_inv o0 ip ports _ (mkPWorld m _) _ I P E) as [I1 P1].
  destruct (stopping_returns _ _ _ _ (length (m_calls m)) I1 P1)
    as (ptr & w' & r & Hr & Hw); [by left|].
  exists (PMain true :: ptr), w', r. split; [|done].
  by rewrite prun_cons, E.
Qed.

(** In its loop, [runProxy] can return. *)
Lemma looping_returns o0 ip ports rest : ∀ w ip',
  minv o0 (p_m w) → pinv ip ports w → p_main w = PLoop ip' rest →
  ∃ ptr w' r, prun ptr w = Some w' ∧ p_main w' = PReturned r.
Proof.
  induction rest as [|port rest IH]; intros [m pc] ip' I P Hpc;
    simpl in *; subst pc; pose proof (minv_alive _ _ I) as Hd.
  - assert (E : pexec (PMain false) (mkPWorld m (PLoop ip' []))
                = Some (mkPWorld m PWaitSignal)).
    { simpl. unfold main_step. simpl. by rewrite Hd. }
    destruct (pexec_inv o0 ip ports _ (mkPWorld m _) _ I P E) as [I1 P1].
    destruct (waiting_returns _ _ _ _ I1 P1 eq_refl)
      as (ptr & w' & r & Hr & Hw).
    exists (PMain false :: ptr), w', r. split; [|done].
    by rewrite prun_cons, E.
  - assert (Hmu : m_mu m = false).
    { destruct P as (_ & started & _ & S). simpl in S. by destruct S as (_ & ? & _). }
    assert (E : ∃ w1, pexec (PMain false) (mkPWorld m (PLoop ip' (port :: rest)))
                      = Some w1
                      ∧ (p_main w1 = PLoop ip' rest
                         ∨ in_call (length (m_calls m)) (p_main w1))).
    { simpl. unfold main_step. simpl. rewrite Hd, Hmu.
      destruct (Add (m_os m) (m_mgr m) port ip' port) as [[[err|] o'] mgr'].
      - eexists. split; [done|]. right. right. simpl. eauto.
      - eexists. split; [done|]. by left. }
    destruct E as (w1 & E & Hw1).
    destruct (pexec_inv o0 ip ports _ (mkPWorld m _) _ I P E) as [I1 P1].
    assert (H : ∃ ptr w' r, prun ptr w1 = Some w' ∧ p_main w' = PReturned r).
    { destruct Hw1 as [Hw1|Hw1].
      - by apply (IH w1 ip').
      - by eapply stopping_returns. }
    destruct H as (ptr & w' & r & Hr & Hw).
    exists (PMain false :: ptr), w', r. split; [|done].
    by rewrite prun_cons, E.
Qed.

(** X22. The command [proxy] can always be ended.  From every state that
    [runProxy] reaches once it is at its loop — adding Proxies, waiting for
    the signal, or inside [StopAll] with connections open and handlers
    relaying — there is a schedule of the signal, of the main goroutine, of
    the goroutines of the Proxies and of their peers after which [runProxy]
    has returned.  No state is reached in which the command is caught for
    good: no deadlock on the mutex, no [Wait] that cannot end. *)
Theorem runProxy_can_return (o : OS) (ip : string) (ports : list Z)
    (w : PWorld) :
  preachable o ip ports w →
  ∃ ptr w' r, prun ptr w = Some w' ∧ p_main w' = PReturned r.
Proof.
  intros R.
  pose proof (minv_reachable _ _ (preachable_mreachable _ _ _ _ R)) as I.
  pose proof (pinv_reachable _ _ _ _ R) as P.
  destruct (p_main w) as [ip' rest|t port err| |t|r] eqn:Hpc.
  - by eapply looping_returns.
  - eapply stopping_returns; [done..|]. rewrite Hpc. right. eauto.
  - by eapply waiting_returns.
  - eapply stopping_returns; [done..|]. rewrite Hpc. by left.
  - by exists [], w, r.
Qed.

Lemma runProxy_can_return_witness :
  ∃ ptr w' r, prun ptr pw_serving = Some w' ∧ p_main w' = PReturned r.
Proof.
  exact (runProxy_can_return _ _ _ _ pw_serving_reachable).
Defined.
